(** * healpy/projector.py: spherical projections, index maps and resampling

    A shallow embedding of [SphericalProj], [GnomonicProj] and
    [MollweideProj].  Floating-point numbers are modelled as the real
    numbers extended with the two infinities and not-a-number: the IEEE-754
    special values are kept (masking relies on them), rounding error,
    overflow and the sign of zero are left out.  Where these matter the
    scalar Gnomonic path is evaluated again on binary64 numbers (module
    [Double]).  numpy arrays are lists in row-major order together with
    their shape. *)

From Stdlib Require Import Reals ZArith List Bool Lia Lra Psatz.
From Stdlib Require Floats.
From Stdlib Require String.
Import ListNotations.
Open Scope R_scope.

(** ** Numbers *)

Module Num.

(** A [numpy.float64] without rounding and without overflow.  The
    arithmetic is numpy's: a zero divisor gives an infinity or
    not-a-number.  A python [float] behaves in the same way except that a
    division by zero and an overflowing [**] raise. *)
Inductive fval : Type :=
| Fin (r : R)
| PInf
| NInf
| NaN.

Definition Rltb (a b : R) : bool := if Rlt_dec a b then true else false.
Definition Rleb (a b : R) : bool := if Rle_dec a b then true else false.
Definition Reqb (a b : R) : bool := if Req_dec_T a b then true else false.

Definition fneg (a : fval) : fval :=
  match a with
  | Fin r => Fin (- r)
  | PInf => NInf
  | NInf => PInf
  | NaN => NaN
  end.

Definition fadd (a b : fval) : fval :=
  match a, b with
  | NaN, _ | _, NaN => NaN
  | Fin x, Fin y => Fin (x + y)
  | PInf, NInf | NInf, PInf => NaN
  | PInf, _ | _, PInf => PInf
  | NInf, _ | _, NInf => NInf
  end.

Definition fsub (a b : fval) : fval := fadd a (fneg b).

(** The infinity whose sign is the sign of [r]; not-a-number at zero. *)
Definition inf_of_sign (r : R) : fval :=
  if Rltb 0 r then PInf else if Rltb r 0 then NInf else NaN.

Definition fmul (a b : fval) : fval :=
  match a, b with
  | NaN, _ | _, NaN => NaN
  | Fin x, Fin y => Fin (x * y)
  | Fin x, PInf | PInf, Fin x => inf_of_sign x
  | Fin x, NInf | NInf, Fin x => inf_of_sign (- x)
  | PInf, PInf | NInf, NInf => PInf
  | PInf, NInf | NInf, PInf => NInf
  end.

(** numpy division: a zero divisor gives an infinity or not-a-number (with
    a warning), never an exception. *)
Definition fdiv (a b : fval) : fval :=
  match a, b with
  | NaN, _ | _, NaN => NaN
  | Fin x, Fin y => if Reqb y 0 then inf_of_sign x else Fin (x / y)
  | Fin _, PInf | Fin _, NInf => Fin 0
  | PInf, Fin y => if Rleb 0 y then PInf else NInf
  | NInf, Fin y => if Rleb 0 y then NInf else PInf
  | _, _ => NaN
  end.

(** [a > b] and [a <= b]: every comparison with not-a-number is false. *)
Definition fgt (a b : fval) : bool :=
  match a, b with
  | NaN, _ | _, NaN => false
  | Fin x, Fin y => Rltb y x
  | PInf, PInf => false
  | PInf, _ => true
  | _, NInf => match a with NInf => false | _ => true end
  | _, _ => false
  end.

Definition fle (a b : fval) : bool :=
  match a, b with
  | NaN, _ | _, NaN => false
  | Fin x, Fin y => Rleb x y
  | NInf, _ => true
  | _, PInf => true
  | _, _ => false
  end.

Definition fsqr (a : fval) : fval := fmul a a.

Definition fsqrt (a : fval) : fval :=
  match a with
  | Fin r => if Rltb r 0 then NaN else Fin (sqrt r)
  | PInf => PInf
  | _ => NaN
  end.

Definition fasin (a : fval) : fval :=
  match a with
  | Fin r => if Rltb r (-1) then NaN else if Rltb 1 r then NaN else Fin (asin r)
  | _ => NaN
  end.

Definition fcos (a : fval) : fval :=
  match a with Fin r => Fin (cos r) | _ => NaN end.

Definition fsin (a : fval) : fval :=
  match a with Fin r => Fin (sin r) | _ => NaN end.

(** [numpy.maximum]: not-a-number propagates. *)
Definition fmaximum (a b : fval) : fval :=
  match a, b with
  | NaN, _ | _, NaN => NaN
  | _, _ => if fle a b then b else a
  end.

(** [numpy.around] on a real: the nearest integer, ties to the even one. *)
Definition around (r : R) : Z :=
  let f := Int_part r in
  let d := r - IZR f in
  if Rltb d (1 / 2) then f
  else if Rltb (1 / 2) d then (f + 1)%Z
  else if Z.even f then f else (f + 1)%Z.

(** [numpy.around(v).astype(long)].  [long] is a 64-bit integer: casting
    a value that is not finite, or a finite one beyond the 64-bit range,
    gives the smallest 64-bit integer (x86-64). *)
Definition int64_min : Z := (- 2 ^ 63)%Z.
Definition int64_max : Z := (2 ^ 63 - 1)%Z.

Definition fits_int64 (z : Z) : bool :=
  ((int64_min <=? z) && (z <=? int64_max))%Z.

Definition around_astype_long (v : fval) : Z :=
  match v with
  | Fin r => if fits_int64 (around r) then around r else int64_min
  | _ => int64_min
  end.

Definition pi : R := PI.
Definition dtor : R := pi / 180.

(** [numpy.arccos]. *)
Definition facos (a : fval) : fval :=
  match a with
  | Fin r => if Rltb r (-1) then NaN else if Rltb 1 r then NaN else Fin (acos r)
  | _ => NaN
  end.

End Num.
Import Num.

(** ** Outcomes of a call *)

Inductive exn : Type :=
| TypeError
| ValueError
| IndexError
| NotImplementedError
| OverflowError.

Inductive result (A : Type) : Type :=
| Ok (a : A)
| Raise (e : exn).
Arguments Ok {A} a.
Arguments Raise {A} e.

Definition bind {A B : Type} (m : result A) (k : A -> result B) : result B :=
  match m with
  | Ok a => k a
  | Raise e => Raise e
  end.

Notation "x <- m ;; k" := (bind m (fun x => k))
  (at level 61, m at next level, right associativity).

Declare Scope fval_scope.
Delimit Scope fval_scope with fv.
Infix "+^" := fadd (at level 50, left associativity) : fval_scope.
Infix "-^" := fsub (at level 50, left associativity) : fval_scope.
Infix "*^" := fmul (at level 40, left associativity) : fval_scope.
Infix "/^" := fdiv (at level 40, left associativity) : fval_scope.
Infix ">^" := fgt (at level 70, no associativity) : fval_scope.

(** A python integer used in float arithmetic. *)
Definition FZ (z : Z) : fval := Fin (IZR z).

(** ** Arrays *)

(** A scalar or a one-dimensional numpy array: the two kinds of value the
    methods tell apart with [hasattr(v, '__len__')].  A scalar is a
    [numpy.float64], as the methods themselves return. *)
Inductive comp : Type :=
| Sc (v : fval)
| Ar (l : list fval).

(** The two calling conventions [f(x, y)] and [f((x, y))] (second argument
    left at [None]). *)
Inductive xyarg : Type :=
| XY_both (x y : comp)
| XY_pair (p : comp * comp).

Definition xy_unpack (a : xyarg) : comp * comp :=
  match a with
  | XY_both x y => (x, y)
  | XY_pair p => p
  end.

(** The four ways [ij2xy] can be called: [i] and [j] each given or [None];
    [i] alone must be a pair. *)
Inductive ijarg : Type :=
| IJ_none
| IJ_both (i j : Z)
| IJ_pair (p : Z * Z)
| IJ_only_j (j : Z).

(** A two-dimensional array in row-major order, with the mask of a
    [numpy.ma] masked array ([None] for a plain array and for [nomask]). *)
Record grid : Type := mkGrid {
  g_shape : nat * nat;
  g_data : list fval;
  g_mask : option (list bool)
}.

Inductive plane : Type :=
| P_scalar (x y : fval)
| P_grid (x y : grid).

(** An index as [xy2ij] returns it. *)
Inductive ival : Type :=
| I_int (z : Z)
| I_nan
| I_arr (l : list Z)
| I_masked (z : Z) (mask : option (list bool)).

Definition ones (n : nat) : list fval := repeat (Fin 1) n.
Definition arange (n : nat) : list fval := map (fun k => Fin (INR k)) (seq 0 n).

(** [numpy.outer(u, v)], flattened: entry [(a, b)] is [u[a] * v[b]]. *)
Definition outer (u v : list fval) : list fval :=
  flat_map (fun a => map (fun b => (a *^ b)%fv) v) u.

(** [mask.any()], and the replacement of an all-false mask by [nomask]. *)
Definition any (m : list bool) : bool := existsb (fun b => b) m.
Definition mask_or_nomask (m : list bool) : option (list bool) :=
  if any m then Some m else None.

(** [numpy.around(c).astype(long)] on a scalar or an array. *)
Definition around_long (c : comp) : ival :=
  match c with
  | Sc v => I_int (around_astype_long v)
  | Ar l => I_arr (map around_astype_long l)
  end.

(** An elementwise operation on a scalar or an array. *)
Definition cmap (f : fval -> fval) (c : comp) : comp :=
  match c with
  | Sc v => Sc (f v)
  | Ar l => Ar (map f l)
  end.

(** ** Index arrays, gathering and scattering *)

(** [numpy.where(mask == False)]: the positions where the mask is false,
    in increasing order. *)
Fixpoint where_false_from (off : nat) (mask : list bool) : list nat :=
  match mask with
  | [] => []
  | true :: m => where_false_from (S off) m
  | false :: m => off :: where_false_from (S off) m
  end.

Definition where_false (mask : list bool) : list nat := where_false_from 0 mask.

(** [a[w]] for an index array [w]: an index past the end raises. *)
Fixpoint gather (a : list fval) (w : list nat) : result (list fval) :=
  match w with
  | [] => Ok []
  | k :: w' =>
      match nth_error a k with
      | Some v => r <- gather a w' ;; Ok (v :: r)
      | None => Raise IndexError
      end
  end.

Fixpoint set_nth (k : nat) (v : fval) (a : list fval) : list fval :=
  match a, k with
  | [], _ => []
  | _ :: a', O => v :: a'
  | x :: a', S k' => x :: set_nth k' v a'
  end.

(** [a[w] = vals] for an index array [w] and as many values. *)
Fixpoint scatter (a : list fval) (w : list nat) (vals : list fval) : list fval :=
  match w, vals with
  | k :: w', v :: vals' => scatter (set_nth k v a) w' vals'
  | _, _ => a
  end.

(** [c[w]] on a component: a scalar cannot be indexed. *)
Definition cgather (c : comp) (w : list nat) : result (list fval) :=
  match c with
  | Sc _ => Raise IndexError
  | Ar l => gather l w
  end.

(** [a[w]] and [a[w] = vals] for a boolean mask [w] (true = selected). *)
Fixpoint select (w : list bool) (a : list fval) : list fval :=
  match w, a with
  | b :: w', x :: a' => if b then x :: select w' a' else select w' a'
  | _, _ => []
  end.

Fixpoint assign (w : list bool) (a vals : list fval) : list fval :=
  match w, a with
  | b :: w', x :: a' =>
      if b then
        match vals with
        | v :: vals' => v :: assign w' a' vals'
        | [] => x :: a'
        end
      else x :: assign w' a' vals
  | _, _ => a
  end.

(** A binary operation under numpy broadcasting; arrays of different
    lengths are taken not to broadcast. *)
Definition cmap2 (f : fval -> fval -> fval) (a b : comp) : result comp :=
  match a, b with
  | Sc x, Sc y => Ok (Sc (f x y))
  | Sc x, Ar l => Ok (Ar (map (f x) l))
  | Ar l, Sc y => Ok (Ar (map (fun x => f x y) l))
  | Ar l, Ar m =>
      if (length l =? length m)%nat
      then Ok (Ar (map (fun p => f (fst p) (snd p)) (combine l m)))
      else Raise ValueError
  end.

Definition zip_with (f : fval -> fval -> fval) (l m : list fval) : list fval :=
  map (fun p => f (fst p) (snd p)) (combine l m).

(** A vector: its three components. *)
Definition vec3 : Type := comp * comp * comp.

(** The ways [vec2xy] can be called: [vx] holding the three components,
    all three given, or one of [vy], [vz] missing. *)
Inductive vecarg : Type :=
| V_packed (v : vec3)
| V_split (vx vy vz : comp)
| V_only_vy (vx vy : comp)
| V_only_vz (vx vz : comp).

(** A rotator for the examples: the rotation that turns the axes,
    [x -> y -> z -> x]. *)
Definition turn_axes (arg : vecarg) : result vec3 :=
  match arg with
  | V_packed (vx, vy, vz) | V_split vx vy vz => Ok (vy, vz, vx)
  | V_only_vy _ _ | V_only_vz _ _ => Raise TypeError
  end.

(** ** Table lookup: [searchsorted] and [__lininterp] *)

Module Interp.

(** [X.searchsorted(x)] (numpy, side ['left']): a binary search for the
    first index whose entry is not below [key]. *)
Fixpoint bsearch (fuel : nat) (X : list R) (key : R) (lo hi : nat) : nat :=
  match fuel with
  | O => lo
  | S fuel' =>
      if (lo <? hi)%nat then
        let mid := (lo + (hi - lo) / 2)%nat in
        if Rltb (nth mid X 0) key
        then bsearch fuel' X key (mid + 1) hi
        else bsearch fuel' X key lo mid
      else lo
  end.

Definition searchsorted (X : list R) (key : R) : nat :=
  bsearch (length X) X key 0 (length X).

(** [a[i]] with python's negative indices; out of range raises. *)
Definition getitem {A : Type} (a : list A) (i : Z) : result A :=
  let n := Z.of_nat (length a) in
  let k := if (i <? 0)%Z then (i + n)%Z else i in
  if ((0 <=? k) && (k <? n))%Z then
    match nth_error a (Z.to_nat k) with
    | Some v => Ok v
    | None => Raise IndexError
    end
  else Raise IndexError.

(** [__lininterp(X, Y, x)] at a scalar [x]. *)
Definition lininterp (X : list R) (Y : list fval) (x : R) : result fval :=
  let idx := Z.of_nat (searchsorted X x) in
  y0 <- getitem Y (idx - 1) ;;
  y1 <- getitem Y idx ;;
  x1 <- getitem X idx ;;
  x0 <- getitem X (idx - 1) ;;
  Ok (y0 +^ (y1 -^ y0) /^ (Fin x1 -^ Fin x0) *^ (Fin x -^ Fin x0))%fv.

(** The table is strictly increasing. *)
Definition increasing (X : list R) : Prop :=
  forall i j : nat, (i < j < length X)%nat -> nth i X 0 < nth j X 0.

End Interp.

(** ** SphericalProj: the abstract operations *)

Module SphericalProj.

(** The six operations of the base class have the body [pass]: whatever
    the arguments, the call returns [None]. *)
Definition ang2xy (theta : comp) (phi : option comp) (lonlat direct : bool)
  : result (option plane) := Ok None.

Definition vec2xy (vx : comp) (vy vz : option comp) (direct : bool)
  : result (option plane) := Ok None.

Definition xy2ang (x : comp) (y : option comp) (lonlat direct : bool)
  : result (option (comp * comp)) := Ok None.

Definition xy2vec (x : comp) (y : option comp) (direct : bool)
  : result (option (comp * comp * comp)) := Ok None.

Definition xy2ij (x : comp) (y : option comp)
  : result (option (ival * ival)) := Ok None.

Definition ij2xy (i j : option Z) : result (option plane) := Ok None.

(** [set_flip]: the multiplier of the flip convention. *)
Inductive flipconv : Type :=
| Astro
| Geo
| Other.

Definition set_flip (f : option flipconv) : result Z :=
  match f with
  | None | Some Astro => Ok (-1)%Z
  | Some Geo => Ok 1%Z
  | Some Other => Raise ValueError
  end.

(** The methods [projmap] calls on the concrete projection. *)
Record projector : Type := mkProjector {
  p_ij2xy : ijarg -> result plane;
  p_xy2vec : xyarg -> bool -> result vec3
}.

(** A coordinate system given by the caller: a name or a sequence of
    names. *)
Inductive coordarg : Type :=
| C_str (s : String.string)
| C_seq (l : list String.string).

Definition mkcoord (coordsys : option String.string) (coord : option coordarg)
  : result (option coordarg * option coordarg) :=
  match coordsys, coord with
  | None, _ => Ok (coord, coord)
  | Some s, None => Ok (Some (C_str s), Some (C_str s))
  | Some s, Some (C_str c) => Ok (Some (C_str c), Some (C_str s))
  | Some s, Some (C_seq (c :: _)) => Ok (Some (C_str c), Some (C_str s))
  | Some s, Some (C_seq []) => Raise IndexError
  end.

(** What [vec2pix_func] returns: one pixel number or an array of them. *)
Inductive pixels : Type :=
| Pix_one (k : Z)
| Pix_arr (ks : list Z).

(** A two-dimensional array without mask: the image. *)
Record image : Type := mkImage {
  i_shape : nat * nat;
  i_data : list fval
}.

Section Projmap.

Variable Rot : Type.

(** [Rotator(rot=rot, coord=...).I(vec)] of module [rotator]. *)
Variable new_rotator_I :
  Rot -> option coordarg * option coordarg -> vec3 -> result vec3.

(** [map[pix]]. *)
Fixpoint getitems (map : list fval) (ks : list Z) : result (list fval) :=
  match ks with
  | [] => Ok []
  | k :: ks' =>
      v <- Interp.getitem map k ;;
      r <- getitems map ks' ;;
      Ok (v :: r)
  end.

Definition map_getitem (map : list fval) (pix : pixels) : result comp :=
  match pix with
  | Pix_one k => v <- Interp.getitem map k ;; Ok (Sc v)
  | Pix_arr ks => l <- getitems map ks ;; Ok (Ar l)
  end.

Definition count_true (w : list bool) : nat :=
  length (filter (fun b => b) w).

(** [img[w] = vals]: a scalar is written to every selected position, an
    array must hold one value for each of them. *)
Definition img_assign (w : list bool) (img : list fval) (vals : comp)
  : result (list fval) :=
  match vals with
  | Sc v => Ok (assign w img (repeat v (count_true w)))
  | Ar l =>
      if (length l =? count_true w)%nat then Ok (assign w img l)
      else if (length l =? 1)%nat
           then Ok (assign w img (repeat (hd NaN l) (count_true w)))
           else Raise ValueError
  end.

(** The selection [w]: the positions whose mask is false, or every
    position ([slice(None)]) of an array without mask. *)
Definition selection (x : grid) : list bool :=
  match g_mask x with
  | Some m => List.map negb m
  | None => repeat true (fst (g_shape x) * snd (g_shape x))
  end.

(** [projmap].  Both branches of the test on the numpy version select
    the unmasked positions of a masked array that has a mask, and every
    position otherwise. *)
Definition projmap (self : projector) (coordsys : option String.string)
    (map : list fval) (vec2pix : comp -> comp -> comp -> pixels)
    (rot : Rot) (coord : option coordarg) : result image :=
  p <- p_ij2xy self IJ_none ;;
  match p with
  | P_scalar _ _ => Raise TypeError
  | P_grid x y =>
      let n := (fst (g_shape x) * snd (g_shape x))%nat in
      let w := selection x in
      let img := List.map (fun z => z -^ PInf)%fv (repeat (Fin 0) n) in
      vec <- p_xy2vec self (XY_both (Ar (select w (g_data x)))
                                    (Ar (select w (g_data y)))) false ;;
      c <- mkcoord coordsys coord ;;
      vec <- new_rotator_I rot c vec ;;
      let '(v0, v1, v2) := vec in
      let pix := vec2pix v0 v1 v2 in
      vals <- map_getitem map pix ;;
      data <- img_assign w img vals ;;
      Ok (mkImage (g_shape x) data)
  end.

End Projmap.

(** What [projmap] expects of its collaborators.  A rotation keeps the
    shape of the arrays it is given. *)
Definition shape_preserving (r : vec3 -> result vec3) : Prop :=
  forall l0 l1 l2 : list fval,
    length l1 = length l0 -> length l2 = length l0 ->
    exists m0 m1 m2 : list fval,
      r (Ar l0, Ar l1, Ar l2) = Ok (Ar m0, Ar m1, Ar m2) /\
      length m0 = length l0 /\ length m1 = length l0 /\ length m2 = length l0.

(** [vec2pix] answers the pixel [k] for every vector: as one number, or
    as an array with one entry per vector. *)
Definition fixed_pixel (vec2pix : comp -> comp -> comp -> pixels) (k : Z) : Prop :=
  forall v0 v1 v2 : comp,
    vec2pix v0 v1 v2 = Pix_one k \/
    exists l : list fval, v0 = Ar l /\ vec2pix v0 v1 v2 = Pix_arr (repeat k (length l)).

(** A pixel function for the examples: every vector falls in pixel [k]. *)
Definition constant_pixel (k : Z) (v0 v1 v2 : comp) : pixels :=
  match v0 with
  | Sc _ => Pix_one k
  | Ar l => Pix_arr (repeat k (length l))
  end.

(** Position [p] (row-major) of a grid is masked. *)
Definition masked_at (x : grid) (p : nat) : bool :=
  match g_mask x with
  | Some m => nth p m false
  | None => false
  end.

(** [set_proj_plane_info] of the base class: the keyword arguments are
    kept as the array information unless every value is [None]. *)
Definition set_proj_plane_info {V : Type} (kwds : list (String.string * option V))
  : option (list (String.string * option V)) :=
  let allNone :=
    fold_left (fun acc kv => match snd kv with Some _ => false | None => acc end)
              kwds true in
  if negb allNone then Some kwds else None.

(** [get_fov] of the base class. *)
Definition get_fov : R := 2 * pi.

(** [get_center]: [rots0] holds the first two angles (radians) of the
    first rotation of the rotator (module [rotator]). *)
Definition get_center (rots0 : R * R) (lonlat : bool) : R * R :=
  let lon := fst rots0 * 180 / pi in
  let lat := snd rots0 * 180 / pi in
  if lonlat then (lon, lat) else (pi / 2 - lat * dtor, lon * dtor).

End SphericalProj.

(** ** GnomonicProj *)

Module Gnomonic.

Record info : Type := mkInfo {
  xsize : Z;
  ysize : Z;
  reso : R
}.

(** [set_proj_plane_info]: defaults replace every absent value, so the
    array information of a Gnomonic projection is always set. *)
Definition set_proj_plane_info (xs ys : option Z) (rs : option R) : option info :=
  let xs' := match xs with Some v => v | None => 200%Z end in
  let ys' := match ys with Some v => v | None => xs' end in
  let rs' := match rs with Some v => v | None => 1.5 end in
  Some (mkInfo xs' ys' rs').

Definition dx (a : info) : R := reso a / 60 * dtor.
Definition xc (a : info) : R := 0.5 * (IZR (xsize a) - 1).
Definition yc (a : info) : R := 0.5 * (IZR (ysize a) - 1).

(** [xy2ij].  The coordinates are numpy values, as [ij2xy] returns them:
    with a resolution of zero the division gives an infinity or
    not-a-number, where python floats would raise [ZeroDivisionError]. *)
Definition xy2ij (ai : option info) (arg : xyarg) : result (ival * ival) :=
  match ai with
  | None => Raise TypeError
  | Some a =>
      let '(x, y) := xy_unpack arg in
      let j := around_long (cmap (fun v => Fin (xc a) +^ v /^ Fin (dx a))%fv x) in
      let i := around_long (cmap (fun v => Fin (yc a) -^ v /^ Fin (dx a))%fv y) in
      Ok (i, j)
  end.

Definition ij2xy (ai : option info) (arg : ijarg) : result plane :=
  match ai with
  | None => Raise TypeError
  | Some a =>
      let scalar (i j : Z) :=
        P_scalar ((FZ j -^ Fin (xc a)) *^ Fin (dx a))%fv
                 ((Fin (yc a) -^ FZ i) *^ Fin (dx a))%fv in
      match arg with
      | IJ_none =>
          if ((xsize a <? 0) || (ysize a <? 0))%Z then Raise ValueError
          else
            let nx := Z.to_nat (xsize a) in
            let ny := Z.to_nat (ysize a) in
            let idx := outer (ones nx) (arange ny) in
            let x := map (fun v => (v -^ Fin (xc a)) *^ Fin (dx a))%fv idx in
            let idx := outer (arange nx) (ones ny) in
            let y := map (fun v => (Fin (yc a) -^ v) *^ Fin (dx a))%fv idx in
            Ok (P_grid (mkGrid (nx, ny) x None) (mkGrid (nx, ny) y None))
      | IJ_both i j => Ok (scalar i j)
      | IJ_pair (i, j) => Ok (scalar i j)
      | IJ_only_j _ => Raise TypeError
      end
  end.

(** [xy2ij(ij2xy(i, j))]: the pair returned by [ij2xy] is passed on as the
    single argument of [xy2ij]. *)
Definition roundtrip (ai : option info) (i j : Z) : result (ival * ival) :=
  p <- ij2xy ai (IJ_both i j) ;;
  match p with
  | P_scalar x y => xy2ij ai (XY_pair (Sc x, Sc y))
  | P_grid _ _ => Raise TypeError
  end.

(** The pair [(i, j)] is within the bounds of the array.  The array
    [ij2xy()] returns has [xsize] rows and [ysize] columns, while the
    centre [xc] of the column index [j] is computed from [xsize]: the pair
    counts as within the bounds under either reading. *)
Definition in_bounds (a : info) (i j : Z) : Prop :=
  ((0 <= i < xsize a) /\ (0 <= j < ysize a))%Z \/
  ((0 <= i < ysize a) /\ (0 <= j < xsize a))%Z.

Section Vec.

(** The rotator of the projection (module [rotator], not part of this
    file): the rotation into the projection frame, and its inverse. *)
Variable rotator : vecarg -> result vec3.
Variable rotator_I : vec3 -> result vec3.

(** The body of [vec2xy] once the vector [vec] is known. *)
Definition project (flip : Z) (vec : vec3) : result (comp * comp) :=
  let '(v0, v1, v2) := vec in
  match v0 with
  | Sc a =>
      let mask := fle a (Fin 0) in
      if mask then Ok (Sc NaN, Sc NaN)
      else Ok (cmap (fun b => FZ flip *^ b /^ a)%fv v1,
               cmap (fun c => c /^ a)%fv v2)
  | Ar l0 =>
      let mask := map (fun a => fle a (Fin 0)) l0 in
      let w := where_false mask in
      let x := map (fun z => z +^ NaN)%fv (repeat (Fin 0) (length l0)) in
      let y := map (fun z => z +^ NaN)%fv (repeat (Fin 0) (length l0)) in
      g1 <- cgather v1 w ;;
      g0 <- gather l0 w ;;
      let x := scatter x w
                 (zip_with fdiv (map (fun b => FZ flip *^ b)%fv g1) g0) in
      g2 <- cgather v2 w ;;
      g0 <- gather l0 w ;;
      let y := scatter y w (zip_with fdiv g2 g0) in
      Ok (Ar x, Ar y)
  end.

(** The vector [vec2xy] works on: rotated into the projection frame, or
    the argument as it is in direct mode. *)
Definition frame_vector (arg : vecarg) (direct : bool) : result vec3 :=
  if negb direct then rotator arg
  else match arg with
       | V_packed v => Ok v
       | V_split vx vy vz => Ok (vx, vy, vz)
       | V_only_vy _ _ | V_only_vz _ _ => Raise ValueError
       end.

Definition vec2xy (flip : Z) (arg : vecarg) (direct : bool)
  : result (comp * comp) :=
  vec <- frame_vector arg direct ;;
  project flip vec.

Definition xy2vec (flip : Z) (arg : xyarg) (direct : bool) : result vec3 :=
  let '(x, y) := xy_unpack arg in
  s <- cmap2 (fun a b => Fin 1 +^ fsqr a +^ fsqr b)%fv x y ;;
  let rm1 := cmap (fun v => Fin 1 /^ fsqrt v)%fv s in
  v1 <- cmap2 (fun r a => FZ flip *^ r *^ a)%fv rm1 x ;;
  v2 <- cmap2 (fun r b => r *^ b)%fv rm1 y ;;
  let vec := (rm1, v1, v2) in
  if negb direct then rotator_I vec else Ok vec.

(** [xy2vec(vec2xy(v, direct=True), direct=True)]: the pair returned by
    [vec2xy] is the single argument of [xy2vec]. *)
Definition vec_roundtrip (flip : Z) (v : vec3) : result vec3 :=
  p <- vec2xy flip (V_packed v) true ;;
  xy2vec flip (XY_pair p) true.

End Vec.

(** The plane coordinates of one vector, not-a-number where the first
    component is not positive: what [vec2xy] computes at each position. *)
Definition masked_x (flip : Z) (a b : fval) : fval :=
  if fle a (Fin 0) then NaN else (FZ flip *^ b /^ a)%fv.
Definition masked_y (a c : fval) : fval :=
  if fle a (Fin 0) then NaN else (c /^ a)%fv.

(** The projection as [projmap] sees it. *)
Definition projector (rotator_I : vec3 -> result vec3) (flip : Z)
    (ai : option info) : SphericalProj.projector :=
  SphericalProj.mkProjector (ij2xy ai) (xy2vec rotator_I flip).


(** [get_extent]: (left, right, bottom, top), from the plane points of
    the pixels [(0, 0)] and [(xsize-1, ysize-1)]. *)
Definition get_extent (ai : option info) : result (fval * fval * fval * fval) :=
  match ai with
  | None => Raise TypeError
  | Some a =>
      p <- ij2xy ai (IJ_both 0 0) ;;
      q <- ij2xy ai (IJ_both (xsize a - 1) (ysize a - 1)) ;;
      match p, q with
      | P_scalar x0 y0, P_scalar x1 y1 => Ok (x0, x1, y1, y0)
      | _, _ => Raise TypeError
      end
  end.

(** [get_fov]: twice the angle between the centre and the corner pixel
    [(0, 0)]. *)
Definition get_fov (rotator_I : vec3 -> result vec3) (flip : Z)
    (ai : option info) : result comp :=
  p <- ij2xy ai (IJ_both 0 0) ;;
  match p with
  | P_scalar x y =>
      v <- xy2vec rotator_I flip (XY_pair (Sc x, Sc y)) true ;;
      let '(vx, _, _) := v in
      Ok (cmap (fun a => Fin 2 *^ facos a)%fv vx)
  | P_grid _ _ => Raise TypeError
  end.

(** [vec2xy(xy2vec(x, y, direct=True), direct=True)]. *)
Definition plane_roundtrip (rotator : vecarg -> result vec3)
    (rotator_I : vec3 -> result vec3) (flip : Z) (x y : fval)
  : result (comp * comp) :=
  v <- xy2vec rotator_I flip (XY_both (Sc x) (Sc y)) true ;;
  vec2xy rotator flip (V_packed v) true.

(** [ij2xy(xy2ij(x, y))]: the plane point of the pixel a point falls in. *)
Definition pixel_centre (ai : option info) (x y : fval) : result plane :=
  r <- xy2ij ai (XY_both (Sc x) (Sc y)) ;;
  match r with
  | (I_int i, I_int j) => ij2xy ai (IJ_both i j)
  | _ => Raise TypeError
  end.

End Gnomonic.

(** ** GnomonicProj on binary64 numbers *)

(** The scalar branch of [vec2xy] and [xy2vec] in direct mode, on IEEE-754
    binary64 numbers with their rounding and overflow.  [flip] is the
    multiplier [-1.] or [1.]. *)
Module Double.

Import PrimFloat.

Definition vec2xy (flip : float) (vec : float * float * float) : float * float :=
  let '(v0, v1, v2) := vec in
  let mask := PrimFloat.leb v0 0 in
  if mask then (nan, nan)
  else (flip * v1 / v0, v2 / v0)%float.

Definition xy2vec (flip : float) (p : float * float) : float * float * float :=
  let '(x, y) := p in
  let rm1 := (1 / PrimFloat.sqrt (1 + x * x + y * y))%float in
  (rm1, flip * rm1 * x, rm1 * y)%float.

(** [xy2vec(vec2xy(v, direct=True), direct=True)]. *)
Definition vec_roundtrip (flip : float) (vec : float * float * float)
  : float * float * float :=
  xy2vec flip (vec2xy flip vec).

End Double.

(** ** MollweideProj: the shared auxiliary table *)

Module Molldata.

(** [numpy.arange(start, stop, 1.)] for whole-number bounds. *)
Definition arange_from (start stop : Z) : list R :=
  map (fun k => IZR (start + Z.of_nat k)) (seq 0 (Z.to_nat (stop - start))).

(** [__fmoll(x, args)] and [__dfmoll(x, args)], elementwise on arrays. *)
Definition fmoll1 (x arg : fval) : fval :=
  (Fin 2 *^ x +^ fsin (Fin 2 *^ x) -^ Fin pi *^ fsin arg)%fv.

Definition dfmoll1 (x : fval) : fval :=
  (Fin 2 *^ (Fin 1 +^ fcos (Fin 2 *^ x)))%fv.

Definition fmoll (x : list fval) (args : list fval) : list fval :=
  map (fun p => fmoll1 (fst p) (snd p)) (combine x args).

Definition dfmoll (x : list fval) (args : option (list fval)) : list fval :=
  map dfmoll1 x.

(** [__findRoot(f, df, x0, argsf, argsdf, niter)]: [niter] Newton steps
    on the whole array, without any convergence test. *)
Definition newton_update (x fx dfx : list fval) : list fval :=
  map (fun p => (fst p +^ (fneg (fst (snd p)) /^ snd (snd p)))%fv)
      (combine x (combine fx dfx)).

Definition findRoot {A B : Type}
    (f : list fval -> A -> list fval) (df : list fval -> B -> list fval)
    (x0 : list fval) (argsf : A) (argsdf : B) (niter : Z) : list fval :=
  let niter := Z.min (Z.abs niter) 1000 in
  Nat.iter (Z.to_nat niter)
    (fun x => newton_update x (f x argsf) (df x argsdf)) x0.

(** The sample latitudes and the two tables of [__initialise_data]. *)
Definition samples : list R :=
  map (fun d => (d - 90) * dtor) (arange_from 1 180).

Definition table_X : list R := [- pi / 2] ++ samples ++ [pi / 2].

Definition table_Y : list fval :=
  [Fin (- pi / 2)]
  ++ findRoot fmoll dfmoll (map Fin samples) (map Fin samples) None 10
  ++ [Fin (pi / 2)].

(** The class attribute [__molldata]: the empty list, or the list of the
    two tables.  [builds] counts how many times the tables were computed. *)
Record state : Type := mkState {
  molldata : option (list R * list fval);
  builds : nat
}.

Definition initial : state := mkState None 0.

Definition initialise_data (s : state) : state :=
  match molldata s with
  | None => mkState (Some (table_X, table_Y)) (S (builds s))
  | Some _ => s
  end.

(** [MollweideProj.__init__], as far as the table is concerned. *)
Definition construct (s : state) : state := initialise_data s.

(** One Newton step and the iteration for a single latitude. *)
Definition newton_step (lat : R) (a : fval) : fval :=
  (a +^ fneg (fmoll1 a (Fin lat)) /^ dfmoll1 a)%fv.

End Molldata.

(** ** MollweideProj *)

Module Mollweide.

(** The array information holds [xsize] only; it is [None] when the
    projection was built with [xsize=None]. *)
Definition set_proj_plane_info (xs : option Z) : option Z := xs.

Definition ysize (xsize : Z) : Z := (xsize / 2)%Z.
Definition xc (xsize : Z) : R := (IZR xsize - 1) / 2.
Definition yc (xsize : Z) : R := (IZR (ysize xsize) - 1) / 2.

(** [x**2/4. + y**2 > 1.]: the point lies outside the ellipse. *)
Definition outside (x y : fval) : bool :=
  (fsqr x /^ Fin 4 +^ fsqr y >^ Fin 1)%fv.

(** [long(a)] on a float array: only an array of one element converts. *)
Definition long_of_float (v : fval) : result Z :=
  match v with
  | Fin r => Ok (around r)
  | NaN => Raise ValueError
  | PInf | NInf => Raise OverflowError
  end.

Definition long_around (c : comp) : result Z :=
  match c with
  | Sc v => long_of_float v
  | Ar [v] => long_of_float v
  | Ar _ => Raise TypeError
  end.

(** The mask [x**2/4. + y**2 > 1.] under numpy broadcasting, for an array
    [x] of one element. *)
Definition outside_mask (x : list fval) (y : comp) : list bool :=
  match y with
  | Sc b => map (fun a => outside a b) x
  | Ar [b] => map (fun a => outside a b) x
  | Ar l => map (fun p => outside (fst p) (snd p)) (combine x l)
  end.

(** The truth value of [x**2/4. + y**2 > 1.] for a scalar [x]: an array of
    more than one element has none. *)
Definition outside_truth (x : fval) (y : comp) : result bool :=
  match y with
  | Sc b => Ok (outside x b)
  | Ar [] => Ok false
  | Ar [b] => Ok (outside x b)
  | Ar _ => Raise ValueError
  end.

(** [xy2ij].  The coordinates are numpy values, as [ij2xy] returns them:
    the squares of the scalar branch never raise, where those of python
    floats beyond about [1.3e154] would raise [OverflowError]. *)
Definition xy2ij (ai : option Z) (arg : xyarg) : result (ival * ival) :=
  match ai with
  | None => Raise TypeError
  | Some xsize =>
      let '(x, y) := xy_unpack arg in
      let xc := Fin (xc xsize) in
      let yc := Fin (yc xsize) in
      let fj := (fun v => v *^ xc /^ Fin 2 +^ xc)%fv in
      let fi := (fun v => yc -^ v *^ yc)%fv in
      match x with
      | Ar lx =>
          j <- long_around (cmap fj x) ;;
          i <- long_around (cmap fi y) ;;
          let mask := mask_or_nomask (outside_mask lx y) in
          Ok (I_masked i mask, I_masked j mask)
      | Sc vx =>
          out <- outside_truth vx y ;;
          if out then Ok (I_nan, I_nan)
          else
            let j := around_long (cmap fj x) in
            let i := around_long (cmap fi y) in
            Ok (i, j)
      end
  end.

Definition ij2xy (ai : option Z) (arg : ijarg) : result plane :=
  match ai with
  | None => Raise TypeError
  | Some xsize =>
      let ysize := ysize xsize in
      let xc := Fin (xc xsize) in
      let yc := Fin (yc xsize) in
      let scalar (i j : Z) :=
        let y := ((yc -^ FZ i) /^ yc)%fv in
        let x := (Fin 2 *^ (FZ j -^ xc) /^ xc)%fv in
        if outside x y then P_scalar NaN NaN else P_scalar x y in
      match arg with
      | IJ_none =>
          if ((xsize <? 0) || (ysize <? 0))%Z then Raise ValueError
          else
            let nx := Z.to_nat xsize in
            let ny := Z.to_nat ysize in
            let idx := outer (arange ny) (ones nx) in
            let y := map (fun v => (yc -^ v) /^ yc)%fv idx in
            let idx := outer (ones ny) (arange nx) in
            let x := map (fun v => Fin 2 *^ (v -^ xc) /^ xc)%fv idx in
            let mask := map (fun p => outside (fst p) (snd p)) (combine x y) in
            let mask := mask_or_nomask mask in
            Ok (P_grid (mkGrid (ny, nx) x mask) (mkGrid (ny, nx) y mask))
      | IJ_both i j => Ok (scalar i j)
      | IJ_pair (i, j) => Ok (scalar i j)
      | IJ_only_j _ => Raise TypeError
      end
  end.

Definition roundtrip (ai : option Z) (i j : Z) : result (ival * ival) :=
  p <- ij2xy ai (IJ_both i j) ;;
  match p with
  | P_scalar x y => xy2ij ai (XY_pair (Sc x, Sc y))
  | P_grid _ _ => Raise TypeError
  end.

(** The plane point of the pixel [(i, j)], for stating where it lies. *)
Definition plane_x (xsize j : Z) : R := 2 * (IZR j - xc xsize) / xc xsize.
Definition plane_y (xsize i : Z) : R := (yc xsize - IZR i) / yc xsize.

(** The pixel's point is inside the ellipse [x**2/4 + y**2 <= 1]. *)
Definition in_ellipse (xsize i j : Z) : Prop :=
  plane_x xsize j * plane_x xsize j / 4
    + plane_y xsize i * plane_y xsize i <= 1.

(** python's [a % b] on floats, for [b] not zero: the result has the sign
    of [b]. *)
Definition pymod (a b : R) : R := a - b * IZR (Int_part (a / b)).

(** [phi = (phi+pi)%(2*pi)-pi]. *)
Definition wrap_phi (phi : R) : R := pymod (phi + pi) (2 * pi) - pi.

Section Vec.

(** From module [rotator], not part of this file: [vec2dir], giving the
    colatitude and azimuth of a vector, the rotator of the projection and
    its inverse. *)
Variable vec2dir : vecarg -> result (R * R).
Variable rotator : vecarg -> vecarg.
Variable rotator_I : vec3 -> result vec3.

(** The body of [vec2xy] once the direction is known. *)
Definition vec2xy_dir (s : Molldata.state) (flip : Z) (theta phi : R)
  : result (fval * fval) :=
  match Molldata.molldata s with
  | None => Raise ValueError
  | Some (X, Y) =>
      let phi := wrap_phi phi in
      let lat := pi / 2 - theta in
      A <- Interp.lininterp X Y lat ;;
      let x := (FZ flip *^ Fin 2 /^ Fin pi *^ Fin phi *^ fcos A)%fv in
      let y := fsin A in
      Ok (x, y)
  end.

Definition vec2xy (s : Molldata.state) (flip : Z) (arg : vecarg) (direct : bool)
  : result (fval * fval) :=
  d <- (if negb direct then vec2dir (rotator arg) else vec2dir arg) ;;
  vec2xy_dir s flip (fst d) (snd d).

(** The vector of one valid plane point. *)
Definition point_z (y : fval) : fval :=
  let s := fsqrt ((Fin 1 -^ y) *^ (Fin 1 +^ y))%fv in
  let a := fasin y in
  (Fin 2 /^ Fin pi *^ (a +^ y *^ s))%fv.

Definition point_phi (flip : Z) (x y : fval) : fval :=
  let s := fsqrt ((Fin 1 -^ y) *^ (Fin 1 +^ y))%fv in
  (FZ flip *^ Fin pi /^ Fin 2 *^ x /^ fmaximum s (Fin 1e-6))%fv.

Definition point_sz (z : fval) : fval :=
  fsqrt ((Fin 1 -^ z) *^ (Fin 1 +^ z))%fv.

Definition xy2vec (flip : Z) (arg : xyarg) (direct : bool) : result vec3 :=
  let '(x, y) := xy_unpack arg in
  match x with
  | Sc a =>
      let lift (f : fval -> fval) := cmap f y in
      let masked :=
        match y with
        | Sc b => outside a b
        | Ar l => any (map (outside a) l)
        end in
      if masked then Ok (Sc NaN, Sc NaN, Sc NaN)
      else
        let z := point_z in
        let phi := point_phi flip a in
        let vec := (lift (fun b => point_sz (z b) *^ fcos (phi b))%fv,
                    lift (fun b => point_sz (z b) *^ fsin (phi b))%fv,
                    lift z) in
        if negb direct then rotator_I vec else Ok vec
  | Ar lx =>
      match y with
      | Sc _ => Raise IndexError
      | Ar ly =>
          if negb (length lx =? length ly)%nat then Raise ValueError
          else
            let mask := map (fun p => outside (fst p) (snd p)) (combine lx ly) in
            let w := where_false mask in
            let nans := map (fun z => z +^ NaN)%fv (repeat (Fin 0) (length lx)) in
            yw <- gather ly w ;;
            let v2 := scatter nans w (map point_z yw) in
            xw <- gather lx w ;;
            let phi := zip_with (point_phi flip) xw yw in
            v2w <- gather v2 w ;;
            let sz := map point_sz v2w in
            let v0 := scatter nans w (zip_with (fun s p => s *^ fcos p)%fv sz phi) in
            let v1 := scatter nans w (zip_with (fun s p => s *^ fsin p)%fv sz phi) in
            let vec := (Ar v0, Ar v1, Ar v2) in
            if negb direct then rotator_I vec else Ok vec
      end
  end.

End Vec.

(** The projection as [projmap] sees it. *)
Definition projector (rotator_I : vec3 -> result vec3) (flip : Z)
    (ai : option Z) : SphericalProj.projector :=
  SphericalProj.mkProjector (ij2xy ai) (xy2vec rotator_I flip).

(** [get_extent]. *)
Definition get_extent : R * R * R * R := (-2.0, 2.0, -1.0, 1.0).

(** [ij2xy(xy2ij(x, y))]: the plane point of the pixel a point falls in. *)
Definition pixel_centre (ai : option Z) (x y : fval) : result plane :=
  r <- xy2ij ai (XY_both (Sc x) (Sc y)) ;;
  match r with
  | (I_int i, I_int j) => ij2xy ai (IJ_both i j)
  | _ => Raise TypeError
  end.

End Mollweide.

(** * Properties *)

(** ** Lemmas on numbers *)

Lemma Int_part_IZR (z : Z) : Int_part (IZR z) = z.
Proof.
  symmetry. apply Int_part_spec. lra.
Qed.

Lemma Rltb_true (a b : R) : a < b -> Rltb a b = true.
Proof. intros H. unfold Rltb. destruct (Rlt_dec a b); [reflexivity | contradiction]. Qed.

Lemma Rltb_false (a b : R) : ~ a < b -> Rltb a b = false.
Proof. intros H. unfold Rltb. destruct (Rlt_dec a b); [contradiction | reflexivity]. Qed.

Lemma Rleb_true (a b : R) : a <= b -> Rleb a b = true.
Proof. intros H. unfold Rleb. destruct (Rle_dec a b); [reflexivity | contradiction]. Qed.

Lemma Rleb_false (a b : R) : ~ a <= b -> Rleb a b = false.
Proof. intros H. unfold Rleb. destruct (Rle_dec a b); [contradiction | reflexivity]. Qed.

Lemma Reqb_true (a b : R) : a = b -> Reqb a b = true.
Proof. intros H. unfold Reqb. destruct (Req_dec_T a b); [reflexivity | contradiction]. Qed.

Lemma Reqb_false (a b : R) : a <> b -> Reqb a b = false.
Proof. intros H. unfold Reqb. destruct (Req_dec_T a b); [contradiction | reflexivity]. Qed.

Lemma around_IZR (z : Z) : around (IZR z) = z.
Proof.
  unfold around. rewrite Int_part_IZR.
  rewrite Rltb_true by lra. reflexivity.
Qed.

Lemma pi_pos : 0 < pi.
Proof. exact PI_RGT_0. Qed.

Lemma dtor_pos : 0 < dtor.
Proof. unfold dtor. pose proof pi_pos. lra. Qed.

(** Deciding the comparisons of a concrete computation. *)
Ltac rdec tac :=
  repeat match goal with
  | |- context [Rltb ?a ?b] =>
      first [ rewrite (Rltb_true a b) by tac | rewrite (Rltb_false a b) by tac ]
  | |- context [Rleb ?a ?b] =>
      first [ rewrite (Rleb_true a b) by tac | rewrite (Rleb_false a b) by tac ]
  | |- context [Reqb ?a ?b] =>
      first [ rewrite (Reqb_true a b) by tac | rewrite (Reqb_false a b) by tac ]
  end.

Ltac fstep :=
  cbn [fadd fsub fneg fmul fdiv fgt fle fsqr];
  rdec lra.

Lemma fits_int64_iff (z : Z) :
  fits_int64 z = true <-> (- 2 ^ 63 <= z <= 2 ^ 63 - 1)%Z.
Proof.
  unfold fits_int64, int64_min, int64_max.
  rewrite andb_true_iff, !Z.leb_le. reflexivity.
Qed.

Lemma around_astype_long_fits (r : R) :
  (- 2 ^ 63 <= around r <= 2 ^ 63 - 1)%Z ->
  around_astype_long (Fin r) = around r.
Proof.
  intros H. apply fits_int64_iff in H. unfold around_astype_long.
  rewrite H. reflexivity.
Qed.

Lemma around_astype_long_IZR (z : Z) :
  (- 2 ^ 63 <= z <= 2 ^ 63 - 1)%Z ->
  around_astype_long (Fin (IZR z)) = z.
Proof.
  intros H. rewrite around_astype_long_fits; rewrite around_IZR; [reflexivity | exact H].
Qed.

(** A finite value is cast to its rounding or, when that does not fit in
    64 bits, to the smallest 64-bit integer. *)
Lemma around_astype_long_cases (r : R) :
  ((- 2 ^ 63 <= around r <= 2 ^ 63 - 1)%Z /\ around_astype_long (Fin r) = around r) \/
  (((around r < - 2 ^ 63)%Z \/ (2 ^ 63 - 1 < around r)%Z) /\
   around_astype_long (Fin r) = int64_min).
Proof.
  unfold around_astype_long.
  destruct (fits_int64 (around r)) eqn:E.
  - left. split; [apply fits_int64_iff; exact E | reflexivity].
  - right. split; [| reflexivity].
    unfold fits_int64, int64_min, int64_max in E.
    apply andb_false_iff in E. destruct E as [E | E]; apply Z.leb_gt in E; lia.
Qed.

Lemma g_roundtrip_ok (a : Gnomonic.info) (i j : Z) :
  Gnomonic.reso a <> 0 ->
  (- 2 ^ 63 <= i <= 2 ^ 63 - 1)%Z ->
  (- 2 ^ 63 <= j <= 2 ^ 63 - 1)%Z ->
  Gnomonic.roundtrip (Some a) i j = Ok (I_int i, I_int j).
Proof.
  intros Hr Hi Hj.
  assert (Hdx : Gnomonic.dx a <> 0).
  { unfold Gnomonic.dx. pose proof dtor_pos. intros H0.
    apply Rmult_integral in H0. destruct H0 as [H0 | H0]; lra. }
  unfold Gnomonic.roundtrip, Gnomonic.ij2xy, Gnomonic.xy2ij, FZ.
  cbn [bind xy_unpack cmap around_long fadd fsub fneg fmul].
  cbn [fdiv]. rewrite !Reqb_false by exact Hdx.
  cbn [fadd fneg].
  replace (Gnomonic.xc a + (IZR j + - Gnomonic.xc a) * Gnomonic.dx a / Gnomonic.dx a)
    with (IZR j) by (field; exact Hdx).
  replace (Gnomonic.yc a + - ((Gnomonic.yc a + - IZR i) * Gnomonic.dx a / Gnomonic.dx a))
    with (IZR i) by (field; exact Hdx).
  rewrite !around_astype_long_IZR by assumption. reflexivity.
Qed.

Lemma m_xc_pos (xsize : Z) : (4 <= xsize)%Z -> 0 < Mollweide.xc xsize.
Proof.
  intros H. unfold Mollweide.xc. apply IZR_le in H. lra.
Qed.

Lemma m_yc_pos (xsize : Z) : (4 <= xsize)%Z -> 0 < Mollweide.yc xsize.
Proof.
  intros H. unfold Mollweide.yc, Mollweide.ysize.
  assert (H2 : (2 <= xsize / 2)%Z) by (apply Z.div_le_lower_bound; lia).
  apply IZR_le in H2. lra.
Qed.

Lemma m_ij2xy_scalar (xsize i j : Z) :
  (4 <= xsize)%Z ->
  Mollweide.ij2xy (Some xsize) (IJ_both i j) =
  Ok (if Rltb 1 (Mollweide.plane_x xsize j * Mollweide.plane_x xsize j / 4
                 + Mollweide.plane_y xsize i * Mollweide.plane_y xsize i)
      then P_scalar NaN NaN
      else P_scalar (Fin (Mollweide.plane_x xsize j)) (Fin (Mollweide.plane_y xsize i))).
Proof.
  intros H. pose proof (m_xc_pos _ H) as Hx. pose proof (m_yc_pos _ H) as Hy.
  unfold Mollweide.ij2xy, Mollweide.outside, FZ, fsqr; simpl.
  rewrite !Reqb_false by lra. simpl.
  rewrite !Reqb_false by lra. simpl.
  unfold Mollweide.plane_x, Mollweide.plane_y.
  match goal with
  | |- Ok (if Rltb 1 ?a then _ else _) = Ok (if Rltb 1 ?b then _ else _) =>
      replace a with b by (field; lra)
  end.
  match goal with |- Ok (if ?c then _ else _) = _ => destruct c end.
  - reflexivity.
  - reflexivity.
Qed.

Lemma m_in_ellipse_bounds (xsize i j : Z) :
  (4 <= xsize)%Z ->
  Mollweide.in_ellipse xsize i j ->
  (0 <= i <= Mollweide.ysize xsize - 1)%Z /\ (0 <= j <= xsize - 1)%Z.
Proof.
  intros H Hin. pose proof (m_xc_pos _ H) as Hx. pose proof (m_yc_pos _ H) as Hy.
  unfold Mollweide.in_ellipse in Hin.
  set (px := Mollweide.plane_x xsize j) in *.
  set (py := Mollweide.plane_y xsize i) in *.
  assert (Hpx : -2 <= px <= 2) by nra.
  assert (Hpy : -1 <= py <= 1) by nra.
  assert (Ej : IZR j = Mollweide.xc xsize + px * Mollweide.xc xsize / 2).
  { unfold px, Mollweide.plane_x. field. lra. }
  assert (Ei : IZR i = Mollweide.yc xsize - py * Mollweide.yc xsize).
  { unfold py, Mollweide.plane_y. field. lra. }
  assert (Hj : 0 <= IZR j <= IZR (xsize - 1)).
  { rewrite minus_IZR. rewrite Ej. unfold Mollweide.xc in *. nra. }
  assert (Hi : 0 <= IZR i <= IZR (Mollweide.ysize xsize - 1)).
  { rewrite minus_IZR. rewrite Ei. unfold Mollweide.yc in *. nra. }
  destruct Hj as [Hj0 Hj1]. destruct Hi as [Hi0 Hi1].
  apply le_IZR in Hj0, Hj1, Hi0, Hi1. lia.
Qed.

Lemma m_ysize_le (xsize : Z) : (0 <= xsize)%Z -> (Mollweide.ysize xsize <= xsize)%Z.
Proof.
  intros H. unfold Mollweide.ysize.
  apply Z.div_le_upper_bound; lia.
Qed.

Lemma m_roundtrip_ok (xsize i j : Z) :
  (4 <= xsize <= 2 ^ 63)%Z ->
  Mollweide.in_ellipse xsize i j ->
  Mollweide.roundtrip (Some xsize) i j = Ok (I_int i, I_int j).
Proof.
  intros [H Hmax] Hin.
  pose proof (m_xc_pos _ H) as Hx. pose proof (m_yc_pos _ H) as Hy.
  destruct (m_in_ellipse_bounds _ _ _ H Hin) as [Hi Hj].
  pose proof (m_ysize_le xsize ltac:(lia)) as Hys.
  unfold Mollweide.in_ellipse in Hin.
  unfold Mollweide.roundtrip. rewrite m_ij2xy_scalar by exact H.
  rewrite Rltb_false by lra.
  unfold Mollweide.xy2ij.
  cbn [bind xy_unpack Mollweide.outside_truth cmap around_long].
  unfold Mollweide.outside, fsqr.
  cbn [fmul fdiv fadd fsub fneg fgt]. rewrite !Reqb_false by lra.
  cbn [fmul fdiv fadd fsub fneg fgt].
  rewrite Rltb_false by lra.
  replace (Mollweide.plane_x xsize j * Mollweide.xc xsize / 2 + Mollweide.xc xsize)
    with (IZR j) by (unfold Mollweide.plane_x; field; lra).
  replace (Mollweide.yc xsize + - (Mollweide.plane_y xsize i * Mollweide.yc xsize))
    with (IZR i) by (unfold Mollweide.plane_y; field; lra).
  rewrite !around_astype_long_IZR by lia. reflexivity.
Qed.

(** C1 (amended).  Index round trip over exact arithmetic, for arrays whose
    sizes are at most [2**63] (so that every index fits in the 64-bit
    integers [xy2ij] casts to): [xy2ij(ij2xy(i, j))] returns [(i, j)] for a
    Gnomonic projection whose resolution is not zero, at every pair within
    the array bounds; and for a Mollweide projection with [xsize >= 4], at
    every pair whose plane point lies inside the ellipse
    [x**2/4 + y**2 <= 1] (such a pair is within the array bounds). *)
Theorem index_roundtrip :
  (forall (a : Gnomonic.info) (i j : Z),
      Gnomonic.reso a <> 0 ->
      (Gnomonic.xsize a <= 2 ^ 63)%Z -> (Gnomonic.ysize a <= 2 ^ 63)%Z ->
      Gnomonic.in_bounds a i j ->
      Gnomonic.roundtrip (Some a) i j = Ok (I_int i, I_int j)) /\
  (forall xsize i j : Z,
      (4 <= xsize <= 2 ^ 63)%Z ->
      Mollweide.in_ellipse xsize i j ->
      (0 <= i < Mollweide.ysize xsize)%Z /\ (0 <= j < xsize)%Z /\
      Mollweide.roundtrip (Some xsize) i j = Ok (I_int i, I_int j)).
Proof.
  split.
  - intros a i j Hr Hxs Hys Hb. apply g_roundtrip_ok; [exact Hr | |];
      unfold Gnomonic.in_bounds in Hb; lia.
  - intros xsize i j Hx Hin.
    destruct (m_in_ellipse_bounds _ _ _ (proj1 Hx) Hin) as [Hi Hj].
    split; [lia | split; [lia |]].
    apply m_roundtrip_ok; assumption.
Qed.

Lemma index_roundtrip_witness :
  Gnomonic.roundtrip (Gnomonic.set_proj_plane_info None None None) 3 5
    = Ok (I_int 3, I_int 5) /\
  Mollweide.roundtrip (Mollweide.set_proj_plane_info (Some 800%Z)) 200 400
    = Ok (I_int 200, I_int 400).
Proof.
  split.
  - apply (proj1 index_roundtrip).
    + simpl. lra.
    + simpl. lia.
    + simpl. lia.
    + unfold Gnomonic.in_bounds. simpl. lia.
  - apply (proj2 index_roundtrip).
    + lia.
    + unfold Mollweide.in_ellipse, Mollweide.plane_x, Mollweide.plane_y,
        Mollweide.xc, Mollweide.yc, Mollweide.ysize.
      change (800 / 2)%Z with 400%Z. lra.
Defined.

(** C1 as stated fails: the top-left pixel of the default Mollweide array
    lies outside the ellipse, [ij2xy] masks it to not-a-number and [xy2ij]
    does not give [(0, 0)] back; a Gnomonic projection of resolution zero
    divides zero by zero; and an index of [2**63], within the bounds of a
    larger array, does not survive the cast to a 64-bit integer. *)
Lemma index_roundtrip_counterexample :
  ((0 <= 0 < Mollweide.ysize 800)%Z /\ (0 <= 0 < 800)%Z /\
   Mollweide.ij2xy (Some 800%Z) (IJ_both 0 0) = Ok (P_scalar NaN NaN) /\
   Mollweide.roundtrip (Some 800%Z) 0 0 = Ok (I_int int64_min, I_int int64_min) /\
   Mollweide.roundtrip (Some 800%Z) 0 0 <> Ok (I_int 0, I_int 0)) /\
  (Gnomonic.roundtrip (Some (Gnomonic.mkInfo 200 200 0)) 0 0
     = Ok (I_int int64_min, I_int int64_min) /\
   Gnomonic.roundtrip (Some (Gnomonic.mkInfo 200 200 0)) 0 0
     <> Ok (I_int 0, I_int 0)) /\
  ((0 <= 0 < Mollweide.ysize 2)%Z /\ (0 <= 0 < 2)%Z /\
   Mollweide.roundtrip (Some 2%Z) 0 0 <> Ok (I_int 0, I_int 0)) /\
  (Gnomonic.in_bounds (Gnomonic.mkInfo (2 ^ 63 + 1) (2 ^ 63 + 1) 1.5) (2 ^ 63) 0 /\
   Gnomonic.roundtrip (Some (Gnomonic.mkInfo (2 ^ 63 + 1) (2 ^ 63 + 1) 1.5)) (2 ^ 63) 0
     = Ok (I_int int64_min, I_int 0) /\
   Gnomonic.roundtrip (Some (Gnomonic.mkInfo (2 ^ 63 + 1) (2 ^ 63 + 1) 1.5)) (2 ^ 63) 0
     <> Ok (I_int (2 ^ 63), I_int 0)).
Proof.
  assert (Hc : Mollweide.ij2xy (Some 800%Z) (IJ_both 0 0) = Ok (P_scalar NaN NaN)).
  { rewrite m_ij2xy_scalar by lia.
    unfold Mollweide.plane_x, Mollweide.plane_y, Mollweide.xc, Mollweide.yc,
      Mollweide.ysize.
    change (800 / 2)%Z with 400%Z.
    rewrite Rltb_true by lra. reflexivity. }
  assert (Hm : Mollweide.roundtrip (Some 800%Z) 0 0
               = Ok (I_int int64_min, I_int int64_min)).
  { unfold Mollweide.roundtrip. rewrite Hc. reflexivity. }
  assert (Hg : Gnomonic.roundtrip (Some (Gnomonic.mkInfo 200 200 0)) 0 0
               = Ok (I_int int64_min, I_int int64_min)).
  { unfold Gnomonic.roundtrip, Gnomonic.ij2xy, Gnomonic.xy2ij, Gnomonic.dx, FZ; simpl.
    rewrite !Reqb_true by lra.
    unfold inf_of_sign.
    rewrite !Rltb_false by lra. reflexivity. }
  assert (H2 : exists z : Z,
             Mollweide.roundtrip (Some 2%Z) 0 0 = Ok (I_int int64_min, I_int z)).
  { unfold Mollweide.roundtrip, Mollweide.ij2xy, Mollweide.xy2ij, bind,
      Mollweide.outside, Mollweide.outside_truth, Mollweide.outside,
      Mollweide.xc, Mollweide.yc, Mollweide.ysize, FZ, xy_unpack, around_long,
      cmap, fsqr.
    change (2 / 2)%Z with 1%Z.
    replace ((1 - 1) / 2) with 0 by lra.
    replace ((2 - 1) / 2) with (1 / 2) by lra.
    repeat fstep. unfold inf_of_sign. repeat fstep.
    replace (2 * (0 + - (1 / 2)) / (1 / 2)) with (-2) by lra.
    repeat fstep. eexists. reflexivity. }
  set (big := Gnomonic.mkInfo (2 ^ 63 + 1) (2 ^ 63 + 1) 1.5).
  assert (Hb : Gnomonic.roundtrip (Some big) (2 ^ 63) 0
               = Ok (I_int int64_min, I_int 0)).
  { assert (Hdx : Gnomonic.dx big <> 0).
    { unfold Gnomonic.dx, big. cbn [Gnomonic.reso]. pose proof dtor_pos. nra. }
    unfold Gnomonic.roundtrip, Gnomonic.ij2xy, Gnomonic.xy2ij, FZ.
    cbn [bind xy_unpack cmap around_long fadd fsub fneg fmul].
    cbn [fdiv]. rewrite !Reqb_false by exact Hdx.
    cbn [fadd fneg].
    replace (Gnomonic.xc big + (0 + - Gnomonic.xc big) * Gnomonic.dx big / Gnomonic.dx big)
      with (IZR 0) by (field; exact Hdx).
    replace (Gnomonic.yc big
             + - ((Gnomonic.yc big + - IZR (2 ^ 63)) * Gnomonic.dx big / Gnomonic.dx big))
      with (IZR (2 ^ 63)) by (field; exact Hdx).
    unfold around_astype_long. rewrite !around_IZR. reflexivity. }
  split; [split; [| split; [| split; [| split]]] | split; [split | split; [split; [| split] |]]].
  - unfold Mollweide.ysize. change (800 / 2)%Z with 400%Z. lia.
  - lia.
  - exact Hc.
  - exact Hm.
  - rewrite Hm. unfold int64_min. intros H. inversion H.
  - exact Hg.
  - rewrite Hg. unfold int64_min. intros H. inversion H.
  - unfold Mollweide.ysize. change (2 / 2)%Z with 1%Z. lia.
  - lia.
  - destruct H2 as [z H2]. rewrite H2. unfold int64_min. intros H. inversion H.
  - split; [| split].
    + unfold Gnomonic.in_bounds, big. cbn [Gnomonic.xsize Gnomonic.ysize]. lia.
    + exact Hb.
    + rewrite Hb. unfold int64_min. intros H. inversion H.
Qed.

(** ** Mollweide [xy2ij] on sequences *)

Lemma long_around_array (f : fval -> fval) (l : list fval) (z : Z) :
  Mollweide.long_around (cmap f (Ar l)) = Ok z -> length l = 1%nat.
Proof.
  destruct l as [| a [| b l]]; simpl; intros H; try discriminate; reflexivity.
Qed.

Lemma long_around_long_array (f : fval -> fval) (l : list fval) :
  (1 < length l)%nat ->
  Mollweide.long_around (cmap f (Ar l)) = Raise TypeError.
Proof.
  destruct l as [| a [| b l]]; simpl; intros H; try lia; reflexivity.
Qed.

(** C10.  [MollweideProj.xy2ij] on parallel arrays of more than one element
    raises (the conversion [long(...)] takes one element only): arrays give
    a result only when they hold one element each, and scalars always do
    once the array information is set. *)
Theorem mollweide_xy2ij_sequence_raises :
  (forall (ai : option Z) (arg : xyarg) (lx ly : list fval),
      xy_unpack arg = (Ar lx, Ar ly) ->
      (1 < length lx)%nat -> (1 < length ly)%nat ->
      Mollweide.xy2ij ai arg = Raise TypeError) /\
  (forall (ai : option Z) (arg : xyarg) (lx ly : list fval) (r : ival * ival),
      xy_unpack arg = (Ar lx, Ar ly) ->
      Mollweide.xy2ij ai arg = Ok r ->
      length lx = 1%nat /\ length ly = 1%nat) /\
  (forall (xsize : Z) (arg : xyarg) (x y : fval),
      xy_unpack arg = (Sc x, Sc y) ->
      exists r, Mollweide.xy2ij (Some xsize) arg = Ok r).
Proof.
  split; [| split].
  - intros ai arg lx ly Ha Hx Hy. unfold Mollweide.xy2ij. rewrite Ha.
    destruct ai as [xsize |]; [| reflexivity].
    rewrite long_around_long_array by exact Hx. reflexivity.
  - intros ai arg lx ly r Ha. unfold Mollweide.xy2ij. rewrite Ha.
    destruct ai as [xsize |]; [| discriminate].
    set (fj := fun v : fval => _). set (fi := fun v : fval => _).
    destruct (Mollweide.long_around (cmap fj (Ar lx))) as [j | e] eqn:Hj;
      [| intros H; discriminate H].
    unfold bind at 1.
    destruct (Mollweide.long_around (cmap fi (Ar ly))) as [i | e] eqn:Hi;
      [| intros H; discriminate H].
    intros _. split; eapply long_around_array; eassumption.
  - intros xsize arg x y Ha. unfold Mollweide.xy2ij. rewrite Ha. simpl.
    destruct (Mollweide.outside x y); eexists; reflexivity.
Qed.

Lemma mollweide_xy2ij_sequence_raises_witness :
  Mollweide.xy2ij (Some 800%Z) (XY_both (Ar [Fin 0; Fin 1]) (Ar [Fin 0; Fin 0.5]))
    = Raise TypeError.
Proof.
  apply (proj1 mollweide_xy2ij_sequence_raises) with
    (lx := [Fin 0; Fin 1]) (ly := [Fin 0; Fin 0.5]).
  - reflexivity.
  - simpl. lia.
  - simpl. lia.
Defined.

(** ** Table lookup *)

Section Lookup.

Import Interp.

Variable X : list R.
Variable key : R.
Hypothesis Hinc : increasing X.

Lemma increasing_le (i j : nat) :
  (i <= j < length X)%nat -> nth i X 0 <= nth j X 0.
Proof.
  intros [Hij Hj]. destruct (Nat.eq_dec i j) as [-> | Hne].
  - lra.
  - left. apply Hinc. lia.
Qed.

Lemma half_bounds (lo hi : nat) :
  (lo < hi)%nat -> (lo <= lo + (hi - lo) / 2 < hi)%nat.
Proof.
  intros H. pose proof (Nat.Div0.div_lt_upper_bound (hi - lo) 2 (hi - lo)).
  pose proof (Nat.Div0.mul_div_le (hi - lo) 2). lia.
Qed.

Lemma bsearch_S (fuel lo hi : nat) :
  bsearch (S fuel) X key lo hi =
  if (lo <? hi)%nat then
    let mid := (lo + (hi - lo) / 2)%nat in
    if Rltb (nth mid X 0) key
    then bsearch fuel X key (mid + 1) hi
    else bsearch fuel X key lo mid
  else lo.
Proof. reflexivity. Qed.

Lemma bsearch_spec (fuel lo hi : nat) :
  (lo <= hi <= length X)%nat ->
  (hi - lo <= fuel)%nat ->
  (forall k, (k < lo)%nat -> nth k X 0 < key) ->
  (forall k, (hi <= k < length X)%nat -> key <= nth k X 0) ->
  let r := bsearch fuel X key lo hi in
  (lo <= r <= hi)%nat /\
  (forall k, (k < r)%nat -> nth k X 0 < key) /\
  (forall k, (r <= k < length X)%nat -> key <= nth k X 0).
Proof.
  revert lo hi. induction fuel as [| fuel IH]; intros lo hi Hb Hf Hlo Hhi.
  - simpl. assert (lo = hi) by lia. subst hi. repeat split; auto; lia.
  - rewrite bsearch_S. cbv zeta. destruct (lo <? hi)%nat eqn:Hlt.
    + apply Nat.ltb_lt in Hlt. pose proof (half_bounds lo hi Hlt) as Hm.
      set (mid := (lo + (hi - lo) / 2)%nat) in *.
      unfold Rltb. destruct (Rlt_dec (nth mid X 0) key) as [Hk | Hk].
      * destruct (IH (mid + 1)%nat hi) as (Hr & Hbelow & Habove);
          try lia; auto.
        { intros k Hkm. apply Rle_lt_trans with (nth mid X 0); [| exact Hk].
          apply increasing_le. lia. }
        repeat split; auto; lia.
      * destruct (IH lo mid) as (Hr & Hbelow & Habove); try lia; auto.
        { intros k Hkm. apply Rle_trans with (nth mid X 0); [lra |].
          apply increasing_le. lia. }
        repeat split; auto; lia.
    + apply Nat.ltb_ge in Hlt. assert (lo = hi) by lia. subst hi.
      repeat split; auto; lia.
Qed.

(** [searchsorted] returns the number of entries strictly below the key. *)
Lemma searchsorted_spec :
  let r := searchsorted X key in
  (r <= length X)%nat /\
  (forall k, (k < r)%nat -> nth k X 0 < key) /\
  (forall k, (r <= k < length X)%nat -> key <= nth k X 0).
Proof.
  unfold searchsorted.
  destruct (bsearch_spec (length X) 0 (length X)) as (Hr & Hb & Ha);
    try lia.
  repeat split; auto; lia.
Qed.

Lemma searchsorted_interior :
  nth 0 X 0 < key -> key < nth (length X - 1) X 0 ->
  (1 <= searchsorted X key <= length X - 1)%nat.
Proof.
  intros H0 Hn. destruct searchsorted_spec as (Hr & Hb & Ha).
  assert (Hlen : (1 < length X)%nat).
  { destruct (length X) as [| [| n]] eqn:E; try lia; simpl in Hn; lra. }
  split.
  - destruct (searchsorted X key) as [| r] eqn:E; [| lia].
    specialize (Ha 0%nat ltac:(lia)). lra.
  - destruct (Nat.le_gt_cases (searchsorted X key) (length X - 1)) as [Hle | Hgt];
      [exact Hle |].
    specialize (Hb (length X - 1)%nat ltac:(lia)). lra.
Qed.

End Lookup.

Lemma getitem_nat {A : Type} (a : list A) (d : A) (k : nat) :
  (k < length a)%nat -> Interp.getitem a (Z.of_nat k) = Ok (nth k a d).
Proof.
  intros H. unfold Interp.getitem.
  replace (Z.of_nat k <? 0)%Z with false by (symmetry; apply Z.ltb_ge; lia).
  replace (0 <=? Z.of_nat k)%Z with true by (symmetry; apply Z.leb_le; lia).
  replace (Z.of_nat k <? Z.of_nat (length a))%Z with true
    by (symmetry; apply Z.ltb_lt; lia).
  simpl. rewrite Nat2Z.id. rewrite (nth_error_nth' a d H). reflexivity.
Qed.

Lemma lininterp_bracket (X : list R) (Y : list fval) (x : R) :
  Interp.increasing X ->
  length Y = length X ->
  nth 0 X 0 < x -> x < nth (length X - 1) X 0 ->
  let idx := Interp.searchsorted X x in
  (1 <= idx <= length X - 1)%nat /\
  nth (idx - 1) X 0 < x <= nth idx X 0 /\
  nth idx X 0 - nth (idx - 1) X 0 <> 0 /\
  (exists v : fval, Interp.lininterp X Y x = Ok v) /\
  (forall y0 y1 : R,
      nth (idx - 1) Y NaN = Fin y0 -> nth idx Y NaN = Fin y1 ->
      Interp.lininterp X Y x =
        Ok (Fin (y0 + (y1 - y0) / (nth idx X 0 - nth (idx - 1) X 0)
                      * (x - nth (idx - 1) X 0)))).
Proof.
  intros Hinc Hlen H0 Hn idx.
  pose proof (searchsorted_interior X x Hinc H0 Hn) as Hidx.
  destruct (searchsorted_spec X x Hinc) as (_ & Hb & Ha).
  fold idx in Hidx, Hb, Ha.
  assert (Hlo : nth (idx - 1) X 0 < x) by (apply Hb; lia).
  assert (Hhi : x <= nth idx X 0) by (apply Ha; lia).
  split; [exact Hidx |]. split; [split; assumption |].
  split; [lra |].
  assert (E : Interp.lininterp X Y x =
              Ok (nth (idx - 1) Y NaN
                  +^ (nth idx Y NaN -^ nth (idx - 1) Y NaN)
                     /^ (Fin (nth idx X 0) -^ Fin (nth (idx - 1) X 0))
                     *^ (Fin x -^ Fin (nth (idx - 1) X 0)))%fv).
  { unfold Interp.lininterp. fold idx.
    replace (Z.of_nat idx - 1)%Z with (Z.of_nat (idx - 1)) by lia.
    rewrite !(getitem_nat Y NaN) by lia.
    rewrite !(getitem_nat X 0) by lia. reflexivity. }
  split.
  - eexists. exact E.
  - intros y0 y1 E0 E1. rewrite E, E0, E1. simpl.
    rewrite Reqb_false by lra. reflexivity.
Qed.

Lemma getitem_last {A : Type} (a : list A) (d : A) :
  (0 < length a)%nat -> Interp.getitem a (-1) = Ok (nth (length a - 1) a d).
Proof.
  intros H. unfold Interp.getitem.
  change (-1 <? 0)%Z with true. cbv iota.
  replace (0 <=? -1 + Z.of_nat (length a))%Z with true
    by (symmetry; apply Z.leb_le; lia).
  replace (-1 + Z.of_nat (length a) <? Z.of_nat (length a))%Z with true
    by (symmetry; apply Z.ltb_lt; lia).
  simpl andb. cbv iota.
  replace (Z.to_nat (-1 + Z.of_nat (length a))) with (length a - 1)%nat by lia.
  rewrite (nth_error_nth' a d) by lia. reflexivity.
Qed.

(** [__lininterp] raises no index error as long as the query is not
    above the last entry of the table. *)
Lemma lininterp_ok (X : list R) (Y : list fval) (x : R) :
  Interp.increasing X ->
  length Y = length X ->
  (0 < length X)%nat ->
  x <= nth (length X - 1) X 0 ->
  exists v : fval, Interp.lininterp X Y x = Ok v.
Proof.
  intros Hinc Hlen Hpos Hn.
  destruct (searchsorted_spec X x Hinc) as (Hr & Hb & Ha).
  set (idx := Interp.searchsorted X x) in *.
  assert (Hidx : (idx <= length X - 1)%nat).
  { destruct (Nat.le_gt_cases idx (length X - 1)) as [Hle | Hgt]; [exact Hle |].
    specialize (Hb (length X - 1)%nat ltac:(lia)). lra. }
  unfold Interp.lininterp. fold idx.
  destruct idx as [| k] eqn:E.
  - change (Z.of_nat 0 - 1)%Z with (-1)%Z. change (Z.of_nat 0) with (Z.of_nat 0%nat).
    rewrite (getitem_last Y NaN) by lia.
    rewrite (getitem_last X 0) by lia.
    rewrite (getitem_nat Y NaN 0) by lia.
    rewrite (getitem_nat X 0 0) by lia.
    eexists. reflexivity.
  - replace (Z.of_nat (S k) - 1)%Z with (Z.of_nat k) by lia.
    rewrite !(getitem_nat Y NaN) by lia.
    rewrite !(getitem_nat X 0) by lia.
    eexists. reflexivity.
Qed.

(** C9.  For a strictly increasing table [X], a table [Y] of the same
    length and a query strictly between the first and the last entry of
    [X], the index found by [searchsorted] lies in [1 .. len(X)-1], it
    brackets the query, the divisor is not zero, and [__lininterp] returns
    the interpolated value without any index error. *)
Theorem lininterp_defined (X : list R) (Y : list fval) (x : R) :
  Interp.increasing X ->
  length Y = length X ->
  nth 0 X 0 < x -> x < nth (length X - 1) X 0 ->
  let idx := Interp.searchsorted X x in
  (1 <= idx <= length X - 1)%nat /\
  nth (idx - 1) X 0 < x <= nth idx X 0 /\
  nth idx X 0 - nth (idx - 1) X 0 <> 0 /\
  (exists v : fval, Interp.lininterp X Y x = Ok v) /\
  (forall y0 y1 : R,
      nth (idx - 1) Y NaN = Fin y0 -> nth idx Y NaN = Fin y1 ->
      Interp.lininterp X Y x =
        Ok (Fin (y0 + (y1 - y0) / (nth idx X 0 - nth (idx - 1) X 0)
                      * (x - nth (idx - 1) X 0)))).
Proof.
  exact (lininterp_bracket X Y x).
Qed.

Lemma lininterp_defined_witness :
  exists v : fval, Interp.lininterp [0; 1; 3] [Fin 10; Fin 20; Fin 40] 2 = Ok v.
Proof.
  apply (lininterp_defined [0; 1; 3] [Fin 10; Fin 20; Fin 40] 2).
  - intros i j [Hij Hj]. simpl in Hj.
    destruct i as [| [| [| i]]]; destruct j as [| [| [| j]]]; simpl; try lia; lra.
  - reflexivity.
  - simpl. lra.
  - simpl. lra.
Defined.

(** ** The abstract base class *)

(** C8 (amended).  Each of the six abstract operations of [SphericalProj]
    returns [None], whatever its arguments; none of them raises. *)
Theorem base_operations_return_none :
  (forall theta phi lonlat direct,
      SphericalProj.ang2xy theta phi lonlat direct = Ok None) /\
  (forall vx vy vz direct, SphericalProj.vec2xy vx vy vz direct = Ok None) /\
  (forall x y lonlat direct, SphericalProj.xy2ang x y lonlat direct = Ok None) /\
  (forall x y direct, SphericalProj.xy2vec x y direct = Ok None) /\
  (forall x y, SphericalProj.xy2ij x y = Ok None) /\
  (forall i j, SphericalProj.ij2xy i j = Ok None).
Proof.
  repeat split.
Qed.

(** C8 as stated fails: [ang2xy] on the base class returns normally. *)
Lemma base_operations_counterexample :
  SphericalProj.ang2xy (Sc (Fin 0)) (Some (Sc (Fin 0))) false false
    <> Raise NotImplementedError.
Proof.
  unfold SphericalProj.ang2xy. discriminate.
Qed.

(** ** The Mollweide table *)

Lemma arange_from_length (a b : Z) :
  length (Molldata.arange_from a b) = Z.to_nat (b - a).
Proof. unfold Molldata.arange_from. rewrite length_map, length_seq. reflexivity. Qed.

Lemma nth_map_lt {A B : Type} (f : A -> B) (l : list A) (d : B) (d' : A) (k : nat) :
  (k < length l)%nat -> nth k (map f l) d = f (nth k l d').
Proof.
  revert k. induction l as [| a l IH]; intros k H; simpl in *.
  - lia.
  - destruct k as [| k]; [reflexivity | apply IH; lia].
Qed.

Lemma arange_from_nth (a b : Z) (k : nat) :
  (k < Z.to_nat (b - a))%nat ->
  nth k (Molldata.arange_from a b) 0 = IZR (a + Z.of_nat k).
Proof.
  intros H. unfold Molldata.arange_from.
  rewrite (nth_map_lt _ _ _ 0%nat) by (rewrite length_seq; exact H).
  rewrite seq_nth by exact H. reflexivity.
Qed.

Lemma samples_length : length Molldata.samples = 179%nat.
Proof. reflexivity. Qed.

Lemma samples_nth (k : nat) :
  (k < 179)%nat ->
  nth k Molldata.samples 0 = (IZR (Z.of_nat k + 1) - 90) * dtor.
Proof.
  intros H. unfold Molldata.samples.
  rewrite (nth_map_lt _ _ _ 0) by (rewrite arange_from_length; simpl; lia).
  rewrite arange_from_nth by (simpl; lia).
  f_equal. f_equal. f_equal. lia.
Qed.

Lemma table_X_length : length Molldata.table_X = 181%nat.
Proof. reflexivity. Qed.

Lemma table_X_nth (k : nat) :
  (k <= 180)%nat -> nth k Molldata.table_X 0 = (INR k - 90) * dtor.
Proof.
  intros H. unfold Molldata.table_X.
  destruct k as [| k].
  - simpl. unfold dtor. field.
  - change ([- pi / 2] ++ Molldata.samples ++ [pi / 2])
      with (- pi / 2 :: (Molldata.samples ++ [pi / 2])).
    cbn [nth].
    destruct (Nat.lt_ge_cases k 179) as [Hk | Hk].
    + rewrite app_nth1 by (rewrite samples_length; exact Hk).
      rewrite samples_nth by exact Hk.
      rewrite S_INR, INR_IZR_INZ, plus_IZR. reflexivity.
    + assert (k = 179%nat) by lia. subst k.
      rewrite app_nth2 by (rewrite samples_length; lia).
      rewrite samples_length. simpl nth.
      rewrite INR_IZR_INZ. simpl Z.of_nat. unfold dtor. field.
Qed.

Lemma table_X_increasing : Interp.increasing Molldata.table_X.
Proof.
  intros i j [Hij Hj]. rewrite table_X_length in Hj.
  rewrite !table_X_nth by lia.
  apply Rmult_lt_compat_r; [exact dtor_pos |].
  apply lt_INR in Hij. lra.
Qed.

(** One pass of the loop of [__findRoot] is one Newton step at every
    latitude. *)
Lemma newton_update_step (xs : list fval) (lats : list R) :
  Molldata.newton_update xs (Molldata.fmoll xs (map Fin lats))
                            (Molldata.dfmoll xs None)
  = map (fun p => Molldata.newton_step (snd p) (fst p)) (combine xs lats).
Proof.
  unfold Molldata.newton_update, Molldata.fmoll, Molldata.dfmoll.
  revert lats. induction xs as [| x xs IH]; intros lats; [reflexivity |].
  destruct lats as [| lat lats]; [reflexivity |].
  simpl. f_equal. apply IH.
Qed.

Lemma map_combine_step (n : nat) (xs : list fval) (lats : list R) :
  map (fun p => Molldata.newton_step (snd p) (fst p))
      (combine (map (fun p => Nat.iter n (Molldata.newton_step (snd p)) (fst p))
                    (combine xs lats)) lats)
  = map (fun p => Nat.iter (S n) (Molldata.newton_step (snd p)) (fst p))
        (combine xs lats).
Proof.
  revert lats. induction xs as [| x xs IH]; intros lats; [reflexivity |].
  destruct lats as [| lat lats]; [reflexivity |].
  simpl. f_equal. apply IH.
Qed.

Lemma newton_iter_array (n : nat) (xs : list fval) (lats : list R) :
  length xs = length lats ->
  Nat.iter n (fun x => Molldata.newton_update x
                         (Molldata.fmoll x (map Fin lats))
                         (Molldata.dfmoll x None)) xs
  = map (fun p => Nat.iter n (Molldata.newton_step (snd p)) (fst p))
        (combine xs lats).
Proof.
  intros E. induction n as [| n IH].
  - simpl. revert lats E. induction xs as [| x xs IHx]; intros [| lat lats] E;
      simpl in *; try discriminate; [reflexivity |].
    f_equal. apply IHx. lia.
  - rewrite Nat.iter_succ, IH. rewrite newton_update_step.
    apply map_combine_step.
Qed.

Lemma combine_diag {A : Type} (f : A -> fval) (g : fval * A -> fval) (l : list A) :
  map g (combine (map f l) l) = map (fun a => g (f a, a)) l.
Proof.
  induction l as [| a l IH]; [reflexivity |]. simpl. f_equal. exact IH.
Qed.

Lemma findRoot_samples (lats : list R) :
  Molldata.findRoot Molldata.fmoll Molldata.dfmoll
    (map Fin lats) (map Fin lats) None 10
  = map (fun lat => Nat.iter 10 (Molldata.newton_step lat) (Fin lat)) lats.
Proof.
  unfold Molldata.findRoot.
  change (Z.to_nat (Z.min (Z.abs 10) 1000)) with 10%nat.
  rewrite newton_iter_array by apply length_map.
  apply (combine_diag Fin
    (fun p => Nat.iter 10 (Molldata.newton_step (snd p)) (fst p))).
Qed.

(** C3 (amended).  The table is built from the 179 sample latitudes
    [-89, -88, ..., 89] degrees, all strictly between the poles; the
    auxiliary angle of each is the result of exactly 10 Newton steps
    [A - (2A + sin 2A - pi sin lat) / (2 (1 + cos 2A))] started at
    [A = lat]; and [-pi/2] is put in front of, [pi/2] behind, both
    sequences. *)
Theorem molldata_construction :
  length Molldata.samples = 179%nat /\
  (forall k : nat, (k < 179)%nat ->
     nth k Molldata.samples 0 = (IZR (Z.of_nat k) - 89) * (pi / 180) /\
     - pi / 2 < nth k Molldata.samples 0 < pi / 2) /\
  (forall (lat : R) (a : R),
     Molldata.newton_step lat (Fin a) =
       (Fin a +^ fneg (Fin (2 * a + sin (2 * a) - pi * sin lat))
                 /^ Fin (2 * (1 + cos (2 * a))))%fv) /\
  Molldata.table_X = [- pi / 2] ++ Molldata.samples ++ [pi / 2] /\
  Molldata.table_Y =
    [Fin (- pi / 2)]
    ++ map (fun lat => Nat.iter 10 (Molldata.newton_step lat) (Fin lat))
           Molldata.samples
    ++ [Fin (pi / 2)].
Proof.
  split; [exact samples_length |].
  split.
  { intros k Hk. rewrite samples_nth by exact Hk. rewrite plus_IZR.
    fold dtor. pose proof dtor_pos as Hd.
    assert (H0 : 0 <= IZR (Z.of_nat k)) by (apply IZR_le; lia).
    assert (H1 : IZR (Z.of_nat k) <= 178) by (apply IZR_le; lia).
    split; [ring |].
    replace (- pi / 2) with (- 90 * dtor) by (unfold dtor; field).
    replace (pi / 2) with (90 * dtor) by (unfold dtor; field).
    split; apply Rmult_lt_compat_r; lra. }
  split.
  { intros lat a. unfold Molldata.newton_step, Molldata.fmoll1, Molldata.dfmoll1.
    reflexivity. }
  split; [reflexivity |].
  unfold Molldata.table_Y. rewrite findRoot_samples. reflexivity.
Qed.

(** C3 as stated fails: the sample latitudes are 179, not 178. *)
Lemma molldata_construction_counterexample :
  length Molldata.samples <> 178%nat /\
  length Molldata.table_X <> (178 + 2)%nat.
Proof.
  rewrite samples_length, table_X_length. split; discriminate.
Qed.

Lemma molldata_construction_witness :
  nth 0 Molldata.samples 0 = (IZR (Z.of_nat 0) - 89) * (pi / 180) /\
  - pi / 2 < nth 0 Molldata.samples 0 < pi / 2.
Proof.
  apply (proj1 (proj2 molldata_construction)). lia.
Defined.

Lemma table_Y_eq :
  Molldata.table_Y =
    Fin (- pi / 2)
    :: map (fun lat => Nat.iter 10 (Molldata.newton_step lat) (Fin lat))
           Molldata.samples
    ++ [Fin (pi / 2)].
Proof.
  unfold Molldata.table_Y. rewrite findRoot_samples. reflexivity.
Qed.

Lemma table_Y_length : length Molldata.table_Y = 181%nat.
Proof.
  rewrite table_Y_eq. cbn [length]. rewrite length_app, length_map, samples_length.
  reflexivity.
Qed.

Lemma construct_built (s : Molldata.state) (t : list R * list fval) :
  Molldata.molldata s = Some t -> Molldata.construct s = s.
Proof.
  intros H. unfold Molldata.construct, Molldata.initialise_data. rewrite H.
  reflexivity.
Qed.

Lemma construct_iter (n : nat) :
  Nat.iter (S n) Molldata.construct Molldata.initial
  = Molldata.mkState (Some (Molldata.table_X, Molldata.table_Y)) 1.
Proof.
  induction n as [| n IH].
  - reflexivity.
  - rewrite Nat.iter_succ, IH. reflexivity.
Qed.

(** C7.  The table's [X] is strictly increasing, [Y] starts at [-pi/2]
    and ends at [pi/2]; the first construction of a Mollweide projection
    builds the table, and every later one leaves the state as it is: after
    any number of constructions the table has been built once. *)
Theorem molldata_invariant :
  Interp.increasing Molldata.table_X /\
  nth 0 Molldata.table_Y NaN = Fin (- pi / 2) /\
  nth (length Molldata.table_Y - 1) Molldata.table_Y NaN = Fin (pi / 2) /\
  length Molldata.table_Y = length Molldata.table_X /\
  (forall n : nat,
     let s := Nat.iter (S n) Molldata.construct Molldata.initial in
     Molldata.molldata s = Some (Molldata.table_X, Molldata.table_Y) /\
     Molldata.builds s = 1%nat /\
     Molldata.construct s = s).
Proof.
  split; [exact table_X_increasing |].
  split; [rewrite table_Y_eq; reflexivity |].
  split.
  { rewrite table_Y_length. rewrite table_Y_eq.
    change (181 - 1)%nat with (S 179). cbn [nth].
    rewrite app_nth2 by (rewrite length_map, samples_length; lia).
    rewrite length_map, samples_length. reflexivity. }
  split; [rewrite table_Y_length, table_X_length; reflexivity |].
  intros n s. unfold s. rewrite construct_iter. repeat split.
Qed.

(** ** Mollweide [vec2xy]: wrapping the azimuth *)

Lemma pymod_range (a b : R) : 0 < b -> 0 <= Mollweide.pymod a b < b.
Proof.
  intros Hb. unfold Mollweide.pymod.
  destruct (base_Int_part (a / b)) as [H1 H2].
  assert (E : a = b * (a / b)) by (field; lra).
  set (q := IZR (Int_part (a / b))) in *.
  set (r := a / b) in *.
  clearbody q r. subst a. split; nra.
Qed.

Lemma wrap_phi_range (phi : R) : - pi <= Mollweide.wrap_phi phi < pi.
Proof.
  unfold Mollweide.wrap_phi. pose proof pi_pos as Hp.
  pose proof (pymod_range (phi + pi) (2 * pi) ltac:(lra)). lra.
Qed.

Lemma wrap_phi_congruent (phi : R) :
  exists k : Z, Mollweide.wrap_phi phi = phi - 2 * pi * IZR k.
Proof.
  exists (Int_part ((phi + pi) / (2 * pi))).
  unfold Mollweide.wrap_phi, Mollweide.pymod. ring.
Qed.

Lemma wrap_phi_pi : Mollweide.wrap_phi pi = - pi.
Proof.
  unfold Mollweide.wrap_phi, Mollweide.pymod. pose proof pi_pos as Hp.
  replace ((pi + pi) / (2 * pi)) with (IZR 1) by (field; lra).
  rewrite Int_part_IZR. ring.
Qed.

Lemma table_X_last : nth (length Molldata.table_X - 1) Molldata.table_X 0 = pi / 2.
Proof.
  rewrite table_X_length. change (181 - 1)%nat with 180%nat.
  rewrite table_X_nth by lia. unfold dtor.
  replace (INR 180) with 180 by (rewrite INR_IZR_INZ; reflexivity). field.
Qed.

(** C4 (amended).  [MollweideProj.vec2xy] wraps the azimuth into the
    half-open interval from [-pi] (included) to [pi] (excluded), changing
    it by a multiple of [2 pi]; for a colatitude in [0, pi] the table
    lookup gives an angle [A], and the plane point is
    [(flip * 2 / pi * phi * cos A, sin A)] for the wrapped [phi]. *)
Theorem mollweide_vec2xy_wraps
    (vec2dir : vecarg -> result (R * R)) (rotator : vecarg -> vecarg)
    (n : nat) (flip : Z) (arg : vecarg) (direct : bool) (theta phi : R) :
  vec2dir (if direct then arg else rotator arg) = Ok (theta, phi) ->
  0 <= theta <= pi ->
  let s := Nat.iter (S n) Molldata.construct Molldata.initial in
  let wphi := Mollweide.wrap_phi phi in
  - pi <= wphi < pi /\
  (exists k : Z, wphi = phi - 2 * pi * IZR k) /\
  exists A : fval,
    Interp.lininterp Molldata.table_X Molldata.table_Y (pi / 2 - theta) = Ok A /\
    Mollweide.vec2xy vec2dir rotator s flip arg direct
      = Ok ((FZ flip *^ Fin 2 /^ Fin pi *^ Fin wphi *^ fcos A)%fv, fsin A) /\
    (forall a : R, A = Fin a ->
       Mollweide.vec2xy vec2dir rotator s flip arg direct
         = Ok (Fin (IZR flip * 2 / pi * wphi * cos a), Fin (sin a))).
Proof.
  intros Hdir Hth s wphi.
  split; [apply wrap_phi_range |].
  split; [apply wrap_phi_congruent |].
  destruct (lininterp_ok Molldata.table_X Molldata.table_Y (pi / 2 - theta))
    as [A HA].
  - exact table_X_increasing.
  - rewrite table_Y_length, table_X_length. reflexivity.
  - rewrite table_X_length. lia.
  - rewrite table_X_last. lra.
  - exists A. split; [exact HA |].
    assert (E : Mollweide.vec2xy vec2dir rotator s flip arg direct
                = Ok ((FZ flip *^ Fin 2 /^ Fin pi *^ Fin wphi *^ fcos A)%fv, fsin A)).
    { unfold Mollweide.vec2xy.
      replace (if negb direct then vec2dir (rotator arg) else vec2dir arg)
        with (vec2dir (if direct then arg else rotator arg))
        by (destruct direct; reflexivity).
      rewrite Hdir. unfold bind at 1. cbn [fst snd].
      unfold Mollweide.vec2xy_dir, s. rewrite construct_iter.
      cbn [Molldata.molldata]. rewrite HA. reflexivity. }
    split; [exact E |].
    intros a Ea. rewrite E, Ea. unfold FZ. simpl.
    rewrite Reqb_false by (pose proof pi_pos; lra). reflexivity.
Qed.

Lemma mollweide_vec2xy_wraps_witness :
  - pi <= Mollweide.wrap_phi 0 < pi.
Proof.
  apply (mollweide_vec2xy_wraps (fun _ => Ok (pi / 2, 0)) (fun a => a) 0 (-1)
           (V_packed (Sc (Fin 1), Sc (Fin 0), Sc (Fin 0))) true (pi / 2) 0).
  - reflexivity.
  - pose proof pi_pos. lra.
Defined.

(** C4 as stated fails: the azimuth [pi] is wrapped to [-pi]. *)
Lemma mollweide_vec2xy_wraps_counterexample :
  Mollweide.wrap_phi pi = - pi /\
  ~ (- pi < Mollweide.wrap_phi pi <= pi).
Proof.
  split; [exact wrap_phi_pi |].
  rewrite wrap_phi_pi. lra.
Qed.

(** ** Gnomonic projection of vectors *)

Lemma set_flip_values (f : option SphericalProj.flipconv) (flip : Z) :
  SphericalProj.set_flip f = Ok flip -> flip = 1%Z \/ flip = (-1)%Z.
Proof.
  destruct f as [[| |] |]; simpl; intros H; try discriminate;
    injection H as <-; auto.
Qed.

Lemma flip_square (flip : Z) :
  flip = 1%Z \/ flip = (-1)%Z -> IZR flip * IZR flip = 1.
Proof. intros [-> | ->]; simpl; ring. Qed.



Section Binary64.

Import PrimFloat.

Set Warnings "-inexact-float".


(** On some unit vectors of moderate slope the binary64 round trip stays
    within [1e-15] of the vector it started from, component by component. *)
Example gnomonic_vec_roundtrip_binary64 :
  forallb
    (fun v : float * float * float =>
       forallb
         (fun flip : float =>
            let '(a, b, c) := Double.vec_roundtrip flip v in
            let '(vx, vy, vz) := v in
            (PrimFloat.abs (a - vx) <=? 1e-15)%float
            && (PrimFloat.abs (b - vy) <=? 1e-15)%float
            && (PrimFloat.abs (c - vz) <=? 1e-15)%float)
         [(-1)%float; 1%float])
    [(1, 0, 0)%float; (0.6, 0.8, 0)%float; (0.6, -0.8, 0)%float;
     (0.36, 0.48, 0.8)%float; (0.28, 0, -0.96)%float]
  = true.
Proof. vm_compute. reflexivity. Qed.

Set Warnings "+inexact-float".

End Binary64.

(** ** Gathering and scattering along a mask *)

Lemma nth_error_app_here {A : Type} (pre : list A) (x : A) (l : list A) :
  nth_error (pre ++ x :: l) (length pre) = Some x.
Proof.
  rewrite nth_error_app2 by lia. rewrite Nat.sub_diag. reflexivity.
Qed.

Lemma set_nth_app_here (pre : list fval) (x v : fval) (l : list fval) :
  set_nth (length pre) v (pre ++ x :: l) = pre ++ v :: l.
Proof.
  induction pre as [| p pre IH]; simpl; [reflexivity |]. rewrite IH. reflexivity.
Qed.

Lemma app_cons_assoc {A : Type} (pre : list A) (x : A) (l : list A) :
  pre ++ x :: l = (pre ++ [x]) ++ l.
Proof. rewrite <- app_assoc. reflexivity. Qed.

Lemma length_snoc {A : Type} (pre : list A) (x : A) :
  length (pre ++ [x]) = S (length pre).
Proof. rewrite length_app. simpl. lia. Qed.

Lemma gather_where (mask : list bool) :
  forall (pre a : list fval),
    length a = length mask ->
    gather (pre ++ a) (where_false_from (length pre) mask)
    = Ok (select (map negb mask) a).
Proof.
  induction mask as [| b m IH]; intros pre a Hlen.
  - destruct a; [reflexivity | discriminate].
  - destruct a as [| x a]; [discriminate |]. simpl in Hlen.
    destruct b; simpl.
    + rewrite app_cons_assoc, <- length_snoc with (x := x).
      apply IH. lia.
    + rewrite nth_error_app_here.
      rewrite app_cons_assoc, <- length_snoc with (x := x).
      rewrite IH by lia. reflexivity.
Qed.

Lemma scatter_where (mask : list bool) :
  forall (pre a vals : list fval),
    length a = length mask ->
    scatter (pre ++ a) (where_false_from (length pre) mask) vals
    = pre ++ assign (map negb mask) a vals.
Proof.
  induction mask as [| b m IH]; intros pre a vals Hlen.
  - destruct a; [reflexivity | discriminate].
  - destruct a as [| x a]; [discriminate |]. simpl in Hlen.
    destruct b; simpl.
    + rewrite (app_cons_assoc pre x a), <- length_snoc with (x := x).
      rewrite IH by lia. rewrite <- app_assoc. reflexivity.
    + destruct vals as [| v vals]; [reflexivity |].
      rewrite set_nth_app_here.
      rewrite (app_cons_assoc pre v a), <- length_snoc with (x := v).
      rewrite IH by lia. rewrite <- app_assoc. reflexivity.
Qed.

Lemma gather_where0 (mask : list bool) (a : list fval) :
  length a = length mask ->
  gather a (where_false_from 0 mask) = Ok (select (map negb mask) a).
Proof. exact (gather_where mask [] a). Qed.

Lemma scatter_where0 (mask : list bool) (a vals : list fval) :
  length a = length mask ->
  scatter a (where_false_from 0 mask) vals = assign (map negb mask) a vals.
Proof. exact (scatter_where mask [] a vals). Qed.

Lemma nans_repeat (n : nat) :
  map (fun z => (z +^ NaN)%fv) (repeat (Fin 0) n) = repeat NaN n.
Proof.
  induction n as [| n IH]; [reflexivity |]. simpl. rewrite IH. reflexivity.
Qed.

(** Writing [g] of the selected entries back at the selected positions
    of an array of not-a-numbers is an elementwise operation. *)
Lemma assign_select (m : fval -> bool) (g : fval -> fval -> fval) :
  forall l0 l1 : list fval,
    length l1 = length l0 ->
    assign (map negb (map m l0)) (repeat NaN (length l0))
      (zip_with g (select (map negb (map m l0)) l1)
                  (select (map negb (map m l0)) l0))
    = map (fun p => if m (fst p) then NaN else g (snd p) (fst p))
          (combine l0 l1).
Proof.
  induction l0 as [| a l0 IH]; intros l1 Hlen.
  - reflexivity.
  - destruct l1 as [| b l1]; [discriminate |]. simpl in Hlen.
    simpl. destruct (m a); simpl.
    + f_equal. apply IH. lia.
    + f_equal. apply IH. lia.
Qed.

Lemma zip_with_map_l (f : fval -> fval) (g : fval -> fval -> fval) :
  forall l m : list fval,
    zip_with g (map f l) m = zip_with (fun b a => g (f b) a) l m.
Proof.
  unfold zip_with. induction l as [| x l IH]; intros m; [reflexivity |].
  destruct m as [| y m]; [reflexivity |]. simpl. f_equal. apply IH.
Qed.

Lemma length_map_combine {A B C : Type} (f : A * B -> C) (l : list A) (m : list B) :
  length m = length l -> length (map f (combine l m)) = length l.
Proof.
  intros H. rewrite length_map, length_combine. lia.
Qed.

Lemma project_arrays (flip : Z) (l0 l1 l2 : list fval) :
  length l1 = length l0 -> length l2 = length l0 ->
  Gnomonic.project flip (Ar l0, Ar l1, Ar l2)
  = Ok (Ar (map (fun p => Gnomonic.masked_x flip (fst p) (snd p)) (combine l0 l1)),
        Ar (map (fun p => Gnomonic.masked_y (fst p) (snd p)) (combine l0 l2))).
Proof.
  intros H1 H2. unfold Gnomonic.project, cgather, where_false.
  set (m := fun a => fle a (Fin 0)).
  assert (Hm : length l0 = length (map m l0)) by (rewrite length_map; reflexivity).
  rewrite (gather_where0 (map m l0) l1) by lia.
  rewrite (gather_where0 (map m l0) l0) by lia.
  rewrite (gather_where0 (map m l0) l2) by lia.
  unfold bind. rewrite nans_repeat.
  rewrite !(scatter_where0 (map m l0)) by (rewrite repeat_length; exact Hm).
  rewrite zip_with_map_l.
  rewrite (assign_select m (fun b a => (FZ flip *^ b /^ a)%fv)) by exact H1.
  rewrite (assign_select m (fun c a => (c /^ a)%fv)) by exact H2.
  reflexivity.
Qed.

Lemma flip_times_quotient (flip : Z) (a b : fval) :
  flip = 1%Z \/ flip = (-1)%Z ->
  fgt a (Fin 0) = true ->
  (FZ flip *^ b /^ a)%fv = (FZ flip *^ (b /^ a))%fv.
Proof.
  intros Hf Ha. unfold FZ.
  destruct a as [r | | |]; simpl in Ha; try discriminate.
  - assert (Hr : 0 < r).
    { unfold Rltb in Ha. destruct (Rlt_dec 0 r); [assumption | discriminate]. }
    destruct Hf as [-> | ->]; destruct b as [y | | |]; simpl;
      unfold inf_of_sign; rdec lra; simpl; rdec lra;
      try reflexivity; f_equal; field; lra.
  - destruct Hf as [-> | ->]; destruct b as [y | | |]; simpl;
      unfold inf_of_sign; rdec lra; simpl; try reflexivity; f_equal; ring.
Qed.

Lemma fle_fgt_exclusive (a : fval) :
  fgt a (Fin 0) = true -> fle a (Fin 0) = false.
Proof.
  destruct a as [r | | |]; simpl; try discriminate; try reflexivity.
  unfold Rltb, Rleb. destruct (Rlt_dec 0 r), (Rle_dec r 0);
    try reflexivity; try discriminate; intros _; lra.
Qed.

Lemma nth_map_combine {A B C : Type} (f : A * B -> C) (l : list A) (m : list B)
    (d : C) (da : A) (db : B) (k : nat) :
  length m = length l -> (k < length l)%nat ->
  nth k (map f (combine l m)) d = f (nth k l da, nth k m db).
Proof.
  intros Hlen Hk.
  rewrite (nth_map_lt f _ d (da, db)) by (rewrite length_combine; lia).
  rewrite combine_nth by lia. reflexivity.
Qed.

(** C6.  [GnomonicProj.vec2xy] never raises on account of the domain.  The
    vector it examines is the one the rotator returns for the arguments
    when [direct] is false, and the argument itself (packed, or given as
    three components) when [direct] is true.  For a scalar vector, and at
    every position of parallel arrays, both plane coordinates are
    not-a-number where the first component of that vector is [<= 0], and
    they are [flip * (y / x)] and [z / x] where it is [> 0]. *)
Theorem gnomonic_vec2xy_masks
    (rotator : vecarg -> result vec3) (f : option SphericalProj.flipconv)
    (flip : Z) (arg : vecarg) (direct : bool) (vec : vec3) :
  SphericalProj.set_flip f = Ok flip ->
  (direct = false /\ rotator arg = Ok vec) \/
  (direct = true /\
   (arg = V_packed vec \/ arg = V_split (fst (fst vec)) (snd (fst vec)) (snd vec))) ->
  (forall v0 v1 v2 : fval,
      vec = (Sc v0, Sc v1, Sc v2) ->
      (fle v0 (Fin 0) = true ->
       Gnomonic.vec2xy rotator flip arg direct = Ok (Sc NaN, Sc NaN)) /\
      (fgt v0 (Fin 0) = true ->
       Gnomonic.vec2xy rotator flip arg direct
       = Ok (Sc (FZ flip *^ (v1 /^ v0))%fv, Sc (v2 /^ v0)%fv))) /\
  (forall l0 l1 l2 : list fval,
      vec = (Ar l0, Ar l1, Ar l2) ->
      length l1 = length l0 -> length l2 = length l0 ->
      exists xs ys : list fval,
        Gnomonic.vec2xy rotator flip arg direct = Ok (Ar xs, Ar ys) /\
        length xs = length l0 /\ length ys = length l0 /\
        forall k : nat, (k < length l0)%nat ->
          (fle (nth k l0 NaN) (Fin 0) = true ->
           nth k xs (Fin 0) = NaN /\ nth k ys (Fin 0) = NaN) /\
          (fgt (nth k l0 NaN) (Fin 0) = true ->
           nth k xs (Fin 0) = (FZ flip *^ (nth k l1 NaN /^ nth k l0 NaN))%fv /\
           nth k ys (Fin 0) = (nth k l2 NaN /^ nth k l0 NaN)%fv)).
Proof.
  intros Hf Hvec. apply set_flip_values in Hf.
  assert (Hv : Gnomonic.vec2xy rotator flip arg direct = Gnomonic.project flip vec).
  { unfold Gnomonic.vec2xy, Gnomonic.frame_vector.
    destruct Hvec as [[-> Hr] | [-> [-> | ->]]]; cbn [negb].
    - rewrite Hr. reflexivity.
    - reflexivity.
    - destruct vec as [[c0 c1] c2]. reflexivity. }
  rewrite Hv. split.
  - intros v0 v1 v2 ->.
    unfold Gnomonic.project. split; intros H0.
    + rewrite H0. reflexivity.
    + rewrite (fle_fgt_exclusive _ H0). cbn [cmap].
      rewrite flip_times_quotient by assumption. reflexivity.
  - intros l0 l1 l2 -> H1 H2.
    rewrite project_arrays by assumption.
    eexists. eexists. split; [reflexivity |].
    split; [apply length_map_combine; exact H1 |].
    split; [apply length_map_combine; exact H2 |].
    intros k Hk.
    rewrite (nth_map_combine _ l0 l1 (Fin 0) NaN NaN k H1 Hk).
    rewrite (nth_map_combine _ l0 l2 (Fin 0) NaN NaN k H2 Hk).
    cbn [fst snd]. unfold Gnomonic.masked_x, Gnomonic.masked_y.
    split; intros H0.
    + rewrite H0. split; reflexivity.
    + rewrite (fle_fgt_exclusive _ H0).
      rewrite flip_times_quotient by assumption. split; reflexivity.
Qed.

(** The theorem at a rotator that turns the axes ([x -> y -> z -> x]), in
    rotated and in direct mode: the vector [(1, 0, 0)] has a positive first
    component, its rotated image [(0, 0, 1)] has not. *)
Lemma gnomonic_vec2xy_masks_witness :
  Gnomonic.vec2xy turn_axes (-1) (V_split (Sc (Fin 1)) (Sc (Fin 0)) (Sc (Fin 0))) false
  = Ok (Sc NaN, Sc NaN) /\
  Gnomonic.vec2xy turn_axes (-1) (V_split (Sc (Fin 1)) (Sc (Fin 0)) (Sc (Fin 0))) true
  = Ok (Sc (FZ (-1) *^ (Fin 0 /^ Fin 1))%fv, Sc (Fin 0 /^ Fin 1)%fv) /\
  exists xs ys : list fval,
    Gnomonic.vec2xy turn_axes (-1)
      (V_packed (Ar [Fin 1; Fin 1], Ar [Fin 2; Fin 0], Ar [Fin 4; Fin 4])) false
    = Ok (Ar xs, Ar ys) /\
    length xs = 2%nat /\ length ys = 2%nat /\
    forall k : nat, (k < 2)%nat ->
      (fle (nth k [Fin 2; Fin 0] NaN) (Fin 0) = true ->
       nth k xs (Fin 0) = NaN /\ nth k ys (Fin 0) = NaN) /\
      (fgt (nth k [Fin 2; Fin 0] NaN) (Fin 0) = true ->
       nth k xs (Fin 0)
         = (FZ (-1) *^ (nth k [Fin 4; Fin 4] NaN /^ nth k [Fin 2; Fin 0] NaN))%fv /\
       nth k ys (Fin 0)
         = (nth k [Fin 1; Fin 1] NaN /^ nth k [Fin 2; Fin 0] NaN)%fv).
Proof.
  split; [| split].
  - apply (proj1 (gnomonic_vec2xy_masks turn_axes None (-1)
                    (V_split (Sc (Fin 1)) (Sc (Fin 0)) (Sc (Fin 0))) false
                    (Sc (Fin 0), Sc (Fin 0), Sc (Fin 1))
                    eq_refl (or_introl (conj eq_refl eq_refl)))
             (Fin 0) (Fin 0) (Fin 1) eq_refl).
    simpl. apply Rleb_true. lra.
  - apply (proj1 (gnomonic_vec2xy_masks turn_axes None (-1)
                    (V_split (Sc (Fin 1)) (Sc (Fin 0)) (Sc (Fin 0))) true
                    (Sc (Fin 1), Sc (Fin 0), Sc (Fin 0))
                    eq_refl (or_intror (conj eq_refl (or_intror eq_refl))))
             (Fin 1) (Fin 0) (Fin 0) eq_refl).
    simpl. apply Rltb_true. lra.
  - apply (proj2 (gnomonic_vec2xy_masks turn_axes None (-1)
                    (V_packed (Ar [Fin 1; Fin 1], Ar [Fin 2; Fin 0], Ar [Fin 4; Fin 4]))
                    false
                    (Ar [Fin 2; Fin 0], Ar [Fin 4; Fin 4], Ar [Fin 1; Fin 1])
                    eq_refl (or_introl (conj eq_refl eq_refl)))
             [Fin 2; Fin 0] [Fin 4; Fin 4] [Fin 1; Fin 1] eq_refl eq_refl eq_refl).
Defined.

(** ** Resampling a map *)

Lemma select_all (a : list fval) : select (repeat true (length a)) a = a.
Proof.
  induction a as [| x a IH]; [reflexivity |]. simpl. rewrite IH. reflexivity.
Qed.

Lemma select_length (w : list bool) :
  forall a : list fval,
    length a = length w ->
    length (select w a) = SphericalProj.count_true w.
Proof.
  unfold SphericalProj.count_true.
  induction w as [| b w IH]; intros a Hlen.
  - destruct a; [reflexivity | discriminate].
  - destruct a as [| x a]; [discriminate |]. simpl in Hlen.
    destruct b; simpl; rewrite IH by lia; reflexivity.
Qed.

Lemma assign_repeat (c : fval) (w : list bool) :
  forall img : list fval,
    length img = length w ->
    assign w img (repeat c (SphericalProj.count_true w))
    = map (fun p : bool * fval => if fst p then c else snd p) (combine w img).
Proof.
  unfold SphericalProj.count_true.
  induction w as [| b w IH]; intros img Hlen.
  - destruct img; [reflexivity | discriminate].
  - destruct img as [| x img]; [discriminate |]. simpl in Hlen.
    destruct b; simpl; rewrite IH by lia; reflexivity.
Qed.

Lemma sentinel_repeat (n : nat) :
  map (fun z => (z -^ PInf)%fv) (repeat (Fin 0) n) = repeat NInf n.
Proof.
  induction n as [| n IH]; [reflexivity |]. simpl. rewrite IH. reflexivity.
Qed.

Lemma getitem_In {A : Type} (a : list A) (i : Z) (v : A) :
  Interp.getitem a i = Ok v -> In v a.
Proof.
  unfold Interp.getitem.
  set (k := if (i <? 0)%Z then (i + Z.of_nat (length a))%Z else i).
  destruct ((0 <=? k) && (k <? Z.of_nat (length a)))%Z; [| discriminate].
  destruct (nth_error a (Z.to_nat k)) as [u |] eqn:E; [| discriminate].
  intros H. injection H as <-. eapply nth_error_In. exact E.
Qed.

Lemma getitem_in_range {A : Type} (a : list A) (i : Z) :
  (- Z.of_nat (length a) <= i < Z.of_nat (length a))%Z ->
  exists v : A, Interp.getitem a i = Ok v.
Proof.
  intros H. unfold Interp.getitem.
  set (k := if (i <? 0)%Z then (i + Z.of_nat (length a))%Z else i).
  assert (Hk : (0 <= k < Z.of_nat (length a))%Z).
  { unfold k. destruct (i <? 0)%Z eqn:E;
      [apply Z.ltb_lt in E | apply Z.ltb_ge in E]; lia. }
  replace (0 <=? k)%Z with true by (symmetry; apply Z.leb_le; lia).
  replace (k <? Z.of_nat (length a))%Z with true by (symmetry; apply Z.ltb_lt; lia).
  simpl. destruct (nth_error a (Z.to_nat k)) as [v |] eqn:E.
  - exists v. reflexivity.
  - apply nth_error_None in E. lia.
Qed.

Lemma getitem_constant (map : list fval) (c : fval) (k : Z) :
  Forall (eq c) map ->
  (- Z.of_nat (length map) <= k < Z.of_nat (length map))%Z ->
  Interp.getitem map k = Ok c.
Proof.
  intros Hc Hk. destruct (getitem_in_range map k Hk) as [v Hv].
  rewrite Hv. f_equal. symmetry.
  rewrite Forall_forall in Hc. apply Hc. eapply getitem_In. exact Hv.
Qed.

Lemma getitems_constant (map : list fval) (c : fval) (k : Z) (n : nat) :
  Forall (eq c) map ->
  (- Z.of_nat (length map) <= k < Z.of_nat (length map))%Z ->
  SphericalProj.getitems map (repeat k n) = Ok (repeat c n).
Proof.
  intros Hc Hk. induction n as [| n IH]; [reflexivity |].
  simpl. rewrite (getitem_constant map c k Hc Hk). simpl. rewrite IH. reflexivity.
Qed.

Section ProjmapConstant.

Import SphericalProj.

Variable Rot : Type.
Variable new_rotator_I : Rot -> option coordarg * option coordarg -> vec3 -> result vec3.
Variable coordsys : option String.string.
Variable map_ : list fval.
Variable vec2pix : comp -> comp -> comp -> pixels.
Variable rot : Rot.
Variable coord : option coordarg.
Variable cc : option coordarg * option coordarg.
Variable c : fval.
Variable k : Z.

Hypothesis Hcoord : mkcoord coordsys coord = Ok cc.
Hypothesis Hrot : shape_preserving (new_rotator_I rot cc).
Hypothesis Hpix : fixed_pixel vec2pix k.
Hypothesis Hk : (- Z.of_nat (length map_) <= k < Z.of_nat (length map_))%Z.
Hypothesis Hmap : Forall (eq c) map_.

Lemma map_getitem_constant (v0 v1 v2 : comp) (n : nat) :
  (forall l, v0 = Ar l -> length l = n) ->
  exists vals : comp,
    map_getitem map_ (vec2pix v0 v1 v2) = Ok vals /\
    (vals = Sc c \/ vals = Ar (repeat c n)).
Proof.
  intros Hn. destruct (Hpix v0 v1 v2) as [E | (l & El & E)]; rewrite E.
  - exists (Sc c). simpl. rewrite (getitem_constant map_ c k Hmap Hk).
    split; [reflexivity | left; reflexivity].
  - exists (Ar (repeat c n)). simpl. rewrite (Hn l El).
    rewrite (getitems_constant map_ c k n Hmap Hk).
    split; [reflexivity | right; reflexivity].
Qed.

Lemma projmap_generic (self : projector) (x y : grid) :
  p_ij2xy self IJ_none = Ok (P_grid x y) ->
  length (g_data x) = (fst (g_shape x) * snd (g_shape x))%nat ->
  length (g_data y) = (fst (g_shape x) * snd (g_shape x))%nat ->
  (forall m, g_mask x = Some m ->
             length m = (fst (g_shape x) * snd (g_shape x))%nat) ->
  (forall xs ys : list fval,
      length ys = length xs ->
      exists m0 m1 m2 : list fval,
        p_xy2vec self (XY_both (Ar xs) (Ar ys)) false = Ok (Ar m0, Ar m1, Ar m2) /\
        length m1 = length m0 /\ length m2 = length m0 /\
        length m0 = length xs) ->
  projmap Rot new_rotator_I self coordsys map_ vec2pix rot coord
  = Ok (mkImage (g_shape x)
          (map (fun p : bool * fval => if fst p then c else snd p)
               (combine (selection x)
                        (repeat NInf (fst (g_shape x) * snd (g_shape x)))))).
Proof.
  intros Hij Hx Hy Hm Hvec.
  set (n := (fst (g_shape x) * snd (g_shape x))%nat) in *.
  unfold projmap. rewrite Hij. unfold bind at 1.
  fold n. set (w := selection x).
  assert (Hw : length w = n).
  { unfold w, selection. fold n. destruct (g_mask x) as [m |] eqn:E.
    - rewrite length_map. apply Hm. reflexivity.
    - apply repeat_length. }
  destruct (Hvec (select w (g_data x)) (select w (g_data y)))
    as (m0 & m1 & m2 & Ev & L1 & L2 & L0).
  { rewrite !select_length by lia. reflexivity. }
  rewrite Ev. unfold bind at 1. rewrite Hcoord. unfold bind at 1.
  destruct (Hrot m0 m1 m2 L1 L2) as (r0 & r1 & r2 & Er & Lr & _ & _).
  rewrite Er. unfold bind at 1.
  assert (Hcount : length r0 = count_true w).
  { rewrite Lr, L0. apply select_length. lia. }
  destruct (map_getitem_constant (Ar r0) (Ar r1) (Ar r2) (count_true w))
    as (vals & Eg & Hvals).
  { intros l El. injection El as <-. exact Hcount. }
  rewrite Eg. unfold bind at 1. rewrite sentinel_repeat.
  assert (Ea : img_assign w (repeat NInf n) vals
               = Ok (assign w (repeat NInf n) (repeat c (count_true w)))).
  { destruct Hvals as [-> | ->]; unfold img_assign.
    - reflexivity.
    - rewrite repeat_length, Nat.eqb_refl. reflexivity. }
  rewrite Ea. unfold bind.
  rewrite assign_repeat by (rewrite repeat_length; lia).
  reflexivity.
Qed.

Lemma projmap_image_nth (x : grid) (p : nat) :
  (forall m, g_mask x = Some m ->
             length m = (fst (g_shape x) * snd (g_shape x))%nat) ->
  (p < fst (g_shape x) * snd (g_shape x))%nat ->
  nth p (map (fun q : bool * fval => if fst q then c else snd q)
             (combine (selection x)
                      (repeat NInf (fst (g_shape x) * snd (g_shape x))))) NaN
  = if masked_at x p then NInf else c.
Proof.
  intros Hm Hp. set (n := (fst (g_shape x) * snd (g_shape x))%nat) in *.
  assert (Hw : length (selection x) = n).
  { unfold selection. fold n. destruct (g_mask x) as [m |] eqn:E.
    - rewrite length_map. apply Hm. reflexivity.
    - apply repeat_length. }
  rewrite (nth_map_combine _ (selection x) (repeat NInf n) NaN false NInf p)
    by (rewrite ?repeat_length; lia).
  cbn [fst snd]. rewrite nth_repeat.
  unfold masked_at, selection. fold n. destruct (g_mask x) as [m |] eqn:E.
  - rewrite (nth_map_lt negb m false false) by (rewrite (Hm m eq_refl); exact Hp).
    destruct (nth p m false); reflexivity.
  - rewrite nth_repeat_lt by exact Hp. reflexivity.
Qed.

End ProjmapConstant.

Lemma outer_length (u v : list fval) : length (outer u v) = (length u * length v)%nat.
Proof.
  unfold outer. induction u as [| a u IH]; [reflexivity |].
  simpl. rewrite length_app, length_map, IH. reflexivity.
Qed.

Lemma ones_length (n : nat) : length (ones n) = n.
Proof. apply repeat_length. Qed.

Lemma arange_length (n : nat) : length (arange n) = n.
Proof. unfold arange. rewrite length_map, length_seq. reflexivity. Qed.

Lemma assign_length (w : list bool) :
  forall a vals : list fval, length (assign w a vals) = length a.
Proof.
  induction w as [| b w IH]; intros a vals; [reflexivity |].
  destruct a as [| x a]; [reflexivity |].
  destruct b; simpl.
  - destruct vals as [| v vals]; [reflexivity |]. simpl. rewrite IH. reflexivity.
  - rewrite IH. reflexivity.
Qed.

Lemma zneg_false (z : Z) : (0 <= z)%Z -> (z <? 0)%Z = false.
Proof. intros H. apply Z.ltb_ge. exact H. Qed.

Section GnomonicGrid.

Variable rotator_I : vec3 -> result vec3.
Hypothesis HrotI : SphericalProj.shape_preserving rotator_I.
Variable flip : Z.

Lemma gnomonic_grid (a : Gnomonic.info) :
  (0 <= Gnomonic.xsize a)%Z -> (0 <= Gnomonic.ysize a)%Z ->
  exists x y : grid,
    Gnomonic.ij2xy (Some a) IJ_none = Ok (P_grid x y) /\
    g_shape x = (Z.to_nat (Gnomonic.xsize a), Z.to_nat (Gnomonic.ysize a)) /\
    g_mask x = None /\
    length (g_data x) = (fst (g_shape x) * snd (g_shape x))%nat /\
    length (g_data y) = (fst (g_shape x) * snd (g_shape x))%nat.
Proof.
  intros Hx Hy. unfold Gnomonic.ij2xy.
  rewrite (zneg_false _ Hx), (zneg_false _ Hy). cbn [orb].
  eexists. eexists. split; [reflexivity |]. cbn [g_shape g_mask g_data fst snd].
  split; [reflexivity |]. split; [reflexivity |].
  rewrite !length_map, !outer_length, !ones_length, !arange_length.
  split; reflexivity.
Qed.

Lemma gnomonic_xy2vec_arrays (xs ys : list fval) :
  length ys = length xs ->
  exists m0 m1 m2 : list fval,
    Gnomonic.xy2vec rotator_I flip (XY_both (Ar xs) (Ar ys)) false
      = Ok (Ar m0, Ar m1, Ar m2) /\
    length m1 = length m0 /\ length m2 = length m0 /\ length m0 = length xs.
Proof.
  intros Hlen. unfold Gnomonic.xy2vec. cbn [xy_unpack].
  unfold cmap2 at 1. rewrite <- Hlen, Nat.eqb_refl. unfold bind at 1.
  cbn [cmap].
  set (rm1 := map _ (map _ (combine xs ys))).
  assert (Lr : length rm1 = length xs).
  { unfold rm1. rewrite !length_map, length_combine. lia. }
  unfold cmap2. rewrite Lr, <- Hlen, Nat.eqb_refl. unfold bind. cbn [negb].
  match goal with
  | |- context [rotator_I (Ar ?a, Ar ?b, Ar ?c)] =>
      destruct (HrotI a b c) as (m0 & m1 & m2 & E & L0 & L1 & L2)
  end.
  - rewrite length_map, length_combine. lia.
  - rewrite length_map, length_combine. lia.
  - exists m0, m1, m2. split; [exact E |]. repeat split; lia.
Qed.

End GnomonicGrid.

Section MollweideGrid.

Variable rotator_I : vec3 -> result vec3.
Hypothesis HrotI : SphericalProj.shape_preserving rotator_I.
Variable flip : Z.

Lemma mask_or_nomask_length (m m' : list bool) :
  mask_or_nomask m = Some m' -> length m' = length m.
Proof.
  unfold mask_or_nomask. destruct (any m); [| discriminate].
  intros H. injection H as <-. reflexivity.
Qed.

Lemma mollweide_grid (xsize : Z) :
  (0 <= xsize)%Z ->
  exists x y : grid,
    Mollweide.ij2xy (Some xsize) IJ_none = Ok (P_grid x y) /\
    g_shape x = (Z.to_nat (Mollweide.ysize xsize), Z.to_nat xsize) /\
    length (g_data x) = (fst (g_shape x) * snd (g_shape x))%nat /\
    length (g_data y) = (fst (g_shape x) * snd (g_shape x))%nat /\
    (forall m, g_mask x = Some m ->
               length m = (fst (g_shape x) * snd (g_shape x))%nat).
Proof.
  intros Hx. unfold Mollweide.ij2xy.
  assert (Hy : (0 <= Mollweide.ysize xsize)%Z)
    by (unfold Mollweide.ysize; apply Z.div_pos; lia).
  rewrite (zneg_false _ Hx), (zneg_false _ Hy). cbn [orb].
  eexists. eexists. split; [reflexivity |]. cbn [g_shape g_mask g_data fst snd].
  split; [reflexivity |].
  rewrite !length_map, !outer_length, !ones_length, !arange_length.
  split; [reflexivity |]. split; [reflexivity |].
  intros m Hm. apply mask_or_nomask_length in Hm. rewrite Hm.
  rewrite length_map, length_combine, !length_map, !outer_length,
    !ones_length, !arange_length. lia.
Qed.

Lemma mollweide_xy2vec_arrays (xs ys : list fval) :
  length ys = length xs ->
  exists m0 m1 m2 : list fval,
    Mollweide.xy2vec rotator_I flip (XY_both (Ar xs) (Ar ys)) false
      = Ok (Ar m0, Ar m1, Ar m2) /\
    length m1 = length m0 /\ length m2 = length m0 /\ length m0 = length xs.
Proof.
  intros Hlen. unfold Mollweide.xy2vec. cbn [xy_unpack].
  rewrite <- Hlen, Nat.eqb_refl. cbn [negb]. unfold where_false.
  set (mask := map _ (combine xs ys)).
  assert (Lm : length mask = length xs).
  { unfold mask. rewrite length_map, length_combine. lia. }
  rewrite nans_repeat.
  rewrite (gather_where0 mask ys) by lia. unfold bind at 1.
  rewrite (gather_where0 mask xs) by lia. unfold bind at 1.
  rewrite (scatter_where0 mask) by (rewrite repeat_length; lia).
  rewrite (gather_where0 mask) by (rewrite assign_length, repeat_length; lia).
  unfold bind at 1.
  rewrite !(scatter_where0 mask) by (rewrite repeat_length; lia).
  match goal with
  | |- context [rotator_I (Ar ?a, Ar ?b, Ar ?c)] =>
      destruct (HrotI a b c) as (m0 & m1 & m2 & E & L0 & L1 & L2)
  end.
  - rewrite !assign_length. reflexivity.
  - rewrite !assign_length. reflexivity.
  - exists m0, m1, m2. split; [exact E |].
    rewrite assign_length, repeat_length in L0, L1, L2.
    repeat split; lia.
Qed.

End MollweideGrid.

Lemma identity_shape_preserving :
  SphericalProj.shape_preserving (fun v => Ok v).
Proof.
  intros l0 l1 l2 H1 H2. exists l0, l1, l2. repeat split; assumption.
Qed.

(** ** The model on concrete inputs *)

(** The mask of the 4 x 8 Mollweide grid: the border lies outside the
    ellipse, the inner 2 x 6 pixels inside. *)
Example mollweide_grid_8_mask :
  exists x y : grid,
    Mollweide.ij2xy (Some 8%Z) IJ_none = Ok (P_grid x y) /\
    g_shape x = (4, 8)%nat /\
    g_mask x = Some
      [true; true; true; true; true; true; true; true;
       true; false; false; false; false; false; false; true;
       true; false; false; false; false; false; false; true;
       true; true; true; true; true; true; true; true].
Proof.
  eexists. eexists. split; [reflexivity |]. split; [reflexivity |].
  cbn [g_mask].
  unfold Mollweide.xc, Mollweide.yc, Mollweide.ysize. change (8 / 2)%Z with 4%Z.
  change (Z.to_nat 8) with 8%nat. change (Z.to_nat 4) with 4%nat.
  unfold Mollweide.outside, outer, arange, ones.
  cbn [seq map flat_map repeat app combine fst snd].
  replace (INR 0) with 0 by (simpl; lra).
  replace (INR 1) with 1 by (simpl; lra).
  replace (INR 2) with 2 by (simpl; lra).
  replace (INR 3) with 3 by (simpl; lra).
  replace (INR 4) with 4 by (simpl; lra).
  replace (INR 5) with 5 by (simpl; lra).
  replace (INR 6) with 6 by (simpl; lra).
  replace (INR 7) with 7 by (simpl; lra).
  repeat fstep. reflexivity.
Qed.

Lemma around_at (r : R) (f : Z) :
  IZR f <= r < IZR f + 1 ->
  around r =
    if Rltb (r - IZR f) (1 / 2) then f
    else if Rltb (1 / 2) (r - IZR f) then (f + 1)%Z
    else if Z.even f then f else (f + 1)%Z.
Proof.
  intros H. unfold around.
  replace (Int_part r) with f by (apply Int_part_spec; lra). reflexivity.
Qed.

(** [numpy.around] rounds halves to the even neighbour. *)
Example around_half_even :
  around 2.5 = 2%Z /\ around 3.5 = 4%Z /\ around (-0.5) = 0%Z /\
  around 2.4 = 2%Z /\ around 2.6 = 3%Z.
Proof.
  repeat split.
  - rewrite (around_at 2.5 2) by lra. rdec lra. reflexivity.
  - rewrite (around_at 3.5 3) by lra. rdec lra. reflexivity.
  - rewrite (around_at (-0.5) (-1)) by lra. rdec lra. reflexivity.
  - rewrite (around_at 2.4 2) by lra. rdec lra. reflexivity.
  - rewrite (around_at 2.6 2) by lra. rdec lra. reflexivity.
Qed.

(** [searchsorted] gives the leftmost insertion index. *)
Example searchsorted_examples :
  Interp.searchsorted [0; 1; 3] 2 = 2%nat /\
  Interp.searchsorted [0; 1; 3] 1 = 1%nat /\
  Interp.searchsorted [0; 1; 3] 5 = 3%nat /\
  Interp.searchsorted [0; 1; 3] (-1) = 0%nat.
Proof.
  unfold Interp.searchsorted.
  repeat split; cbn -[Rltb]; rdec lra; cbn -[Rltb]; rdec lra; reflexivity.
Qed.

(** The flip convention: the vector (1, 0.1, 0) goes to plane-x [-0.1]
    under 'astro' and to [+0.1] under 'geo'. *)
Example gnomonic_flip_convention :
  SphericalProj.set_flip None = Ok (-1)%Z /\
  SphericalProj.set_flip (Some SphericalProj.Geo) = Ok 1%Z /\
  Gnomonic.vec2xy (fun _ => Raise TypeError) (-1)
    (V_split (Sc (Fin 1)) (Sc (Fin 0.1)) (Sc (Fin 0))) true
    = Ok (Sc (Fin (- 1 * 0.1 / 1)), Sc (Fin (0 / 1))) /\
  Gnomonic.vec2xy (fun _ => Raise TypeError) 1
    (V_split (Sc (Fin 1)) (Sc (Fin 0.1)) (Sc (Fin 0))) true
    = Ok (Sc (Fin (1 * 0.1 / 1)), Sc (Fin (0 / 1))).
Proof.
  split; [reflexivity |]. split; [reflexivity |].
  unfold Gnomonic.vec2xy, Gnomonic.frame_vector, Gnomonic.project, bind, FZ.
  cbn [negb cmap]. split; repeat fstep; reflexivity.
Qed.

(** * Further properties of the projections *)

(** ** Gnomonic: plane and sphere *)

(** X1.  Starting from the plane: for every finite plane point,
    [vec2xy(xy2vec(x, y, direct=True), direct=True)] gives the point back
    over exact arithmetic, for either flip convention. *)
Theorem gnomonic_plane_roundtrip
    (rotator : vecarg -> result vec3) (rotator_I : vec3 -> result vec3)
    (f : option SphericalProj.flipconv) (flip : Z) (x y : R) :
  SphericalProj.set_flip f = Ok flip ->
  Gnomonic.plane_roundtrip rotator rotator_I flip (Fin x) (Fin y)
  = Ok (Sc (Fin x), Sc (Fin y)).
Proof.
  intros Hf. apply set_flip_values in Hf.
  pose proof (flip_square flip Hf) as Hff.
  set (q := 1 + x * x + y * y).
  assert (Hq : 0 < q) by (unfold q; nra).
  assert (Hs : 0 < sqrt q) by (apply sqrt_lt_R0; exact Hq).
  assert (Hr : 0 < 1 / sqrt q) by (apply Rdiv_lt_0_compat; lra).
  unfold Gnomonic.plane_roundtrip, Gnomonic.xy2vec, Gnomonic.vec2xy,
    Gnomonic.frame_vector, Gnomonic.project, FZ.
  simpl. fold q. rewrite Rltb_false by lra. rewrite Reqb_false by lra. simpl.
  rewrite Rleb_false by lra. simpl. rewrite !Reqb_false by lra.
  f_equal. f_equal; f_equal; f_equal.
  - transitivity ((IZR flip * IZR flip) * x); [field; lra | rewrite Hff; ring].
  - field. lra.
Qed.

Lemma gnomonic_plane_roundtrip_witness :
  Gnomonic.plane_roundtrip (fun _ => Raise TypeError) (fun v => Ok v) 1
    (Fin 3) (Fin (-2))
  = Ok (Sc (Fin 3), Sc (Fin (-2))).
Proof.
  apply (gnomonic_plane_roundtrip _ _ (Some SphericalProj.Geo)). reflexivity.
Defined.

(** X2.  Over exact arithmetic, in direct mode [xy2vec] sends a plane
    point whose coordinates are at most [1e150] in magnitude (their squares
    stay within the range of a float64) to a unit vector whose first
    component is positive (at most 1): a point of the hemisphere facing the
    tangent point. *)
Theorem gnomonic_xy2vec_unit
    (rotator_I : vec3 -> result vec3)
    (f : option SphericalProj.flipconv) (flip : Z) (arg : xyarg) (x y : R) :
  SphericalProj.set_flip f = Ok flip ->
  xy_unpack arg = (Sc (Fin x), Sc (Fin y)) ->
  Rabs x <= 1e150 -> Rabs y <= 1e150 ->
  exists a b c : R,
    Gnomonic.xy2vec rotator_I flip arg true = Ok (Sc (Fin a), Sc (Fin b), Sc (Fin c)) /\
    a * a + b * b + c * c = 1 /\ 0 < a <= 1 /\
    b = IZR flip * a * x /\ c = a * y.
Proof.
  intros Hf Harg _ _. apply set_flip_values in Hf.
  pose proof (flip_square flip Hf) as Hff.
  set (q := 1 + x * x + y * y).
  assert (Hq : 1 <= q) by (unfold q; nra).
  assert (Hs1 : 1 <= sqrt q).
  { rewrite <- sqrt_1 at 1. apply sqrt_le_1; lra. }
  assert (Hss : sqrt q * sqrt q = q) by (apply sqrt_sqrt; lra).
  exists (1 / sqrt q), (IZR flip * (1 / sqrt q) * x), (1 / sqrt q * y).
  split.
  - unfold Gnomonic.xy2vec, FZ. rewrite Harg. simpl. fold q.
    rewrite Rltb_false by lra. rewrite Reqb_false by lra. reflexivity.
  - split.
    + transitivity ((1 + (IZR flip * IZR flip) * (x * x) + y * y)
                    / (sqrt q * sqrt q)).
      * field. lra.
      * rewrite Hff, Hss. unfold q. field. fold q. lra.
    + split; [| split; reflexivity].
      split.
      * apply Rdiv_lt_0_compat; lra.
      * apply Rmult_le_reg_r with (sqrt q); [lra |].
        replace (1 / sqrt q * sqrt q) with 1 by (field; lra). lra.
Qed.

Lemma gnomonic_xy2vec_unit_witness :
  exists a b c : R,
    Gnomonic.xy2vec (fun v => Ok v) (-1) (XY_both (Sc (Fin 1)) (Sc (Fin 2))) true
      = Ok (Sc (Fin a), Sc (Fin b), Sc (Fin c)) /\
    a * a + b * b + c * c = 1 /\ 0 < a <= 1 /\
    b = IZR (-1) * a * 1 /\ c = a * 2.
Proof.
  apply (gnomonic_xy2vec_unit (fun v => Ok v) None (-1)
           (XY_both (Sc (Fin 1)) (Sc (Fin 2))) 1 2).
  - reflexivity.
  - reflexivity.
  - rewrite Rabs_pos_eq; lra.
  - rewrite Rabs_pos_eq; lra.
Defined.

Lemma masked_x_mirror (a b : fval) :
  Gnomonic.masked_x (-1) a b = fneg (Gnomonic.masked_x 1 a b).
Proof.
  unfold Gnomonic.masked_x, FZ.
  destruct a as [r | | |]; simpl.
  - unfold Rleb. destruct (Rle_dec r 0) as [Hr | Hr]; [reflexivity |].
    destruct b as [y | | |]; simpl; unfold inf_of_sign; rdec lra; simpl;
      rdec lra; try reflexivity.
    f_equal. field. lra.
  - destruct b as [y | | |]; simpl; unfold inf_of_sign; rdec lra; simpl;
      try reflexivity.
    f_equal. ring.
  - reflexivity.
  - destruct b as [y | | |]; simpl; unfold inf_of_sign; rdec lra; reflexivity.
Qed.

Lemma project_scalar (flip : Z) (v0 v1 v2 : fval) :
  Gnomonic.project flip (Sc v0, Sc v1, Sc v2)
  = Ok (Sc (Gnomonic.masked_x flip v0 v1), Sc (Gnomonic.masked_y v0 v2)).
Proof.
  unfold Gnomonic.project, Gnomonic.masked_x, Gnomonic.masked_y.
  destruct (fle v0 (Fin 0)); reflexivity.
Qed.

(** X3.  The two flip conventions mirror each other: for the same vector
    (a scalar triple or parallel arrays) the plane-x of 'astro' is the
    opposite of the plane-x of 'geo', position by position, and the
    plane-y is the same. *)
Theorem gnomonic_flip_mirror
    (rotator : vecarg -> result vec3) (arg : vecarg) (direct : bool) :
  (forall v0 v1 v2 : fval,
      Gnomonic.frame_vector rotator arg direct = Ok (Sc v0, Sc v1, Sc v2) ->
      exists x y : fval,
        Gnomonic.vec2xy rotator 1 arg direct = Ok (Sc x, Sc y) /\
        Gnomonic.vec2xy rotator (-1) arg direct = Ok (Sc (fneg x), Sc y)) /\
  (forall l0 l1 l2 : list fval,
      Gnomonic.frame_vector rotator arg direct = Ok (Ar l0, Ar l1, Ar l2) ->
      length l1 = length l0 -> length l2 = length l0 ->
      exists xs ys : list fval,
        Gnomonic.vec2xy rotator 1 arg direct = Ok (Ar xs, Ar ys) /\
        Gnomonic.vec2xy rotator (-1) arg direct = Ok (Ar (map fneg xs), Ar ys)).
Proof.
  split.
  - intros v0 v1 v2 Hv. unfold Gnomonic.vec2xy. rewrite Hv. unfold bind.
    rewrite !project_scalar. eexists. eexists. split; [reflexivity |].
    rewrite masked_x_mirror. reflexivity.
  - intros l0 l1 l2 Hv H1 H2. unfold Gnomonic.vec2xy. rewrite Hv. unfold bind.
    rewrite !project_arrays by assumption.
    eexists. eexists. split; [reflexivity |].
    rewrite map_map. f_equal. f_equal. f_equal.
    apply map_ext. intros p. apply masked_x_mirror.
Qed.

Lemma gnomonic_flip_mirror_witness :
  exists x y : fval,
    Gnomonic.vec2xy (fun _ => Raise TypeError) 1
      (V_split (Sc (Fin 1)) (Sc (Fin 0.1)) (Sc (Fin 0))) true = Ok (Sc x, Sc y) /\
    Gnomonic.vec2xy (fun _ => Raise TypeError) (-1)
      (V_split (Sc (Fin 1)) (Sc (Fin 0.1)) (Sc (Fin 0))) true
      = Ok (Sc (fneg x), Sc y).
Proof.
  apply (proj1 (gnomonic_flip_mirror (fun _ => Raise TypeError)
                  (V_split (Sc (Fin 1)) (Sc (Fin 0.1)) (Sc (Fin 0))) true)
           (Fin 1) (Fin 0.1) (Fin 0)).
  reflexivity.
Defined.

(** ** Rounding *)

Lemma around_close (r : R) : - (1 / 2) <= IZR (around r) - r <= 1 / 2.
Proof.
  unfold around. destruct (base_Int_part r) as [H1 H2].
  set (f := Int_part r) in *. unfold Rltb.
  destruct (Rlt_dec (r - IZR f) (1 / 2)) as [Ha | Ha]; [lra |].
  destruct (Rlt_dec (1 / 2) (r - IZR f)) as [Hb | Hb].
  - rewrite plus_IZR. lra.
  - destruct (Z.even f); [lra | rewrite plus_IZR; lra].
Qed.

Lemma around_ge (r : R) (lo : Z) : IZR lo <= r -> (lo <= around r)%Z.
Proof.
  intros H. pose proof (around_close r) as Hc.
  assert (Hlt : IZR (lo - 1) < IZR (around r)) by (rewrite minus_IZR; lra).
  apply lt_IZR in Hlt. lia.
Qed.

Lemma around_le (r : R) (hi : Z) : r <= IZR hi -> (around r <= hi)%Z.
Proof.
  intros H. pose proof (around_close r) as Hc.
  assert (Hlt : IZR (around r) < IZR (hi + 1)) by (rewrite plus_IZR; lra).
  apply lt_IZR in Hlt. lia.
Qed.

(** ** Gnomonic: the pixel grid *)

Lemma gnomonic_dx_nonzero (a : Gnomonic.info) :
  Gnomonic.reso a <> 0 -> Gnomonic.dx a <> 0.
Proof.
  intros Hr. unfold Gnomonic.dx. pose proof dtor_pos. intros H0.
  apply Rmult_integral in H0. destruct H0 as [H0 | H0]; lra.
Qed.

Lemma Rabs_le_bounds (a b : R) : Rabs a <= b -> - b <= a <= b.
Proof. unfold Rabs. destruct (Rcase_abs a); lra. Qed.

Lemma gnomonic_default_pixel_number (c x : R) :
  -1000 <= c <= 1000 -> -1 <= x <= 1 ->
  Rabs (c + x / Gnomonic.dx (Gnomonic.mkInfo 200 200 1.5)) <= IZR (2 ^ 62).
Proof.
  intros Hc Hx.
  assert (Hd : 0.0004 < Gnomonic.dx (Gnomonic.mkInfo 200 200 1.5)).
  { unfold Gnomonic.dx, dtor, pi. cbn [Gnomonic.reso].
    pose proof PI2_3_2. lra. }
  set (d := Gnomonic.dx (Gnomonic.mkInfo 200 200 1.5)) in *.
  assert (Hq : x / d * d = x) by (field; lra).
  assert (Hb : -2500 <= x / d <= 2500) by nra.
  change (2 ^ 62)%Z with 4611686018427387904%Z.
  apply Rabs_le. lra.
Qed.

(** X4.  Over exact arithmetic, snapping a plane point to its pixel moves
    it by at most half a pixel in each direction: [ij2xy(xy2ij(x, y))]
    differs from [(x, y)] by at most [|dx| / 2] per coordinate, for a
    resolution that is not zero and a point whose pixel numbers
    [xc + x/dx] and [yc - y/dx] are at most [2**62] in magnitude (they fit
    in the 64-bit integers [xy2ij] casts to). *)
Theorem gnomonic_pixel_centre_close (a : Gnomonic.info) (x y : R) :
  Gnomonic.reso a <> 0 ->
  Rabs (Gnomonic.xc a + x / Gnomonic.dx a) <= IZR (2 ^ 62) ->
  Rabs (Gnomonic.yc a - y / Gnomonic.dx a) <= IZR (2 ^ 62) ->
  exists x' y' : R,
    Gnomonic.pixel_centre (Some a) (Fin x) (Fin y) = Ok (P_scalar (Fin x') (Fin y')) /\
    Rabs (x' - x) <= Rabs (Gnomonic.dx a) / 2 /\
    Rabs (y' - y) <= Rabs (Gnomonic.dx a) / 2.
Proof.
  intros Hr Bj Bi. pose proof (gnomonic_dx_nonzero a Hr) as Hdx.
  set (j := around (Gnomonic.xc a + x / Gnomonic.dx a)).
  set (i := around (Gnomonic.yc a + - (y / Gnomonic.dx a))).
  exists ((IZR j + - Gnomonic.xc a) * Gnomonic.dx a),
         ((Gnomonic.yc a + - IZR i) * Gnomonic.dx a).
  split.
  - unfold Gnomonic.pixel_centre, Gnomonic.xy2ij, Gnomonic.ij2xy, FZ.
    cbn [bind xy_unpack cmap around_long fadd fsub fneg fmul].
    cbn [fdiv]. rewrite !Reqb_false by exact Hdx. cbn [fadd fneg].
    rewrite !around_astype_long_fits.
    + reflexivity.
    + apply Rabs_le_bounds in Bi. unfold Rminus in Bi.
      split; [apply around_ge | apply around_le];
        [rewrite opp_IZR | rewrite minus_IZR]; change (2 ^ 63)%Z with (2 * 2 ^ 62)%Z;
        rewrite mult_IZR; lra.
    + apply Rabs_le_bounds in Bj.
      split; [apply around_ge | apply around_le];
        [rewrite opp_IZR | rewrite minus_IZR]; change (2 ^ 63)%Z with (2 * 2 ^ 62)%Z;
        rewrite mult_IZR; lra.
  - pose proof (around_close (Gnomonic.xc a + x / Gnomonic.dx a)) as Hj.
    pose proof (around_close (Gnomonic.yc a + - (y / Gnomonic.dx a))) as Hi.
    fold j in Hj. fold i in Hi.
    split.
    + replace ((IZR j + - Gnomonic.xc a) * Gnomonic.dx a - x)
        with ((IZR j - (Gnomonic.xc a + x / Gnomonic.dx a)) * Gnomonic.dx a)
        by (field; exact Hdx).
      rewrite Rabs_mult.
      apply Rle_trans with (1 / 2 * Rabs (Gnomonic.dx a)); [| lra].
      apply Rmult_le_compat_r; [apply Rabs_pos |].
      apply Rabs_le. lra.
    + replace ((Gnomonic.yc a + - IZR i) * Gnomonic.dx a - y)
        with ((- (IZR i - (Gnomonic.yc a + - (y / Gnomonic.dx a)))) * Gnomonic.dx a)
        by (field; exact Hdx).
      rewrite Rabs_mult, Rabs_Ropp.
      apply Rle_trans with (1 / 2 * Rabs (Gnomonic.dx a)); [| lra].
      apply Rmult_le_compat_r; [apply Rabs_pos |].
      apply Rabs_le. lra.
Qed.

Lemma gnomonic_pixel_centre_close_witness :
  exists x' y' : R,
    Gnomonic.pixel_centre (Gnomonic.set_proj_plane_info None None None)
      (Fin 0.001) (Fin (-0.002)) = Ok (P_scalar (Fin x') (Fin y')) /\
    Rabs (x' - 0.001)
      <= Rabs (Gnomonic.dx (Gnomonic.mkInfo 200 200 1.5)) / 2 /\
    Rabs (y' - -0.002)
      <= Rabs (Gnomonic.dx (Gnomonic.mkInfo 200 200 1.5)) / 2.
Proof.
  apply (gnomonic_pixel_centre_close (Gnomonic.mkInfo 200 200 1.5)).
  - simpl. lra.
  - apply gnomonic_default_pixel_number; [unfold Gnomonic.xc; simpl; lra | lra].
  - unfold Rminus. rewrite <- Rdiv_opp_l.
    apply gnomonic_default_pixel_number; [unfold Gnomonic.yc; simpl; lra | lra].
Defined.

Lemma outer_nth (u v : list fval) (a b : nat) (d : fval) :
  (a < length u)%nat -> (b < length v)%nat ->
  nth (a * length v + b) (outer u v) d = (nth a u d *^ nth b v d)%fv.
Proof.
  unfold outer. revert a. induction u as [| x u IH]; intros a Ha Hb; simpl in Ha.
  - lia.
  - cbn [flat_map]. destruct a as [| a].
    + rewrite app_nth1 by (rewrite length_map; simpl; lia).
      simpl. apply (nth_map_lt (fun b0 => (x *^ b0)%fv) v d d b Hb).
    + rewrite app_nth2 by (rewrite length_map; simpl; lia).
      rewrite length_map.
      replace (S a * length v + b - length v)%nat with (a * length v + b)%nat
        by (simpl; lia).
      cbn [nth]. apply IH; lia.
Qed.

Lemma ones_nth (n a : nat) (d : fval) : (a < n)%nat -> nth a (ones n) d = Fin 1.
Proof. intros H. unfold ones. apply nth_repeat_lt. exact H. Qed.

Lemma arange_nth (n b : nat) (d : fval) :
  (b < n)%nat -> nth b (arange n) d = Fin (INR b).
Proof.
  intros H. unfold arange.
  rewrite (nth_map_lt _ _ d 0%nat) by (rewrite length_seq; exact H).
  rewrite seq_nth by exact H. reflexivity.
Qed.

Lemma grid_index_bound (r c nr nc : nat) :
  (r < nr)%nat -> (c < nc)%nat -> (r * nc + c < nr * nc)%nat.
Proof. intros Hr Hc. nia. Qed.

(** X5.  The grid returned by [ij2xy()] holds, at row [r] and column [c],
    exactly the plane point that [ij2xy(r, c)] returns; it has shape
    [(xsize, ysize)] and no mask. *)
Theorem gnomonic_grid_matches_scalar (a : Gnomonic.info) (r c : nat) :
  (0 <= Gnomonic.xsize a)%Z -> (0 <= Gnomonic.ysize a)%Z ->
  (r < Z.to_nat (Gnomonic.xsize a))%nat ->
  (c < Z.to_nat (Gnomonic.ysize a))%nat ->
  exists gx gy : grid,
    Gnomonic.ij2xy (Some a) IJ_none = Ok (P_grid gx gy) /\
    g_shape gx = (Z.to_nat (Gnomonic.xsize a), Z.to_nat (Gnomonic.ysize a)) /\
    g_mask gx = None /\
    Gnomonic.ij2xy (Some a) (IJ_both (Z.of_nat r) (Z.of_nat c))
    = Ok (P_scalar (nth (r * Z.to_nat (Gnomonic.ysize a) + c) (g_data gx) NaN)
                   (nth (r * Z.to_nat (Gnomonic.ysize a) + c) (g_data gy) NaN)).
Proof.
  intros Hx Hy Hr Hc. unfold Gnomonic.ij2xy.
  rewrite (zneg_false _ Hx), (zneg_false _ Hy). cbn [orb].
  eexists. eexists. split; [reflexivity |]. cbn [g_shape g_mask g_data].
  split; [reflexivity |]. split; [reflexivity |].
  set (nx := Z.to_nat (Gnomonic.xsize a)) in *.
  set (ny := Z.to_nat (Gnomonic.ysize a)) in *.
  assert (Hp : (r * ny + c < nx * ny)%nat) by (apply grid_index_bound; assumption).
  rewrite !(nth_map_lt _ _ NaN NaN)
    by (rewrite outer_length, ?ones_length, ?arange_length; exact Hp).
  pose proof (outer_nth (ones nx) (arange ny) r c NaN) as E1.
  rewrite arange_length in E1. rewrite E1 by (rewrite ?ones_length, ?arange_length; assumption).
  pose proof (outer_nth (arange nx) (ones ny) r c NaN) as E2.
  rewrite ones_length in E2. rewrite E2 by (rewrite ?ones_length, ?arange_length; assumption).
  rewrite !ones_nth, !arange_nth by assumption.
  unfold FZ. simpl. rewrite <- !INR_IZR_INZ.
  f_equal. f_equal; f_equal; ring.
Qed.

Lemma gnomonic_grid_matches_scalar_witness :
  exists gx gy : grid,
    Gnomonic.ij2xy (Some (Gnomonic.mkInfo 3 2 1.5)) IJ_none = Ok (P_grid gx gy) /\
    g_shape gx = (Z.to_nat 3, Z.to_nat 2) /\
    g_mask gx = None /\
    Gnomonic.ij2xy (Some (Gnomonic.mkInfo 3 2 1.5))
      (IJ_both (Z.of_nat 2) (Z.of_nat 1))
    = Ok (P_scalar (nth (2 * Z.to_nat 2 + 1) (g_data gx) NaN)
                   (nth (2 * Z.to_nat 2 + 1) (g_data gy) NaN)).
Proof.
  apply (gnomonic_grid_matches_scalar (Gnomonic.mkInfo 3 2 1.5) 2 1);
    simpl; lia.
Defined.

(** X6.  [get_extent] of a Gnomonic projection: left and top are the
    plane point of pixel [(0, 0)], right and bottom that of
    [ij2xy(xsize-1, ysize-1)], whose column is [ysize-1] and whose row is
    [xsize-1]; for a square array the extent is symmetric about the
    centre. *)
Theorem gnomonic_get_extent (a : Gnomonic.info) :
  exists l r b t : R,
    Gnomonic.get_extent (Some a) = Ok (Fin l, Fin r, Fin b, Fin t) /\
    l = - Gnomonic.xc a * Gnomonic.dx a /\
    t = Gnomonic.yc a * Gnomonic.dx a /\
    r = (IZR (Gnomonic.ysize a) - 1 - Gnomonic.xc a) * Gnomonic.dx a /\
    b = (Gnomonic.yc a - (IZR (Gnomonic.xsize a) - 1)) * Gnomonic.dx a /\
    (Gnomonic.xsize a = Gnomonic.ysize a -> r = - l /\ b = - t).
Proof.
  eexists. eexists. eexists. eexists. split.
  - unfold Gnomonic.get_extent, Gnomonic.ij2xy, FZ. simpl. reflexivity.
  - rewrite !minus_IZR. split; [ring |]. split; [ring |]. split; [ring |].
    split; [ring |]. intros H. unfold Gnomonic.xc, Gnomonic.yc. rewrite H.
    split; rewrite Ropp_mult_distr_l; f_equal; lra.
Qed.

Lemma gnomonic_get_extent_witness :
  exists l r b t : R,
    Gnomonic.get_extent (Gnomonic.set_proj_plane_info None None None)
      = Ok (Fin l, Fin r, Fin b, Fin t) /\
    r = - l /\ b = - t /\ l = - (0.5 * (200 - 1)) * (1.5 / 60 * dtor).
Proof.
  destruct (gnomonic_get_extent (Gnomonic.mkInfo 200 200 1.5))
    as (l & r & b & t & E & El & Et & Er & Eb & Hsq).
  exists l, r, b, t. split; [exact E |].
  destruct (Hsq eq_refl) as [H1 H2].
  split; [exact H1 |]. split; [exact H2 |]. exact El.
Defined.



(** ** Mollweide: plane and sphere *)

Lemma sin_le_x (x : R) : 0 <= x -> sin x <= x.
Proof.
  intros [H | <-].
  - left. apply sin_lt_x. exact H.
  - rewrite sin_0. lra.
Qed.

(** The height [z] of a valid plane point lies between -1 and 1. *)
Lemma mollweide_z_bound (y : R) :
  -1 <= y <= 1 ->
  -1 <= 2 / pi * (asin y + y * sqrt ((1 + - y) * (1 + y))) <= 1.
Proof.
  intros Hy. unfold pi. pose proof PI_RGT_0 as Hp.
  destruct (asin_bound y) as [Hl Hu].
  set (t := asin y) in *.
  assert (Es : sin t = y) by (apply sin_asin; exact Hy).
  assert (Ec : cos t = sqrt ((1 + - y) * (1 + y))).
  { unfold t. rewrite cos_asin by exact Hy. f_equal. unfold Rsqr. ring. }
  rewrite <- Ec.
  assert (E2 : sin t * cos t = sin (2 * t) / 2) by (rewrite sin_2a; field).
  replace (y * cos t) with (sin (2 * t) / 2) by (rewrite <- E2, Es; reflexivity).
  assert (Hup : sin (2 * t) <= PI - 2 * t).
  { rewrite <- (sin_PI_x (2 * t)). apply sin_le_x. lra. }
  assert (Hlo : - sin (2 * t) <= PI + 2 * t).
  { rewrite <- neg_sin. replace (2 * t + PI) with (PI + 2 * t) by ring.
    apply sin_le_x. lra. }
  split.
  - apply Rmult_le_reg_r with (PI / 2); [lra |].
    replace (2 / PI * (t + sin (2 * t) / 2) * (PI / 2))
      with (t + sin (2 * t) / 2) by (field; lra).
    lra.
  - apply Rmult_le_reg_r with (PI / 2); [lra |].
    replace (2 / PI * (t + sin (2 * t) / 2) * (PI / 2))
      with (t + sin (2 * t) / 2) by (field; lra).
    lra.
Qed.

Lemma ellipse_y_bound (x y : R) : x * x / 4 + y * y <= 1 -> -1 <= y <= 1.
Proof. intros H. split; nra. Qed.

Lemma fmaximum_floor (s : R) :
  exists m : R, fmaximum (Fin s) (Fin 1e-6) = Fin m /\ 0 < m.
Proof.
  unfold fmaximum, fle, Rleb.
  destruct (Rle_dec s 1e-6) as [H | H].
  - exists 1e-6. split; [reflexivity | lra].
  - exists s. split; [reflexivity | lra].
Qed.

(** X8.  Over exact arithmetic, [MollweideProj.xy2vec] at a scalar plane
    point.  Outside the ellipse by a margin, [x**2/4 + y**2 >= 1 + 1e-9],
    the result is three not-a-numbers, whatever the rotation.  Inside it by
    a margin, [x**2/4 + y**2 <= 1 - 1e-9] (the point stays away from the
    boundary and from the poles [y = +-1]), in direct mode, the result is a
    finite unit vector whose third component is
    [2/pi * (asin y + y * sqrt (1 - y**2))]. *)
Theorem mollweide_xy2vec_scalar
    (rotator_I : vec3 -> result vec3) (flip : Z) (arg : xyarg) (x y : R) :
  xy_unpack arg = (Sc (Fin x), Sc (Fin y)) ->
  (1 + 1e-9 <= x * x / 4 + y * y ->
   forall direct : bool,
     Mollweide.xy2vec rotator_I flip arg direct = Ok (Sc NaN, Sc NaN, Sc NaN)) /\
  (x * x / 4 + y * y <= 1 - 1e-9 ->
   exists a b c : R,
     Mollweide.xy2vec rotator_I flip arg true
       = Ok (Sc (Fin a), Sc (Fin b), Sc (Fin c)) /\
     a * a + b * b + c * c = 1 /\
     c = 2 / pi * (asin y + y * sqrt ((1 + - y) * (1 + y)))).
Proof.
  intros Harg. split.
  - intros Hout direct. unfold Mollweide.xy2vec. rewrite Harg.
    unfold Mollweide.outside, fsqr. simpl.
    rewrite Reqb_false by lra. simpl. rewrite Rltb_true by lra.
    reflexivity.
  - intros Hin'. assert (Hin : x * x / 4 + y * y <= 1) by lra.
    pose proof (ellipse_y_bound x y Hin) as Hy.
    pose proof (mollweide_z_bound y Hy) as Hz.
    set (s := sqrt ((1 + - y) * (1 + y))) in *.
    set (z := 2 / pi * (asin y + y * s)) in *.
    destruct (fmaximum_floor s) as (m & Em & Hm).
    set (phi := IZR flip * pi / 2 * x / m).
    set (sz := sqrt ((1 + - z) * (1 + z))).
    assert (Hs : 0 <= (1 + - y) * (1 + y)) by nra.
    assert (Hzz : 0 <= (1 + - z) * (1 + z)) by nra.
    assert (Ez : Mollweide.point_z (Fin y) = Fin z).
    { unfold Mollweide.point_z, fasin. simpl.
      rewrite !Rltb_false by lra. simpl.
      rewrite Reqb_false by (pose proof pi_pos; lra). reflexivity. }
    assert (Ephi : Mollweide.point_phi flip (Fin x) (Fin y) = Fin phi).
    { unfold Mollweide.point_phi, FZ. simpl.
      rewrite Rltb_false by lra. fold s. rewrite Em.
      repeat fstep. reflexivity. }
    assert (Esz : Mollweide.point_sz (Fin z) = Fin sz).
    { unfold Mollweide.point_sz. simpl. rewrite Rltb_false by lra. reflexivity. }
    exists (sz * cos phi), (sz * sin phi), z. split; [| split].
    + unfold Mollweide.xy2vec. rewrite Harg.
      unfold Mollweide.outside, fsqr. simpl fgt.
      rewrite Reqb_false by lra. simpl fgt. rewrite Rltb_false by lra.
      cbn [negb cmap]. rewrite Ez, Ephi, Esz. reflexivity.
    + assert (Esq : sz * sz = (1 + - z) * (1 + z)) by (apply sqrt_sqrt; exact Hzz).
      pose proof (sin2_cos2 phi) as Hsc. unfold Rsqr in Hsc.
      transitivity (sz * sz * (sin phi * sin phi + cos phi * cos phi) + z * z);
        [ring |].
      rewrite Hsc, Esq. ring.
    + reflexivity.
Qed.

Lemma mollweide_xy2vec_scalar_witness :
  Mollweide.xy2vec (fun v => Ok v) (-1) (XY_both (Sc (Fin 3)) (Sc (Fin 0))) false
    = Ok (Sc NaN, Sc NaN, Sc NaN) /\
  exists a b c : R,
    Mollweide.xy2vec (fun v => Ok v) (-1) (XY_both (Sc (Fin 1)) (Sc (Fin 0.5))) true
      = Ok (Sc (Fin a), Sc (Fin b), Sc (Fin c)) /\
    a * a + b * b + c * c = 1 /\
    c = 2 / pi * (asin 0.5 + 0.5 * sqrt ((1 + - (0.5)) * (1 + 0.5))).
Proof.
  split.
  - apply (proj1 (mollweide_xy2vec_scalar (fun v => Ok v) (-1)
                    (XY_both (Sc (Fin 3)) (Sc (Fin 0))) 3 0 eq_refl)).
    lra.
  - apply (proj2 (mollweide_xy2vec_scalar (fun v => Ok v) (-1)
                    (XY_both (Sc (Fin 1)) (Sc (Fin 0.5))) 1 0.5 eq_refl)).
    lra.
Defined.

(** ** Mollweide: the pixel grid *)

Lemma any_false_nth (m : list bool) (p : nat) :
  any m = false -> nth p m false = false.
Proof.
  unfold any. revert p. induction m as [| b m IH]; intros p H.
  - destruct p; reflexivity.
  - simpl in H. apply orb_false_iff in H. destruct H as [Hb Hm].
    destruct p as [| p]; [exact Hb | apply IH; exact Hm].
Qed.

Lemma one_times_index (c : nat) : (Fin 1 *^ Fin (INR c))%fv = FZ (Z.of_nat c).
Proof. unfold FZ. simpl. f_equal. rewrite INR_IZR_INZ. ring. Qed.

Lemma index_times_one (r : nat) : (Fin (INR r) *^ Fin 1)%fv = FZ (Z.of_nat r).
Proof. unfold FZ. simpl. f_equal. rewrite INR_IZR_INZ. ring. Qed.

(** The entries of the Mollweide grid at row [r], column [c]. *)
Lemma mollweide_grid_entries (xsize : Z) (r c : nat) :
  (0 <= xsize)%Z ->
  (r < Z.to_nat (Mollweide.ysize xsize))%nat -> (c < Z.to_nat xsize)%nat ->
  exists gx gy : grid,
    Mollweide.ij2xy (Some xsize) IJ_none = Ok (P_grid gx gy) /\
    g_shape gx = (Z.to_nat (Mollweide.ysize xsize), Z.to_nat xsize) /\
    g_mask gy = g_mask gx /\
    let p := (r * Z.to_nat xsize + c)%nat in
    let x := (Fin 2 *^ (FZ (Z.of_nat c) -^ Fin (Mollweide.xc xsize))
              /^ Fin (Mollweide.xc xsize))%fv in
    let y := ((Fin (Mollweide.yc xsize) -^ FZ (Z.of_nat r))
              /^ Fin (Mollweide.yc xsize))%fv in
    nth p (g_data gx) NaN = x /\ nth p (g_data gy) NaN = y /\
    SphericalProj.masked_at gx p = Mollweide.outside x y.
Proof.
  intros Hx Hr Hc. unfold Mollweide.ij2xy.
  assert (Hy : (0 <= Mollweide.ysize xsize)%Z)
    by (unfold Mollweide.ysize; apply Z.div_pos; lia).
  rewrite (zneg_false _ Hx), (zneg_false _ Hy). cbn [orb].
  set (nx := Z.to_nat xsize) in *.
  set (ny := Z.to_nat (Mollweide.ysize xsize)) in *.
  eexists. eexists. split; [reflexivity |]. cbn [g_shape g_mask g_data].
  split; [reflexivity |]. split; [reflexivity |].
  assert (Hp : (r * nx + c < ny * nx)%nat) by (apply grid_index_bound; assumption).
  set (xs := map _ (outer (ones ny) (arange nx))).
  set (ys := map _ (outer (arange ny) (ones nx))).
  assert (Lx : length xs = (ny * nx)%nat)
    by (unfold xs; rewrite length_map, outer_length, ones_length, arange_length;
        reflexivity).
  assert (Ly : length ys = (ny * nx)%nat)
    by (unfold ys; rewrite length_map, outer_length, ones_length, arange_length;
        reflexivity).
  assert (Ex : nth (r * nx + c) xs NaN
               = (Fin 2 *^ (FZ (Z.of_nat c) -^ Fin (Mollweide.xc xsize))
                  /^ Fin (Mollweide.xc xsize))%fv).
  { unfold xs.
    rewrite (nth_map_lt _ _ NaN NaN)
      by (rewrite outer_length, ones_length, arange_length; exact Hp).
    pose proof (outer_nth (ones ny) (arange nx) r c NaN) as E.
    rewrite arange_length in E.
    rewrite E by (rewrite ?ones_length, ?arange_length; assumption).
    rewrite ones_nth, arange_nth by assumption.
    rewrite one_times_index. reflexivity. }
  assert (Ey : nth (r * nx + c) ys NaN
               = ((Fin (Mollweide.yc xsize) -^ FZ (Z.of_nat r))
                  /^ Fin (Mollweide.yc xsize))%fv).
  { unfold ys.
    rewrite (nth_map_lt _ _ NaN NaN)
      by (rewrite outer_length, ones_length, arange_length; exact Hp).
    pose proof (outer_nth (arange ny) (ones nx) r c NaN) as E.
    rewrite ones_length in E.
    rewrite E by (rewrite ?ones_length, ?arange_length; assumption).
    rewrite ones_nth, arange_nth by assumption.
    rewrite index_times_one. reflexivity. }
  cbv zeta. split; [exact Ex |]. split; [exact Ey |].
  unfold SphericalProj.masked_at. cbn [g_mask].
  set (m := map (fun p : fval * fval => Mollweide.outside (fst p) (snd p))
                (combine xs ys)).
  assert (Em : nth (r * nx + c) m false
               = Mollweide.outside (nth (r * nx + c) xs NaN) (nth (r * nx + c) ys NaN)).
  { unfold m. rewrite (nth_map_combine _ xs ys false NaN NaN) by lia.
    reflexivity. }
  rewrite <- Ex, <- Ey, <- Em.
  unfold mask_or_nomask. destruct (any m) eqn:Ea.
  - reflexivity.
  - symmetry. apply any_false_nth. exact Ea.
Qed.

(** ** Resampling a constant map *)

(** Whatever the projection, the map and the pixel function, an image
    returned by [projmap] has the shape of the grid [ij2xy()] returns. *)
Lemma projmap_shape (Rot : Type)
    (new_rotator_I : Rot -> option SphericalProj.coordarg * option SphericalProj.coordarg
                     -> vec3 -> result vec3)
    (self : SphericalProj.projector) (coordsys : option String.string)
    (map_ : list fval) (vec2pix : comp -> comp -> comp -> SphericalProj.pixels)
    (rot : Rot) (coord : option SphericalProj.coordarg) (img : SphericalProj.image) :
  SphericalProj.projmap Rot new_rotator_I self coordsys map_ vec2pix rot coord = Ok img ->
  exists x y : grid,
    SphericalProj.p_ij2xy self IJ_none = Ok (P_grid x y) /\
    SphericalProj.i_shape img = g_shape x /\
    length (SphericalProj.i_data img) = (fst (g_shape x) * snd (g_shape x))%nat.
Proof.
  unfold SphericalProj.projmap.
  destruct (SphericalProj.p_ij2xy self IJ_none) as [[px py | x y] | e];
    cbn [bind]; try discriminate.
  intros H. exists x, y. split; [reflexivity |].
  destruct (SphericalProj.p_xy2vec self _ false) as [vec | e];
    cbn [bind] in H; [| discriminate].
  destruct (SphericalProj.mkcoord coordsys coord) as [cc | e];
    cbn [bind] in H; [| discriminate].
  destruct (new_rotator_I rot cc vec) as [[[v0 v1] v2] | e];
    cbn [bind] in H; [| discriminate].
  destruct (SphericalProj.map_getitem map_ (vec2pix v0 v1 v2)) as [vals | e];
    cbn [bind] in H; [| discriminate].
  rewrite sentinel_repeat in H.
  assert (L : forall data,
             SphericalProj.img_assign (SphericalProj.selection x)
               (repeat NInf (fst (g_shape x) * snd (g_shape x))) vals = Ok data ->
             length data = (fst (g_shape x) * snd (g_shape x))%nat).
  { intros data. unfold SphericalProj.img_assign. destruct vals as [v | l].
    - intros E. injection E as <-. rewrite assign_length. apply repeat_length.
    - destruct (length l =? _)%nat.
      + intros E. injection E as <-. rewrite assign_length. apply repeat_length.
      + destruct (length l =? 1)%nat; [| discriminate].
        intros E. injection E as <-. rewrite assign_length. apply repeat_length. }
  destruct (SphericalProj.img_assign _ _ vals) as [data | e];
    cbn [bind] in H; [| discriminate].
  injection H as <-. cbn [SphericalProj.i_shape SphericalProj.i_data].
  split; [reflexivity | apply L; reflexivity].
Qed.

(** C2.  For a Gnomonic or Mollweide projection with its array
    information set (sizes not negative), a map whose pixels all equal [c]
    and a [vec2pix] that answers one pixel of the map, [projmap] returns an
    image of the shape of the plane's grid.  The Gnomonic grid
    ([xsize] x [ysize]) has no mask and every position of the image holds
    [c]; the Mollweide grid ([xsize/2] x [xsize]) is masked exactly where
    the pixel's plane point has [x**2/4 + y**2 > 1], and the image holds
    minus infinity at these positions and [c] at all others.  Whatever the
    map and the pixel function, an image [projmap] returns has the shape of
    the grid. *)
Theorem projmap_constant
    (Rot : Type)
    (new_rotator_I : Rot -> option SphericalProj.coordarg * option SphericalProj.coordarg
                     -> vec3 -> result vec3)
    (rotator_I : vec3 -> result vec3) (flip : Z)
    (coordsys : option String.string) (map_ : list fval)
    (vec2pix : comp -> comp -> comp -> SphericalProj.pixels)
    (rot : Rot) (coord : option SphericalProj.coordarg)
    (cc : option SphericalProj.coordarg * option SphericalProj.coordarg)
    (c : fval) (k : Z) :
  SphericalProj.mkcoord coordsys coord = Ok cc ->
  SphericalProj.shape_preserving rotator_I ->
  SphericalProj.shape_preserving (new_rotator_I rot cc) ->
  SphericalProj.fixed_pixel vec2pix k ->
  (- Z.of_nat (length map_) <= k < Z.of_nat (length map_))%Z ->
  Forall (eq c) map_ ->
  (forall a : Gnomonic.info,
      (0 <= Gnomonic.xsize a)%Z -> (0 <= Gnomonic.ysize a)%Z ->
      let nx := Z.to_nat (Gnomonic.xsize a) in
      let ny := Z.to_nat (Gnomonic.ysize a) in
      exists (x y : grid) (img : SphericalProj.image),
        Gnomonic.ij2xy (Some a) IJ_none = Ok (P_grid x y) /\
        g_mask x = None /\
        SphericalProj.projmap Rot new_rotator_I
          (Gnomonic.projector rotator_I flip (Some a))
          coordsys map_ vec2pix rot coord = Ok img /\
        SphericalProj.i_shape img = g_shape x /\
        SphericalProj.i_shape img = (nx, ny) /\
        length (SphericalProj.i_data img) = (nx * ny)%nat /\
        forall p : nat, (p < nx * ny)%nat ->
          nth p (SphericalProj.i_data img) NaN = c) /\
  (forall xsize : Z,
      (0 <= xsize)%Z ->
      let nx := Z.to_nat xsize in
      let ny := Z.to_nat (Mollweide.ysize xsize) in
      exists (x y : grid) (img : SphericalProj.image),
        Mollweide.ij2xy (Some xsize) IJ_none = Ok (P_grid x y) /\
        SphericalProj.projmap Rot new_rotator_I
          (Mollweide.projector rotator_I flip (Some xsize))
          coordsys map_ vec2pix rot coord = Ok img /\
        SphericalProj.i_shape img = g_shape x /\
        SphericalProj.i_shape img = (ny, nx) /\
        length (SphericalProj.i_data img) = (ny * nx)%nat /\
        forall r col : nat, (r < ny)%nat -> (col < nx)%nat ->
          let p := (r * nx + col)%nat in
          let px := (Fin 2 *^ (FZ (Z.of_nat col) -^ Fin (Mollweide.xc xsize))
                     /^ Fin (Mollweide.xc xsize))%fv in
          let py := ((Fin (Mollweide.yc xsize) -^ FZ (Z.of_nat r))
                     /^ Fin (Mollweide.yc xsize))%fv in
          nth p (g_data x) NaN = px /\ nth p (g_data y) NaN = py /\
          SphericalProj.masked_at x p = Mollweide.outside px py /\
          nth p (SphericalProj.i_data img) NaN
          = if Mollweide.outside px py then NInf else c) /\
  (forall (self : SphericalProj.projector) (map' : list fval)
          (vec2pix' : comp -> comp -> comp -> SphericalProj.pixels)
          (img : SphericalProj.image),
      SphericalProj.projmap Rot new_rotator_I self coordsys map' vec2pix' rot coord
        = Ok img ->
      exists x y : grid,
        SphericalProj.p_ij2xy self IJ_none = Ok (P_grid x y) /\
        SphericalProj.i_shape img = g_shape x /\
        length (SphericalProj.i_data img) = (fst (g_shape x) * snd (g_shape x))%nat).
Proof.
  intros Hcoord HrotI Hrot Hpix Hk Hmap.
  split; [| split].
  - intros a Hx Hy nx ny.
    destruct (gnomonic_grid a Hx Hy) as (x & y & E & Es & Em & Lx & Ly).
    assert (Lm : forall m, g_mask x = Some m ->
                           length m = (fst (g_shape x) * snd (g_shape x))%nat).
    { intros m Hm. rewrite Em in Hm. discriminate. }
    pose proof (projmap_generic Rot new_rotator_I coordsys map_ vec2pix rot coord
                  cc c k Hcoord Hrot Hpix Hk Hmap
                  (Gnomonic.projector rotator_I flip (Some a)) x y E Lx Ly Lm
                  (gnomonic_xy2vec_arrays rotator_I HrotI flip)) as P.
    exists x, y. eexists. split; [exact E |]. split; [exact Em |].
    split; [exact P |]. cbn [SphericalProj.i_shape SphericalProj.i_data].
    split; [reflexivity |]. split; [exact Es |].
    rewrite Es. cbn [fst snd]. fold nx ny.
    split.
    { rewrite length_map, length_combine, repeat_length.
      unfold SphericalProj.selection. rewrite Em, Es. cbn [fst snd].
      rewrite repeat_length. fold nx ny. lia. }
    intros p Hp.
    pose proof (projmap_image_nth map_ c x p Lm) as N.
    rewrite Es in N. cbn [fst snd] in N. fold nx ny in N.
    rewrite (N Hp). unfold SphericalProj.masked_at. rewrite Em. reflexivity.
  - intros xsize Hx nx ny.
    destruct (mollweide_grid xsize Hx) as (x & y & E & Es & Lx & Ly & Lm).
    pose proof (projmap_generic Rot new_rotator_I coordsys map_ vec2pix rot coord
                  cc c k Hcoord Hrot Hpix Hk Hmap
                  (Mollweide.projector rotator_I flip (Some xsize)) x y E Lx Ly Lm
                  (mollweide_xy2vec_arrays rotator_I HrotI flip)) as P.
    exists x, y. eexists. split; [exact E |].
    split; [exact P |]. cbn [SphericalProj.i_shape SphericalProj.i_data].
    split; [reflexivity |]. split; [exact Es |].
    assert (Lw : length (SphericalProj.selection x)
                 = (fst (g_shape x) * snd (g_shape x))%nat).
    { unfold SphericalProj.selection. destruct (g_mask x) as [m |] eqn:Em.
      - rewrite length_map. apply Lm. reflexivity.
      - apply repeat_length. }
    split.
    { rewrite length_map, length_combine, repeat_length, Lw.
      rewrite Es. cbn [fst snd]. fold nx ny. lia. }
    intros r col Hr Hc. cbv zeta.
    destruct (mollweide_grid_entries xsize r col Hx Hr Hc)
      as (gx & gy & E' & _ & _ & Ex & Ey & Emask).
    rewrite E in E'. injection E' as <- <-.
    split; [exact Ex |]. split; [exact Ey |]. split; [exact Emask |].
    rewrite <- Emask. apply (projmap_image_nth map_ c x _ Lm).
    rewrite Es. cbn [fst snd].
    apply grid_index_bound; assumption.
  - intros self map' vec2pix' img H. eapply projmap_shape. exact H.
Qed.

Lemma constant_pixel_fixed (k : Z) :
  SphericalProj.fixed_pixel (SphericalProj.constant_pixel k) k.
Proof.
  intros v0 v1 v2. destruct v0 as [v | l].
  - left. reflexivity.
  - right. exists l. split; reflexivity.
Qed.

Lemma mollweide_8_corner_outside :
  Mollweide.outside
    (Fin 2 *^ (FZ (Z.of_nat 0) -^ Fin (Mollweide.xc 8)) /^ Fin (Mollweide.xc 8))%fv
    ((Fin (Mollweide.yc 8) -^ FZ (Z.of_nat 0)) /^ Fin (Mollweide.yc 8))%fv = true.
Proof.
  unfold Mollweide.outside, Mollweide.xc, Mollweide.yc, Mollweide.ysize, FZ, fsqr.
  change (8 / 2)%Z with 4%Z. change (Z.of_nat 0) with 0%Z.
  repeat fstep. reflexivity.
Qed.

Lemma mollweide_8_inner_inside :
  Mollweide.outside
    (Fin 2 *^ (FZ (Z.of_nat 1) -^ Fin (Mollweide.xc 8)) /^ Fin (Mollweide.xc 8))%fv
    ((Fin (Mollweide.yc 8) -^ FZ (Z.of_nat 1)) /^ Fin (Mollweide.yc 8))%fv = false.
Proof.
  unfold Mollweide.outside, Mollweide.xc, Mollweide.yc, Mollweide.ysize, FZ, fsqr.
  change (8 / 2)%Z with 4%Z. change (Z.of_nat 1) with 1%Z.
  repeat fstep. reflexivity.
Qed.

(** The theorem on a 2 x 3 Gnomonic array and on the 4 x 8 Mollweide array:
    the corner [(0, 0)] of the latter lies outside the ellipse, the pixel
    [(1, 1)] inside. *)
Lemma projmap_constant_witness :
  (exists img : SphericalProj.image,
      SphericalProj.projmap unit (fun _ _ v => Ok v)
        (Gnomonic.projector (fun v => Ok v) (-1) (Some (Gnomonic.mkInfo 2 3 1.5)))
        None [Fin 7; Fin 7] (SphericalProj.constant_pixel 1) tt None
        = Ok img /\
      SphericalProj.i_shape img = (2, 3)%nat /\
      length (SphericalProj.i_data img) = 6%nat /\
      forall p : nat, (p < 6)%nat -> nth p (SphericalProj.i_data img) NaN = Fin 7) /\
  (exists img : SphericalProj.image,
      SphericalProj.projmap unit (fun _ _ v => Ok v)
        (Mollweide.projector (fun v => Ok v) (-1) (Some 8%Z))
        None [Fin 7; Fin 7] (SphericalProj.constant_pixel 1) tt None
        = Ok img /\
      SphericalProj.i_shape img = (4, 8)%nat /\
      length (SphericalProj.i_data img) = 32%nat /\
      nth 0 (SphericalProj.i_data img) NaN = NInf /\
      nth 9 (SphericalProj.i_data img) NaN = Fin 7).
Proof.
  assert (Hk : (- Z.of_nat (length [Fin 7; Fin 7]) <= 1
                < Z.of_nat (length [Fin 7; Fin 7]))%Z) by (simpl; lia).
  assert (Hmap : Forall (eq (Fin 7)) [Fin 7; Fin 7]) by (repeat constructor).
  destruct (projmap_constant unit (fun _ _ v => Ok v) (fun v => Ok v) (-1) None
              [Fin 7; Fin 7] (SphericalProj.constant_pixel 1) tt None (None, None)
              (Fin 7) 1 eq_refl identity_shape_preserving identity_shape_preserving
              (constant_pixel_fixed 1) Hk Hmap) as [G [M _]].
  split.
  - destruct (G (Gnomonic.mkInfo 2 3 1.5)) as (x & y & img & _ & _ & P & _ & S & L & N).
    + simpl. lia.
    + simpl. lia.
    + exists img. split; [exact P |]. split; [exact S |]. split; [exact L |]. exact N.
  - destruct (M 8%Z) as (x & y & img & _ & P & _ & S & L & N); [lia |].
    exists img. split; [exact P |]. split; [exact S |]. split; [exact L |].
    split.
    + destruct (N 0%nat 0%nat) as (_ & _ & _ & E).
      * unfold Mollweide.ysize. change (8 / 2)%Z with 4%Z. simpl. lia.
      * simpl. lia.
      * rewrite mollweide_8_corner_outside in E. exact E.
    + destruct (N 1%nat 1%nat) as (_ & _ & _ & E).
      * unfold Mollweide.ysize. change (8 / 2)%Z with 4%Z. simpl. lia.
      * simpl. lia.
      * rewrite mollweide_8_inner_inside in E. exact E.
Defined.

(** X10.  The grid returned by [MollweideProj.ij2xy()] agrees with the
    scalar call: where the grid is masked at row [r], column [c],
    [ij2xy(r, c)] returns two not-a-numbers, and elsewhere it returns
    exactly the grid's entries. *)
Theorem mollweide_grid_matches_scalar (xsize : Z) (r c : nat) :
  (0 <= xsize)%Z ->
  (r < Z.to_nat (Mollweide.ysize xsize))%nat -> (c < Z.to_nat xsize)%nat ->
  exists gx gy : grid,
    Mollweide.ij2xy (Some xsize) IJ_none = Ok (P_grid gx gy) /\
    g_shape gx = (Z.to_nat (Mollweide.ysize xsize), Z.to_nat xsize) /\
    g_mask gy = g_mask gx /\
    let p := (r * Z.to_nat xsize + c)%nat in
    Mollweide.ij2xy (Some xsize) (IJ_both (Z.of_nat r) (Z.of_nat c))
    = Ok (if SphericalProj.masked_at gx p then P_scalar NaN NaN
          else P_scalar (nth p (g_data gx) NaN) (nth p (g_data gy) NaN)).
Proof.
  intros Hx Hr Hc.
  destruct (mollweide_grid_entries xsize r c Hx Hr Hc)
    as (gx & gy & E & Es & Em & Ex & Ey & Emask).
  exists gx, gy. split; [exact E |]. split; [exact Es |]. split; [exact Em |].
  cbv zeta in *. rewrite Ex, Ey, Emask. reflexivity.
Qed.

Lemma mollweide_grid_matches_scalar_witness :
  exists gx gy : grid,
    Mollweide.ij2xy (Some 8%Z) IJ_none = Ok (P_grid gx gy) /\
    g_shape gx = (Z.to_nat (Mollweide.ysize 8), Z.to_nat 8) /\
    g_mask gy = g_mask gx /\
    let p := (1 * Z.to_nat 8 + 2)%nat in
    Mollweide.ij2xy (Some 8%Z) (IJ_both (Z.of_nat 1) (Z.of_nat 2))
    = Ok (if SphericalProj.masked_at gx p then P_scalar NaN NaN
          else P_scalar (nth p (g_data gx) NaN) (nth p (g_data gy) NaN)).
Proof.
  apply (mollweide_grid_matches_scalar 8 1 2).
  - lia.
  - unfold Mollweide.ysize. change (8 / 2)%Z with 4%Z. simpl. lia.
  - simpl. lia.
Defined.

(** X11.  Every pixel of the Mollweide grid (for [xsize >= 4]) has a
    finite plane point inside the rectangle of [get_extent], and the
    extent is tight: the first and last columns lie on its left and right
    sides, the first and last rows on its top and bottom sides. *)
Theorem mollweide_grid_within_extent (xsize : Z) (r c : nat) :
  (4 <= xsize)%Z ->
  (r < Z.to_nat (Mollweide.ysize xsize))%nat -> (c < Z.to_nat xsize)%nat ->
  exists (gx gy : grid) (x y : R),
    Mollweide.ij2xy (Some xsize) IJ_none = Ok (P_grid gx gy) /\
    nth (r * Z.to_nat xsize + c) (g_data gx) NaN = Fin x /\
    nth (r * Z.to_nat xsize + c) (g_data gy) NaN = Fin y /\
    let '(lft, rgt, bot, top) := Mollweide.get_extent in
    lft <= x <= rgt /\ bot <= y <= top /\
    (c = 0%nat -> x = lft) /\ (c = (Z.to_nat xsize - 1)%nat -> x = rgt) /\
    (r = 0%nat -> y = top) /\
    (r = (Z.to_nat (Mollweide.ysize xsize) - 1)%nat -> y = bot).
Proof.
  intros Hx Hr Hc.
  pose proof (m_xc_pos _ Hx) as Hxc. pose proof (m_yc_pos _ Hx) as Hyc.
  destruct (mollweide_grid_entries xsize r c ltac:(lia) Hr Hc)
    as (gx & gy & E & _ & _ & Ex & Ey & _).
  cbv zeta in Ex, Ey.
  exists gx, gy,
    (2 * (IZR (Z.of_nat c) + - Mollweide.xc xsize) / Mollweide.xc xsize),
    ((Mollweide.yc xsize + - IZR (Z.of_nat r)) / Mollweide.yc xsize).
  split; [exact E |].
  split.
  { rewrite Ex. unfold FZ. simpl. rewrite Reqb_false by lra. reflexivity. }
  split.
  { rewrite Ey. unfold FZ. simpl. rewrite Reqb_false by lra. reflexivity. }
  unfold Mollweide.get_extent.
  assert (Hys : (2 <= Mollweide.ysize xsize)%Z)
    by (unfold Mollweide.ysize; apply Z.div_le_lower_bound; lia).
  assert (Hc0 : 0 <= IZR (Z.of_nat c)) by (apply IZR_le; lia).
  assert (Hc1 : IZR (Z.of_nat c) <= IZR xsize - 1).
  { rewrite <- minus_IZR. apply IZR_le. lia. }
  assert (Hr0 : 0 <= IZR (Z.of_nat r)) by (apply IZR_le; lia).
  assert (Hr1 : IZR (Z.of_nat r) <= IZR (Mollweide.ysize xsize) - 1).
  { rewrite <- minus_IZR. apply IZR_le. lia. }
  assert (Exc : IZR xsize - 1 = 2 * Mollweide.xc xsize)
    by (unfold Mollweide.xc; field).
  assert (Eyc : IZR (Mollweide.ysize xsize) - 1 = 2 * Mollweide.yc xsize)
    by (unfold Mollweide.yc; field).
  set (xc := Mollweide.xc xsize) in *. set (yc := Mollweide.yc xsize) in *.
  assert (Bx : -2.0 <= 2 * (IZR (Z.of_nat c) + - xc) / xc <= 2.0).
  { split.
    - apply Rmult_le_reg_r with xc; [lra |].
      replace (2 * (IZR (Z.of_nat c) + - xc) / xc * xc)
        with (2 * (IZR (Z.of_nat c) + - xc)) by (field; lra). lra.
    - apply Rmult_le_reg_r with xc; [lra |].
      replace (2 * (IZR (Z.of_nat c) + - xc) / xc * xc)
        with (2 * (IZR (Z.of_nat c) + - xc)) by (field; lra). lra. }
  assert (By : -1.0 <= (yc + - IZR (Z.of_nat r)) / yc <= 1.0).
  { split.
    - apply Rmult_le_reg_r with yc; [lra |].
      replace ((yc + - IZR (Z.of_nat r)) / yc * yc)
        with (yc + - IZR (Z.of_nat r)) by (field; lra). lra.
    - apply Rmult_le_reg_r with yc; [lra |].
      replace ((yc + - IZR (Z.of_nat r)) / yc * yc)
        with (yc + - IZR (Z.of_nat r)) by (field; lra). lra. }
  split; [exact Bx |]. split; [exact By |].
  split; [| split; [| split]].
  - intros ->. simpl.
    replace (2 * (0 + - xc) / xc) with (-2) by (field; lra). lra.
  - intros ->.
    replace (IZR (Z.of_nat (Z.to_nat xsize - 1))) with (IZR xsize - 1)
      by (rewrite <- minus_IZR; f_equal; lia).
    rewrite Exc.
    replace (2 * (2 * xc + - xc) / xc) with 2 by (field; lra). lra.
  - intros ->. simpl.
    replace ((yc + - 0) / yc) with 1 by (field; lra). lra.
  - intros ->.
    replace (IZR (Z.of_nat (Z.to_nat (Mollweide.ysize xsize) - 1)))
      with (IZR (Mollweide.ysize xsize) - 1)
      by (rewrite <- minus_IZR; f_equal; lia).
    rewrite Eyc.
    replace ((yc + - (2 * yc)) / yc) with (-1) by (field; lra). lra.
Qed.

Lemma mollweide_grid_within_extent_witness :
  exists (gx gy : grid) (x y : R),
    Mollweide.ij2xy (Some 8%Z) IJ_none = Ok (P_grid gx gy) /\
    nth (0 * Z.to_nat 8 + 0) (g_data gx) NaN = Fin x /\
    nth (0 * Z.to_nat 8 + 0) (g_data gy) NaN = Fin y /\
    x = -2.0 /\ y = 1.0.
Proof.
  destruct (mollweide_grid_within_extent 8 0 0)
    as (gx & gy & x & y & E & Ex & Ey & H).
  - lia.
  - unfold Mollweide.ysize. change (8 / 2)%Z with 4%Z. simpl. lia.
  - simpl. lia.
  - exists gx, gy, x, y. unfold Mollweide.get_extent in H.
    destruct H as (_ & _ & Hl & _ & Ht & _).
    split; [exact E |]. split; [exact Ex |]. split; [exact Ey |].
    split; [apply Hl; reflexivity | apply Ht; reflexivity].
Defined.

(** X12.  Over exact arithmetic, [MollweideProj.xy2ij] at a scalar plane
    point, for [2 <= xsize <= 2**63].  A point inside the ellipse by a
    margin, [x**2/4 + y**2 <= 1 - 1e-9], is sent to a pixel of the array:
    [0 <= i < ysize] and [0 <= j < xsize].  A point outside by a margin,
    [x**2/4 + y**2 >= 1 + 1e-9], whose coordinates are at most [1e150] in
    magnitude (their squares stay within the range of a float64) is sent to
    the pair of not-a-numbers. *)
Theorem mollweide_xy2ij_in_bounds (xsize : Z) (arg : xyarg) (x y : R) :
  (2 <= xsize <= 2 ^ 63)%Z ->
  xy_unpack arg = (Sc (Fin x), Sc (Fin y)) ->
  (x * x / 4 + y * y <= 1 - 1e-9 ->
   exists i j : Z,
     Mollweide.xy2ij (Some xsize) arg = Ok (I_int i, I_int j) /\
     (0 <= i < Mollweide.ysize xsize)%Z /\ (0 <= j < xsize)%Z) /\
  (1 + 1e-9 <= x * x / 4 + y * y -> Rabs x <= 1e150 -> Rabs y <= 1e150 ->
   Mollweide.xy2ij (Some xsize) arg = Ok (I_nan, I_nan)).
Proof.
  intros [Hx Hmax] Harg. split.
  - intros Hin.
    assert (Hys : (1 <= Mollweide.ysize xsize)%Z)
      by (unfold Mollweide.ysize; apply Z.div_le_lower_bound; lia).
    pose proof (m_ysize_le xsize ltac:(lia)) as Hyle.
    assert (Hxc : 0 <= Mollweide.xc xsize).
    { unfold Mollweide.xc. apply IZR_le in Hx. lra. }
    assert (Hyc : 0 <= Mollweide.yc xsize).
    { unfold Mollweide.yc. apply IZR_le in Hys. lra. }
    assert (Exc : IZR (xsize - 1) = 2 * Mollweide.xc xsize)
      by (rewrite minus_IZR; unfold Mollweide.xc; field).
    assert (Eyc : IZR (Mollweide.ysize xsize - 1) = 2 * Mollweide.yc xsize)
      by (rewrite minus_IZR; unfold Mollweide.yc; field).
    assert (Bx : -2 <= x <= 2) by (split; nra).
    assert (By : -1 <= y <= 1) by (split; nra).
    set (xc := Mollweide.xc xsize) in *. set (yc := Mollweide.yc xsize) in *.
    assert (Bi : (0 <= around (yc + - (y * yc)) <= Mollweide.ysize xsize - 1)%Z).
    { split; [apply around_ge; simpl; nra | apply around_le; rewrite Eyc; nra]. }
    assert (Bj : (0 <= around (x * xc / 2 + xc) <= xsize - 1)%Z).
    { split; [apply around_ge; simpl; nra | apply around_le; rewrite Exc; nra]. }
    exists (around (yc + - (y * yc))), (around (x * xc / 2 + xc)).
    split.
    + unfold Mollweide.xy2ij. rewrite Harg.
      unfold Mollweide.outside_truth, Mollweide.outside, fsqr.
      fold xc yc.
      cbn [bind cmap around_long fmul fdiv fadd fsub fneg fgt].
      rewrite Reqb_false by lra.
      cbn [bind cmap around_long fmul fdiv fadd fsub fneg fgt].
      rewrite Rltb_false by lra. rewrite Reqb_false by lra.
      cbn [fadd].
      rewrite !around_astype_long_fits by lia. reflexivity.
    + split; lia.
  - intros Hout _ _. unfold Mollweide.xy2ij. rewrite Harg.
    unfold Mollweide.outside_truth, Mollweide.outside, fsqr, bind. simpl.
    rewrite Reqb_false by lra. simpl. rewrite Rltb_true by lra. reflexivity.
Qed.

Lemma mollweide_xy2ij_in_bounds_witness :
  (exists i j : Z,
     Mollweide.xy2ij (Some 800%Z) (XY_both (Sc (Fin 1)) (Sc (Fin 0.5)))
       = Ok (I_int i, I_int j) /\
     (0 <= i < Mollweide.ysize 800)%Z /\ (0 <= j < 800)%Z) /\
  Mollweide.xy2ij (Some 800%Z) (XY_both (Sc (Fin 3)) (Sc (Fin 0)))
    = Ok (I_nan, I_nan).
Proof.
  split.
  - apply (proj1 (mollweide_xy2ij_in_bounds 800
                    (XY_both (Sc (Fin 1)) (Sc (Fin 0.5))) 1 0.5
                    ltac:(lia) eq_refl)).
    lra.
  - apply (proj2 (mollweide_xy2ij_in_bounds 800
                    (XY_both (Sc (Fin 3)) (Sc (Fin 0))) 3 0
                    ltac:(lia) eq_refl)).
    + lra.
    + rewrite Rabs_pos_eq; lra.
    + rewrite Rabs_pos_eq; lra.
Defined.

(** ** Table lookup at and beyond the nodes *)

Lemma searchsorted_node (X : list R) (k : nat) :
  Interp.increasing X -> (k < length X)%nat ->
  Interp.searchsorted X (nth k X 0) = k.
Proof.
  intros Hinc Hk.
  destruct (searchsorted_spec X (nth k X 0) Hinc) as (Hr & Hb & Ha).
  set (r := Interp.searchsorted X (nth k X 0)) in *.
  destruct (Nat.lt_trichotomy r k) as [Hlt | [Heq | Hgt]].
  - pose proof (Ha r ltac:(lia)) as H1.
    pose proof (Hinc r k ltac:(lia)) as H2. lra.
  - exact Heq.
  - pose proof (Hb k Hgt) as H1. lra.
Qed.

Lemma searchsorted_above (X : list R) (x : R) :
  Interp.increasing X ->
  (length X = 0%nat \/ nth (length X - 1) X 0 < x) ->
  Interp.searchsorted X x = length X.
Proof.
  intros Hinc Hx.
  destruct (searchsorted_spec X x Hinc) as (Hr & Hb & Ha).
  set (r := Interp.searchsorted X x) in *.
  destruct Hx as [H0 | Hlast]; [lia |].
  destruct (Nat.eq_dec r (length X)) as [E | NE]; [exact E |].
  pose proof (Ha r ltac:(lia)) as H1.
  pose proof (increasing_le X Hinc r (length X - 1) ltac:(lia)) as H2. lra.
Qed.

Lemma getitem_out {A : Type} (a : list A) :
  Interp.getitem a (Z.of_nat (length a)) = Raise IndexError.
Proof.
  unfold Interp.getitem.
  replace (Z.of_nat (length a) <? 0)%Z with false by (symmetry; apply Z.ltb_ge; lia).
  replace (Z.of_nat (length a) <? Z.of_nat (length a))%Z with false
    by (symmetry; apply Z.ltb_ge; lia).
  rewrite andb_false_r. reflexivity.
Qed.

Lemma getitem_empty {A : Type} (i : Z) :
  Interp.getitem (@nil A) i = Raise IndexError.
Proof.
  unfold Interp.getitem. simpl.
  destruct (i <? 0)%Z eqn:E.
  - replace (0 <=? i + 0)%Z with false; [reflexivity |].
    symmetry. apply Z.leb_gt. apply Z.ltb_lt in E. lia.
  - replace (i <? 0)%Z with false. rewrite andb_false_r. reflexivity.
Qed.

(** X13.  [__lininterp] reproduces the table at its nodes: queried at
    [X[k]] it returns [Y[k]], for a strictly increasing table of at least
    two entries with finite [Y].  At the first node the index found is 0, and
    the bracket [idx-1 = -1] is python's last entry: the result is still
    [Y[0]]. *)
Theorem lininterp_at_node (X : list R) (Y : list fval) (k : nat) :
  Interp.increasing X ->
  length Y = length X ->
  (2 <= length X)%nat ->
  (k < length X)%nat ->
  (forall i : nat, (i < length Y)%nat -> exists y : R, nth i Y NaN = Fin y) ->
  Interp.lininterp X Y (nth k X 0) = Ok (nth k Y NaN).
Proof.
  intros Hinc Hlen H2 Hk Hfin.
  unfold Interp.lininterp. rewrite (searchsorted_node X k Hinc Hk).
  destruct (Hfin k ltac:(lia)) as [yk Eyk].
  destruct k as [| k].
  - change (Z.of_nat 0 - 1)%Z with (-1)%Z.
    rewrite (getitem_last Y NaN) by lia.
    rewrite (getitem_last X 0) by lia.
    rewrite (getitem_nat Y NaN 0) by lia.
    rewrite (getitem_nat X 0 0) by lia.
    unfold bind. rewrite Hlen.
    destruct (Hfin (length X - 1)%nat ltac:(lia)) as [yl Eyl].
    rewrite Eyl, Eyk.
    pose proof (Hinc 0%nat (length X - 1)%nat ltac:(lia)) as Hlt.
    simpl. rewrite Reqb_false by lra. simpl. f_equal. f_equal. field. lra.
  - replace (Z.of_nat (S k) - 1)%Z with (Z.of_nat k) by lia.
    rewrite !(getitem_nat Y NaN) by lia.
    rewrite !(getitem_nat X 0) by lia.
    unfold bind.
    destruct (Hfin k ltac:(lia)) as [yp Eyp].
    rewrite Eyp, Eyk.
    pose proof (Hinc k (S k) ltac:(lia)) as Hlt.
    simpl. rewrite Reqb_false by lra. simpl. f_equal. f_equal. field. lra.
Qed.

Lemma lininterp_at_node_witness :
  Interp.lininterp [0; 1; 3] [Fin 10; Fin 20; Fin 40] (nth 0 [0; 1; 3] 0)
    = Ok (nth 0 [Fin 10; Fin 20; Fin 40] NaN).
Proof.
  apply lininterp_at_node.
  - intros i j [Hij Hj]. simpl in Hj.
    destruct i as [| [| [| i]]]; destruct j as [| [| [| j]]]; simpl; try lia; lra.
  - reflexivity.
  - simpl. lia.
  - simpl. lia.
  - intros i Hi. simpl in Hi.
    destruct i as [| [| [| i]]]; simpl; try lia; eexists; reflexivity.
Defined.

(** X14.  The bounds of [__lininterp]: it raises an index error exactly
    when the table is empty or the query lies above the last entry of
    [X]; for every other query, also one at or below the first entry, it
    returns a value. *)
Theorem lininterp_index_error (X : list R) (Y : list fval) (x : R) :
  Interp.increasing X ->
  length Y = length X ->
  ((length X = 0%nat \/ nth (length X - 1) X 0 < x) ->
   Interp.lininterp X Y x = Raise IndexError) /\
  ((0 < length X)%nat /\ x <= nth (length X - 1) X 0 ->
   exists v : fval, Interp.lininterp X Y x = Ok v).
Proof.
  intros Hinc Hlen. split.
  - intros Hx. unfold Interp.lininterp.
    rewrite (searchsorted_above X x Hinc Hx).
    destruct Y as [| y0 Y'].
    + rewrite getitem_empty. reflexivity.
    + replace (Z.of_nat (length X) - 1)%Z with (Z.of_nat (length X - 1))
        by (simpl in Hlen; lia).
      rewrite (getitem_nat (y0 :: Y') NaN) by (simpl in *; lia).
      unfold bind at 1. rewrite <- Hlen. rewrite getitem_out. reflexivity.
  - intros [Hpos Hx]. apply lininterp_ok; assumption.
Qed.

Lemma lininterp_index_error_witness :
  Interp.lininterp [0; 1; 3] [Fin 10; Fin 20; Fin 40] 5 = Raise IndexError /\
  exists v : fval, Interp.lininterp [0; 1; 3] [Fin 10; Fin 20; Fin 40] (-4) = Ok v.
Proof.
  assert (Hinc : Interp.increasing [0; 1; 3]).
  { intros i j [Hij Hj]. simpl in Hj.
    destruct i as [| [| [| i]]]; destruct j as [| [| [| j]]]; simpl; try lia; lra. }
  split.
  - apply (proj1 (lininterp_index_error [0; 1; 3] [Fin 10; Fin 20; Fin 40] 5
                    Hinc eq_refl)).
    right. simpl. lra.
  - apply (proj2 (lininterp_index_error [0; 1; 3] [Fin 10; Fin 20; Fin 40] (-4)
                    Hinc eq_refl)).
    split; [simpl; lia | simpl; lra].
Defined.

(** X15.  Inside the table [__lininterp] stays between its two
    neighbours: for a query strictly between the first and last entry of a
    strictly increasing [X], with finite neighbouring entries of [Y], the
    value returned lies between [Y[idx-1]] and [Y[idx]]. *)
Theorem lininterp_between (X : list R) (Y : list fval) (x y0 y1 : R) :
  Interp.increasing X ->
  length Y = length X ->
  nth 0 X 0 < x -> x < nth (length X - 1) X 0 ->
  nth (Interp.searchsorted X x - 1) Y NaN = Fin y0 ->
  nth (Interp.searchsorted X x) Y NaN = Fin y1 ->
  exists v : R,
    Interp.lininterp X Y x = Ok (Fin v) /\ Rmin y0 y1 <= v <= Rmax y0 y1.
Proof.
  intros Hinc Hlen H0 Hn E0 E1.
  destruct (lininterp_bracket X Y x Hinc Hlen H0 Hn)
    as (Hidx & [Hlo Hhi] & Hd & _ & Hfin).
  specialize (Hfin y0 y1 E0 E1).
  set (idx := Interp.searchsorted X x) in *.
  set (x0 := nth (idx - 1) X 0) in *. set (x1 := nth idx X 0) in *.
  eexists. split; [exact Hfin |].
  set (t := (x - x0) / (x1 - x0)).
  assert (Ht : 0 <= t <= 1).
  { unfold t. split.
    - apply Rmult_le_reg_r with (x1 - x0); [lra |].
      replace ((x - x0) / (x1 - x0) * (x1 - x0)) with (x - x0) by (field; lra). lra.
    - apply Rmult_le_reg_r with (x1 - x0); [lra |].
      replace ((x - x0) / (x1 - x0) * (x1 - x0)) with (x - x0) by (field; lra). lra. }
  replace (y0 + (y1 - y0) / (x1 - x0) * (x - x0)) with (y0 + (y1 - y0) * t)
    by (unfold t; field; lra).
  unfold Rmin, Rmax. destruct (Rle_dec y0 y1); split; nra.
Qed.

Lemma lininterp_between_witness :
  exists v : R,
    Interp.lininterp [0; 1; 3] [Fin 10; Fin 20; Fin 40] 2 = Ok (Fin v) /\
    Rmin 20 40 <= v <= Rmax 20 40.
Proof.
  assert (Hinc : Interp.increasing [0; 1; 3]).
  { intros i j [Hij Hj]. simpl in Hj.
    destruct i as [| [| [| i]]]; destruct j as [| [| [| j]]]; simpl; try lia; lra. }
  assert (Es : Interp.searchsorted [0; 1; 3] 2 = 2%nat).
  { unfold Interp.searchsorted. cbn -[Rltb]. rdec lra. cbn -[Rltb]. rdec lra.
    reflexivity. }
  apply (lininterp_between [0; 1; 3] [Fin 10; Fin 20; Fin 40] 2 20 40 Hinc eq_refl).
  - simpl. lra.
  - simpl. lra.
  - rewrite Es. reflexivity.
  - rewrite Es. reflexivity.
Defined.

(** ** Newton iteration and the symmetry of the table *)

Lemma newton_step_root (lat a : R) :
  2 * a + sin (2 * a) = pi * sin lat ->
  cos (2 * a) <> -1 ->
  Molldata.newton_step lat (Fin a) = Fin a.
Proof.
  intros Hroot Hdf.
  unfold Molldata.newton_step, Molldata.fmoll1, Molldata.dfmoll1. simpl.
  rewrite Reqb_false by lra. simpl. f_equal.
  replace (2 * a + sin (2 * a) + - (pi * sin lat)) with 0 by lra.
  field. lra.
Qed.

Lemma newton_iter_root (n : nat) (lat a : R) :
  2 * a + sin (2 * a) = pi * sin lat ->
  cos (2 * a) <> -1 ->
  Nat.iter n (Molldata.newton_step lat) (Fin a) = Fin a.
Proof.
  intros Hroot Hdf. induction n as [| n IH]; [reflexivity |].
  rewrite Nat.iter_succ, IH. apply newton_step_root; assumption.
Qed.




Lemma inf_of_sign_opp (r : R) : inf_of_sign (- r) = fneg (inf_of_sign r).
Proof.
  unfold inf_of_sign, Rltb.
  destruct (Rlt_dec 0 (- r)), (Rlt_dec (- r) 0), (Rlt_dec 0 r), (Rlt_dec r 0);
    try reflexivity; lra.
Qed.

(** The Newton step is odd: mirroring the latitude and the iterate mirrors
    the result. *)
Lemma newton_step_odd (lat : R) (a : fval) :
  Molldata.newton_step (- lat) (fneg a) = fneg (Molldata.newton_step lat a).
Proof.
  unfold Molldata.newton_step, Molldata.fmoll1, Molldata.dfmoll1.
  destruct a as [r | | |].
  - cbn [fneg fmul fadd fsub fsin fcos].
    replace (2 * - r) with (- (2 * r)) by ring.
    rewrite !sin_neg, cos_neg.
    set (F := 2 * r + sin (2 * r) + - (pi * sin lat)).
    replace (- (2 * r) + - sin (2 * r) + - (pi * - sin lat)) with (- F)
      by (unfold F; ring).
    set (D := 2 * (1 + cos (2 * r))).
    unfold fdiv. destruct (Reqb D 0).
    + rewrite inf_of_sign_opp. unfold inf_of_sign.
      destruct (Rltb 0 (- F)), (Rltb (- F) 0); reflexivity.
    + simpl. f_equal. unfold Rdiv. ring.
  - simpl. unfold inf_of_sign. rdec lra. reflexivity.
  - simpl. unfold inf_of_sign. rdec lra. reflexivity.
  - reflexivity.
Qed.

Lemma newton_iter_odd (n : nat) (lat : R) (a : fval) :
  Nat.iter n (Molldata.newton_step (- lat)) (fneg a)
  = fneg (Nat.iter n (Molldata.newton_step lat) a).
Proof.
  induction n as [| n IH]; [reflexivity |].
  rewrite !Nat.iter_succ, IH. apply newton_step_odd.
Qed.

Lemma table_Y_nth (k : nat) :
  (1 <= k <= 179)%nat ->
  nth k Molldata.table_Y NaN
  = Nat.iter 10 (Molldata.newton_step (nth k Molldata.table_X 0))
                (Fin (nth k Molldata.table_X 0)).
Proof.
  intros Hk. rewrite table_Y_eq. destruct k as [| k]; [lia |]. cbn [nth].
  rewrite app_nth1 by (rewrite length_map, samples_length; lia).
  rewrite (nth_map_lt _ _ NaN 0) by (rewrite samples_length; lia).
  rewrite samples_nth by lia. rewrite table_X_nth by lia.
  replace ((IZR (Z.of_nat k + 1) - 90) * dtor) with ((INR (S k) - 90) * dtor)
    by (rewrite S_INR, INR_IZR_INZ, plus_IZR; reflexivity).
  reflexivity.
Qed.

Lemma table_X_mirror (k : nat) :
  (k <= 180)%nat ->
  nth (180 - k) Molldata.table_X 0 = - nth k Molldata.table_X 0.
Proof.
  intros Hk. rewrite !table_X_nth by lia.
  rewrite minus_INR by exact Hk.
  replace (INR 180) with 180 by (rewrite INR_IZR_INZ; reflexivity). ring.
Qed.

(** X17.  The Mollweide table is antisymmetric about the equator: entry
    [180-k] of [X] is the opposite of entry [k], and the same holds for
    the solved angles [Y]; every inner entry of [Y] is the tenth Newton
    iterate started at the matching entry of [X]; the middle entries
    (latitude 0) are exactly 0. *)
Theorem molldata_antisymmetric (k : nat) :
  (k <= 180)%nat ->
  nth (180 - k) Molldata.table_X 0 = - nth k Molldata.table_X 0 /\
  nth (180 - k) Molldata.table_Y NaN = fneg (nth k Molldata.table_Y NaN) /\
  ((1 <= k <= 179)%nat ->
   nth k Molldata.table_Y NaN
   = Nat.iter 10 (Molldata.newton_step (nth k Molldata.table_X 0))
                 (Fin (nth k Molldata.table_X 0))) /\
  nth 90 Molldata.table_X 0 = 0 /\
  nth 90 Molldata.table_Y NaN = Fin 0.
Proof.
  intros Hk.
  assert (E90 : nth 90 Molldata.table_X 0 = 0).
  { rewrite table_X_nth by lia.
    replace (INR 90) with 90 by (rewrite INR_IZR_INZ; reflexivity). ring. }
  split; [apply table_X_mirror; exact Hk |].
  split; [| split; [apply table_Y_nth | split; [exact E90 |]]].
  - destruct (Nat.eq_dec k 0) as [-> | Hk0].
    + change (180 - 0)%nat with (181 - 1)%nat.
      rewrite <- table_Y_length at 1.
      rewrite table_Y_eq at 2. cbn [nth fneg].
      rewrite table_Y_length. rewrite table_Y_eq.
      change (181 - 1)%nat with (S 179). cbn [nth].
      rewrite app_nth2 by (rewrite length_map, samples_length; lia).
      rewrite length_map, samples_length. simpl. f_equal. lra.
    + destruct (Nat.eq_dec k 180) as [-> | Hk180].
      * change (180 - 180)%nat with 0%nat.
        rewrite table_Y_eq. cbn [nth].
        rewrite app_nth2 by (rewrite length_map, samples_length; lia).
        rewrite length_map, samples_length. simpl. f_equal. lra.
      * rewrite (table_Y_nth (180 - k)) by lia.
        rewrite (table_Y_nth k) by lia.
        rewrite table_X_mirror by exact Hk.
        change (Fin (- nth k Molldata.table_X 0))
          with (fneg (Fin (nth k Molldata.table_X 0))).
        apply newton_iter_odd.
  - rewrite (table_Y_nth 90) by lia. rewrite E90.
    apply newton_iter_root.
    + rewrite Rmult_0_r, sin_0. lra.
    + rewrite Rmult_0_r, cos_0. lra.
Qed.

Lemma molldata_antisymmetric_witness :
  nth (180 - 30) Molldata.table_Y NaN = fneg (nth 30 Molldata.table_Y NaN).
Proof.
  apply (molldata_antisymmetric 30). lia.
Defined.

(** ** Resampling: errors and the general gather *)

Lemma select_assign (w : list bool) :
  forall a vals : list fval,
    length a = length w ->
    length vals = SphericalProj.count_true w ->
    select w (assign w a vals) = vals.
Proof.
  unfold SphericalProj.count_true.
  induction w as [| b w IH]; intros a vals Ha Hv.
  - destruct vals; [destruct a; reflexivity | discriminate].
  - destruct a as [| x a]; [discriminate |]. simpl in Ha.
    destruct b; simpl in *.
    + destruct vals as [| v vals]; [discriminate |].
      simpl. f_equal. apply IH; simpl in Hv; lia.
    + apply IH; lia.
Qed.

Lemma assign_unselected (w : list bool) :
  forall (a vals : list fval) (p : nat) (d : fval),
    nth p w true = false ->
    nth p (assign w a vals) d = nth p a d.
Proof.
  induction w as [| b w IH]; intros a vals p d Hp.
  - destruct p; discriminate.
  - destruct a as [| x a]; [reflexivity |].
    destruct p as [| p]; simpl in Hp.
    + subst b. reflexivity.
    + destruct b; simpl.
      * destruct vals as [| v vals]; [reflexivity |]. simpl. apply IH. exact Hp.
      * apply IH. exact Hp.
Qed.

Lemma getitems_in_range (map_ : list fval) (ks : list Z) :
  Forall (fun k => (- Z.of_nat (length map_) <= k < Z.of_nat (length map_))%Z) ks ->
  exists vals : list fval,
    SphericalProj.getitems map_ ks = Ok vals /\ length vals = length ks.
Proof.
  induction 1 as [| k ks Hk _ (vals & E & L)].
  - exists []. split; reflexivity.
  - destruct (getitem_in_range map_ k Hk) as [v Ev].
    exists (v :: vals). simpl. rewrite Ev, E. simpl. split; [reflexivity | lia].
Qed.

Section ProjmapGather.

Import SphericalProj.

Variable Rot : Type.
Variable new_rotator_I : Rot -> option coordarg * option coordarg -> vec3 -> result vec3.
Variable coordsys : option String.string.
Variable map_ : list fval.
Variable vec2pix : comp -> comp -> comp -> pixels.
Variable rot : Rot.
Variable coord : option coordarg.
Variable cc : option coordarg * option coordarg.

Hypothesis Hcoord : mkcoord coordsys coord = Ok cc.
Hypothesis Hrot : shape_preserving (new_rotator_I rot cc).

(** Up to the call of [vec2pix], [projmap] cannot fail on a well-formed
    grid: what remains is the lookup in the map and the assignment. *)
Lemma projmap_prefix (self : projector) (x y : grid) :
  p_ij2xy self IJ_none = Ok (P_grid x y) ->
  length (g_data x) = (fst (g_shape x) * snd (g_shape x))%nat ->
  length (g_data y) = (fst (g_shape x) * snd (g_shape x))%nat ->
  (forall m, g_mask x = Some m ->
             length m = (fst (g_shape x) * snd (g_shape x))%nat) ->
  (forall xs ys : list fval,
      length ys = length xs ->
      exists m0 m1 m2 : list fval,
        p_xy2vec self (XY_both (Ar xs) (Ar ys)) false = Ok (Ar m0, Ar m1, Ar m2) /\
        length m1 = length m0 /\ length m2 = length m0 /\
        length m0 = length xs) ->
  length (selection x) = (fst (g_shape x) * snd (g_shape x))%nat /\
  exists m0 m1 m2 r0 r1 r2 : list fval,
    p_xy2vec self (XY_both (Ar (select (selection x) (g_data x)))
                           (Ar (select (selection x) (g_data y)))) false
      = Ok (Ar m0, Ar m1, Ar m2) /\
    new_rotator_I rot cc (Ar m0, Ar m1, Ar m2) = Ok (Ar r0, Ar r1, Ar r2) /\
    length r0 = count_true (selection x) /\
    projmap Rot new_rotator_I self coordsys map_ vec2pix rot coord
    = (vals <- map_getitem map_ (vec2pix (Ar r0) (Ar r1) (Ar r2)) ;;
       data <- img_assign (selection x)
                 (repeat NInf (fst (g_shape x) * snd (g_shape x))) vals ;;
       Ok (mkImage (g_shape x) data)).
Proof.
  intros Hij Hx Hy Hm Hvec.
  set (n := (fst (g_shape x) * snd (g_shape x))%nat) in *.
  set (w := selection x).
  assert (Hw : length w = n).
  { unfold w, selection. fold n. destruct (g_mask x) as [m |] eqn:E.
    - rewrite length_map. apply Hm. reflexivity.
    - apply repeat_length. }
  split; [exact Hw |].
  destruct (Hvec (select w (g_data x)) (select w (g_data y)))
    as (m0 & m1 & m2 & Ev & L1 & L2 & L0).
  { rewrite !select_length by lia. reflexivity. }
  destruct (Hrot m0 m1 m2 L1 L2) as (r0 & r1 & r2 & Er & Lr & _ & _).
  exists m0, m1, m2, r0, r1, r2.
  split; [exact Ev |]. split; [exact Er |]. split.
  { rewrite Lr, L0. apply select_length. lia. }
  unfold projmap. rewrite Hij. unfold bind at 1. fold n. fold w.
  rewrite Ev. unfold bind at 1. rewrite Hcoord. unfold bind at 1.
  rewrite Er. unfold bind at 1. rewrite sentinel_repeat. reflexivity.
Qed.

End ProjmapGather.

(** The grid and [xy2vec] of a Gnomonic or Mollweide projection with
    array information of non-negative sizes are well formed. *)
Lemma concrete_projector_grid
    (rotator_I : vec3 -> result vec3) (flip : Z) (self : SphericalProj.projector) :
  SphericalProj.shape_preserving rotator_I ->
  (exists a : Gnomonic.info,
      self = Gnomonic.projector rotator_I flip (Some a) /\
      (0 <= Gnomonic.xsize a)%Z /\ (0 <= Gnomonic.ysize a)%Z) \/
  (exists xsize : Z,
      self = Mollweide.projector rotator_I flip (Some xsize) /\ (0 <= xsize)%Z) ->
  exists x y : grid,
    SphericalProj.p_ij2xy self IJ_none = Ok (P_grid x y) /\
    length (g_data x) = (fst (g_shape x) * snd (g_shape x))%nat /\
    length (g_data y) = (fst (g_shape x) * snd (g_shape x))%nat /\
    (forall m, g_mask x = Some m ->
               length m = (fst (g_shape x) * snd (g_shape x))%nat) /\
    (forall xs ys : list fval,
        length ys = length xs ->
        exists m0 m1 m2 : list fval,
          SphericalProj.p_xy2vec self (XY_both (Ar xs) (Ar ys)) false
            = Ok (Ar m0, Ar m1, Ar m2) /\
          length m1 = length m0 /\ length m2 = length m0 /\
          length m0 = length xs).
Proof.
  intros HrotI [(a & -> & Hx & Hy) | (xsize & -> & Hx)].
  - destruct (gnomonic_grid a Hx Hy) as (x & y & E & _ & Em & Lx & Ly).
    exists x, y. split; [exact E |]. split; [exact Lx |]. split; [exact Ly |].
    split; [intros m Hm; rewrite Em in Hm; discriminate |].
    intros xs ys Hlen. apply gnomonic_xy2vec_arrays; assumption.
  - destruct (mollweide_grid xsize Hx) as (x & y & E & _ & Lx & Ly & Lm).
    exists x, y. split; [exact E |]. split; [exact Lx |]. split; [exact Ly |].
    split; [exact Lm |].
    intros xs ys Hlen. apply mollweide_xy2vec_arrays; assumption.
Qed.

Lemma getitem_out_of_range {A : Type} (a : list A) (i : Z) :
  (i < - Z.of_nat (length a) \/ Z.of_nat (length a) <= i)%Z ->
  Interp.getitem a i = Raise IndexError.
Proof.
  intros H. unfold Interp.getitem.
  set (k := if (i <? 0)%Z then (i + Z.of_nat (length a))%Z else i).
  assert (Hk : (k < 0 \/ Z.of_nat (length a) <= k)%Z).
  { unfold k. destruct (i <? 0)%Z eqn:E;
      [apply Z.ltb_lt in E | apply Z.ltb_ge in E]; lia. }
  destruct Hk as [Hk | Hk].
  - replace (0 <=? k)%Z with false by (symmetry; apply Z.leb_gt; lia).
    reflexivity.
  - replace (k <? Z.of_nat (length a))%Z with false
      by (symmetry; apply Z.ltb_ge; lia).
    rewrite andb_false_r. reflexivity.
Qed.

(** X18.  Errors of [projmap].  Without array information the call fails
    with the type error of [ij2xy], before the map or [vec2pix] is used.
    With array information, a [vec2pix] that answers a pixel number outside
    the map makes the lookup [map[pix]] raise an index error: no image is
    returned. *)
Theorem projmap_errors
    (Rot : Type)
    (new_rotator_I : Rot -> option SphericalProj.coordarg * option SphericalProj.coordarg
                     -> vec3 -> result vec3)
    (rotator_I : vec3 -> result vec3) (flip : Z)
    (coordsys : option String.string) (map_ : list fval)
    (vec2pix : comp -> comp -> comp -> SphericalProj.pixels)
    (rot : Rot) (coord : option SphericalProj.coordarg) :
  SphericalProj.projmap Rot new_rotator_I (Mollweide.projector rotator_I flip None)
    coordsys map_ vec2pix rot coord = Raise TypeError /\
  SphericalProj.projmap Rot new_rotator_I (Gnomonic.projector rotator_I flip None)
    coordsys map_ vec2pix rot coord = Raise TypeError /\
  (forall (cc : option SphericalProj.coordarg * option SphericalProj.coordarg)
          (k : Z) (self : SphericalProj.projector),
      SphericalProj.mkcoord coordsys coord = Ok cc ->
      SphericalProj.shape_preserving rotator_I ->
      SphericalProj.shape_preserving (new_rotator_I rot cc) ->
      (forall v0 v1 v2, vec2pix v0 v1 v2 = SphericalProj.Pix_one k) ->
      (k < - Z.of_nat (length map_) \/ Z.of_nat (length map_) <= k)%Z ->
      (exists a : Gnomonic.info,
          self = Gnomonic.projector rotator_I flip (Some a) /\
          (0 <= Gnomonic.xsize a)%Z /\ (0 <= Gnomonic.ysize a)%Z) \/
      (exists xsize : Z,
          self = Mollweide.projector rotator_I flip (Some xsize) /\ (0 <= xsize)%Z) ->
      SphericalProj.projmap Rot new_rotator_I self coordsys map_ vec2pix rot coord
      = Raise IndexError).
Proof.
  split; [reflexivity |]. split; [reflexivity |].
  intros cc k self Hcoord HrotI Hrot Hpix Hk Hself.
  destruct (concrete_projector_grid rotator_I flip self HrotI Hself)
    as (x & y & E & Lx & Ly & Lm & Hvec).
  destruct (projmap_prefix Rot new_rotator_I coordsys map_ vec2pix rot coord cc
              Hcoord Hrot self x y E Lx Ly Lm Hvec)
    as (_ & m0 & m1 & m2 & r0 & r1 & r2 & _ & _ & _ & Ep).
  rewrite Ep, Hpix. simpl.
  rewrite (getitem_out_of_range map_ k Hk). reflexivity.
Qed.

Lemma projmap_errors_witness :
  SphericalProj.projmap unit (fun _ _ v => Ok v)
    (Gnomonic.projector (fun v => Ok v) (-1)
       (Gnomonic.set_proj_plane_info (Some 4%Z) None None))
    None [Fin 7] (fun _ _ _ => SphericalProj.Pix_one 1) tt None
  = Raise IndexError.
Proof.
  apply (proj2 (proj2 (projmap_errors unit (fun _ _ v => Ok v) (fun v => Ok v) (-1)
                         None [Fin 7] (fun _ _ _ => SphericalProj.Pix_one 1) tt None))
           (None, None) 1%Z).
  - reflexivity.
  - exact identity_shape_preserving.
  - exact identity_shape_preserving.
  - reflexivity.
  - right. simpl. lia.
  - left. exists (Gnomonic.mkInfo 4 4 1.5). split; [reflexivity |]. simpl. lia.
Defined.

(** X19.  [projmap] gathers.  The plane points at the unmasked positions
    of the grid are sent through [xy2vec] and the inverse rotation, and
    [vec2pix] is applied to the vectors that result.  When it answers one
    pixel number per vector, all inside the map, the image has the shape of
    the grid and one value per position; its unmasked positions, read in
    row-major order, hold [map[pix]] in the order of the pixel numbers, and
    every masked position holds minus infinity. *)
Theorem projmap_gathers
    (Rot : Type)
    (new_rotator_I : Rot -> option SphericalProj.coordarg * option SphericalProj.coordarg
                     -> vec3 -> result vec3)
    (rotator_I : vec3 -> result vec3) (flip : Z)
    (coordsys : option String.string) (map_ : list fval)
    (vec2pix : comp -> comp -> comp -> SphericalProj.pixels)
    (rot : Rot) (coord : option SphericalProj.coordarg)
    (cc : option SphericalProj.coordarg * option SphericalProj.coordarg)
    (self : SphericalProj.projector) :
  SphericalProj.mkcoord coordsys coord = Ok cc ->
  SphericalProj.shape_preserving rotator_I ->
  SphericalProj.shape_preserving (new_rotator_I rot cc) ->
  (forall (l0 : list fval) (v1 v2 : comp),
      exists ks : list Z,
        vec2pix (Ar l0) v1 v2 = SphericalProj.Pix_arr ks /\
        length ks = length l0 /\
        Forall (fun k => (- Z.of_nat (length map_) <= k < Z.of_nat (length map_))%Z)
               ks) ->
  (exists a : Gnomonic.info,
      self = Gnomonic.projector rotator_I flip (Some a) /\
      (0 <= Gnomonic.xsize a)%Z /\ (0 <= Gnomonic.ysize a)%Z) \/
  (exists xsize : Z,
      self = Mollweide.projector rotator_I flip (Some xsize) /\ (0 <= xsize)%Z) ->
  exists (x y : grid) (m0 m1 m2 r0 r1 r2 : list fval) (ks : list Z)
         (vals : list fval) (img : SphericalProj.image),
    SphericalProj.p_ij2xy self IJ_none = Ok (P_grid x y) /\
    SphericalProj.p_xy2vec self
      (XY_both (Ar (select (SphericalProj.selection x) (g_data x)))
               (Ar (select (SphericalProj.selection x) (g_data y)))) false
      = Ok (Ar m0, Ar m1, Ar m2) /\
    new_rotator_I rot cc (Ar m0, Ar m1, Ar m2) = Ok (Ar r0, Ar r1, Ar r2) /\
    vec2pix (Ar r0) (Ar r1) (Ar r2) = SphericalProj.Pix_arr ks /\
    SphericalProj.getitems map_ ks = Ok vals /\
    SphericalProj.projmap Rot new_rotator_I self coordsys map_ vec2pix rot coord
      = Ok img /\
    SphericalProj.i_shape img = g_shape x /\
    length (SphericalProj.i_data img) = (fst (g_shape x) * snd (g_shape x))%nat /\
    select (SphericalProj.selection x) (SphericalProj.i_data img) = vals /\
    forall p : nat,
      (p < fst (g_shape x) * snd (g_shape x))%nat ->
      nth p (SphericalProj.selection x) true = false ->
      nth p (SphericalProj.i_data img) NaN = NInf.
Proof.
  intros Hcoord HrotI Hrot Hpix Hself.
  destruct (concrete_projector_grid rotator_I flip self HrotI Hself)
    as (x & y & E & Lx & Ly & Lm & Hvec).
  destruct (projmap_prefix Rot new_rotator_I coordsys map_ vec2pix rot coord cc
              Hcoord Hrot self x y E Lx Ly Lm Hvec)
    as (Hw & m0 & m1 & m2 & r0 & r1 & r2 & Ev & Er & Lr & Ep).
  destruct (Hpix r0 (Ar r1) (Ar r2)) as (ks & Ek & Lk & Hk).
  destruct (getitems_in_range map_ ks Hk) as (vals & Eg & Lv).
  exists x, y, m0, m1, m2, r0, r1, r2, ks, vals.
  set (n := (fst (g_shape x) * snd (g_shape x))%nat) in *.
  exists (SphericalProj.mkImage (g_shape x)
            (assign (SphericalProj.selection x) (repeat NInf n) vals)).
  split; [exact E |]. split; [exact Ev |]. split; [exact Er |].
  split; [exact Ek |]. split; [exact Eg |].
  split.
  { rewrite Ep, Ek. simpl. rewrite Eg. simpl.
    replace (length vals =? SphericalProj.count_true (SphericalProj.selection x))%nat
      with true by (symmetry; apply Nat.eqb_eq; lia).
    reflexivity. }
  cbn [SphericalProj.i_shape SphericalProj.i_data].
  split; [reflexivity |]. split; [| split].
  - rewrite assign_length. apply repeat_length.
  - apply select_assign; [rewrite repeat_length; lia | lia].
  - intros p Hn Hp. rewrite assign_unselected by exact Hp.
    apply nth_repeat_lt. exact Hn.
Qed.

Lemma projmap_gathers_witness :
  exists (x y : grid) (m0 m1 m2 r0 r1 r2 : list fval) (ks : list Z)
         (vals : list fval) (img : SphericalProj.image),
    SphericalProj.p_ij2xy
      (Mollweide.projector (fun v => Ok v) (-1) (Some 8%Z)) IJ_none
      = Ok (P_grid x y) /\
    SphericalProj.p_xy2vec (Mollweide.projector (fun v => Ok v) (-1) (Some 8%Z))
      (XY_both (Ar (select (SphericalProj.selection x) (g_data x)))
               (Ar (select (SphericalProj.selection x) (g_data y)))) false
      = Ok (Ar m0, Ar m1, Ar m2) /\
    Ok (Ar m0, Ar m1, Ar m2) = Ok (Ar r0, Ar r1, Ar r2) /\
    SphericalProj.constant_pixel 1 (Ar r0) (Ar r1) (Ar r2)
      = SphericalProj.Pix_arr ks /\
    SphericalProj.getitems [Fin 5; Fin 7] ks = Ok vals /\
    SphericalProj.projmap unit (fun _ _ v => Ok v)
      (Mollweide.projector (fun v => Ok v) (-1) (Some 8%Z))
      None [Fin 5; Fin 7] (SphericalProj.constant_pixel 1) tt None
      = Ok img /\
    SphericalProj.i_shape img = g_shape x /\
    length (SphericalProj.i_data img) = (fst (g_shape x) * snd (g_shape x))%nat /\
    select (SphericalProj.selection x) (SphericalProj.i_data img) = vals /\
    forall p : nat,
      (p < fst (g_shape x) * snd (g_shape x))%nat ->
      nth p (SphericalProj.selection x) true = false ->
      nth p (SphericalProj.i_data img) NaN = NInf.
Proof.
  apply (projmap_gathers unit (fun _ _ v => Ok v) (fun v => Ok v) (-1) None
           [Fin 5; Fin 7] (SphericalProj.constant_pixel 1) tt None (None, None)).
  - reflexivity.
  - exact identity_shape_preserving.
  - exact identity_shape_preserving.
  - intros l0 v1 v2. exists (repeat 1%Z (length l0)).
    split; [reflexivity |]. split; [apply repeat_length |].
    apply Forall_forall. intros k Hk. apply repeat_spec in Hk. subst k.
    simpl. lia.
  - right. exists 8%Z. split; [reflexivity | lia].
Defined.

(** ** Array information and the centre of the projection *)

Lemma all_none_fold {V : Type} (kwds : list (String.string * option V)) (acc : bool) :
  fold_left (fun acc kv => match snd kv with Some _ => false | None => acc end)
            kwds acc
  = acc && forallb (fun kv => match snd kv with Some _ => false | None => true end)
                   kwds.
Proof.
  revert acc. induction kwds as [| [k [v |]] kwds IH]; intros acc; simpl.
  - rewrite andb_true_r. reflexivity.
  - rewrite IH. simpl. rewrite andb_false_r. reflexivity.
  - rewrite IH. reflexivity.
Qed.

(** X20.  [set_proj_plane_info] of the base class keeps the keyword
    arguments exactly when one of the values is not [None]: the array
    information is [None] if and only if every value is [None] (also when
    there is no keyword at all), and otherwise it is the keywords
    unchanged. *)
Theorem set_proj_plane_info_none {V : Type} (kwds : list (String.string * option V)) :
  (SphericalProj.set_proj_plane_info kwds = None <->
   Forall (fun kv => snd kv = None) kwds) /\
  (forall info, SphericalProj.set_proj_plane_info kwds = Some info -> info = kwds).
Proof.
  unfold SphericalProj.set_proj_plane_info. rewrite all_none_fold. simpl.
  split.
  - split.
    + intros H. apply Forall_forall. intros [k v] Hin.
      destruct (forallb _ kwds) eqn:E; [| discriminate H].
      rewrite forallb_forall in E. specialize (E _ Hin). simpl in *.
      destruct v; [discriminate E | reflexivity].
    + intros H. rewrite Forall_forall in H.
      replace (forallb _ kwds) with true; [reflexivity |].
      symmetry. apply forallb_forall. intros [k v] Hin.
      specialize (H _ Hin). simpl in *. rewrite H. reflexivity.
  - intros info H. destruct (forallb _ kwds); [discriminate H |].
    injection H as <-. reflexivity.
Qed.

(** X22.  [get_center]: in radians the centre is the colatitude
    [pi/2 - lat] and the longitude [lon] of the first rotation, unchanged
    by the passage through degrees; with [lonlat] it is the same two
    angles in degrees. *)
Theorem get_center_angles (lon lat : R) :
  SphericalProj.get_center (lon, lat) false = (pi / 2 - lat, lon) /\
  SphericalProj.get_center (lon, lat) true = (lon * 180 / pi, lat * 180 / pi) /\
  fst (SphericalProj.get_center (lon, lat) false)
  = pi / 2 - snd (SphericalProj.get_center (lon, lat) true) * dtor.
Proof.
  pose proof pi_pos as Hp. unfold SphericalProj.get_center, dtor. simpl.
  split; [| split; [reflexivity | reflexivity]].
  f_equal; field; lra.
Qed.

(** X23.  Snapping a Mollweide plane point to its pixel, for
    [xsize >= 4] and a point inside the ellipse: [ij2xy(xy2ij(x, y))] is
    either the pair of not-a-numbers (the centre of the pixel falls outside
    the ellipse) or a point inside the ellipse within half a pixel of
    [(x, y)]: [1/xc] in x and [1/(2 yc)] in y. *)
Theorem mollweide_pixel_centre_close (xsize : Z) (x y : R) :
  (4 <= xsize)%Z ->
  x * x / 4 + y * y <= 1 ->
  Mollweide.pixel_centre (Some xsize) (Fin x) (Fin y) = Ok (P_scalar NaN NaN) \/
  exists x' y' : R,
    Mollweide.pixel_centre (Some xsize) (Fin x) (Fin y)
      = Ok (P_scalar (Fin x') (Fin y')) /\
    x' * x' / 4 + y' * y' <= 1 /\
    Rabs (x' - x) <= 1 / Mollweide.xc xsize /\
    Rabs (y' - y) <= 1 / (2 * Mollweide.yc xsize).
Proof.
  intros Hx Hin.
  pose proof (m_xc_pos _ Hx) as Hxc. pose proof (m_yc_pos _ Hx) as Hyc.
  set (rj := x * Mollweide.xc xsize / 2 + Mollweide.xc xsize).
  set (ri := Mollweide.yc xsize + - (y * Mollweide.yc xsize)).
  set (j := around_astype_long (Fin rj)).
  set (i := around_astype_long (Fin ri)).
  assert (E : Mollweide.pixel_centre (Some xsize) (Fin x) (Fin y)
              = Mollweide.ij2xy (Some xsize) (IJ_both i j)).
  { unfold Mollweide.pixel_centre, Mollweide.xy2ij, xy_unpack,
      Mollweide.outside_truth, Mollweide.outside, fsqr, bind.
    simpl fgt. rewrite Reqb_false by lra. simpl fgt.
    rewrite Rltb_false by lra. cbn [cmap around_long].
    cbn [fmul fdiv fadd fsub fneg]. rewrite Reqb_false by lra.
    cbn [fadd]. reflexivity. }
  rewrite E, m_ij2xy_scalar by exact Hx.
  assert (Hmin : IZR int64_min < 0).
  { unfold int64_min. change (- 2 ^ 63)%Z with (-9223372036854775808)%Z. lra. }
  assert (Bx : -2 <= x <= 2) by (split; nra).
  assert (By : -1 <= y <= 1) by (split; nra).
  assert (Prj : (0 <= around rj)%Z) by (apply around_ge; unfold rj; simpl; nra).
  assert (Pri : (0 <= around ri)%Z) by (apply around_ge; unfold ri; simpl; nra).
  destruct (around_astype_long_cases rj) as [[_ Ej] | [_ Ej]]; fold j in Ej.
  2:{ left. rewrite Rltb_true; [reflexivity |].
      unfold Mollweide.plane_x. rewrite Ej.
      set (xc := Mollweide.xc xsize) in *.
      set (px := 2 * (IZR int64_min - xc) / xc).
      set (py := Mollweide.plane_y xsize i).
      assert (Epx : px * xc = 2 * (IZR int64_min - xc)) by (unfold px; field; lra).
      assert (Hpx : px < -2) by nra.
      nra. }
  destruct (around_astype_long_cases ri) as [[_ Ei] | [_ Ei]]; fold i in Ei.
  2:{ left. rewrite Rltb_true; [reflexivity |].
      unfold Mollweide.plane_y. rewrite Ei.
      set (yc := Mollweide.yc xsize) in *.
      set (py := (yc - IZR int64_min) / yc).
      set (px := Mollweide.plane_x xsize j).
      assert (Epy : py * yc = yc - IZR int64_min) by (unfold py; field; lra).
      assert (Hpy : 1 < py) by nra.
      nra. }
  unfold Rltb.
  destruct (Rlt_dec 1 (Mollweide.plane_x xsize j * Mollweide.plane_x xsize j / 4
                       + Mollweide.plane_y xsize i * Mollweide.plane_y xsize i))
    as [Hout | Hinside]; [left; reflexivity | right].
  exists (Mollweide.plane_x xsize j), (Mollweide.plane_y xsize i).
  split; [reflexivity |]. split; [lra |].
  pose proof (around_close rj) as Hj.
  pose proof (around_close ri) as Hi.
  rewrite <- Ej in Hj. rewrite <- Ei in Hi. unfold rj in Hj. unfold ri in Hi.
  unfold Mollweide.plane_x, Mollweide.plane_y.
  clearbody i j. clear Ej Ei Prj Pri rj ri E.
  set (xc := Mollweide.xc xsize) in *. set (yc := Mollweide.yc xsize) in *.
  split.
  - replace (2 * (IZR j - xc) / xc - x)
      with ((IZR j - (x * xc / 2 + xc)) * (2 / xc)) by (field; lra).
    rewrite Rabs_mult.
    rewrite (Rabs_pos_eq (2 / xc)) by (apply Rlt_le, Rdiv_lt_0_compat; lra).
    apply Rle_trans with (1 / 2 * (2 / xc)).
    + apply Rmult_le_compat_r;
        [apply Rlt_le, Rdiv_lt_0_compat; lra | apply Rabs_le; lra].
    + right. field. lra.
  - replace ((yc - IZR i) / yc - y)
      with ((- (IZR i - (yc + - (y * yc)))) * (1 / yc)) by (field; lra).
    rewrite Rabs_mult, Rabs_Ropp.
    rewrite (Rabs_pos_eq (1 / yc)) by (apply Rlt_le, Rdiv_lt_0_compat; lra).
    apply Rle_trans with (1 / 2 * (1 / yc)).
    + apply Rmult_le_compat_r;
        [apply Rlt_le, Rdiv_lt_0_compat; lra | apply Rabs_le; lra].
    + right. field. lra.
Qed.

Lemma mollweide_pixel_centre_close_witness :
  Mollweide.pixel_centre (Some 800%Z) (Fin 1) (Fin 0.5) = Ok (P_scalar NaN NaN) \/
  exists x' y' : R,
    Mollweide.pixel_centre (Some 800%Z) (Fin 1) (Fin 0.5)
      = Ok (P_scalar (Fin x') (Fin y')) /\
    x' * x' / 4 + y' * y' <= 1 /\
    Rabs (x' - 1) <= 1 / Mollweide.xc 800 /\
    Rabs (y' - 0.5) <= 1 / (2 * Mollweide.yc 800).
Proof.
  apply (mollweide_pixel_centre_close 800 1 0.5).
  - lia.
  - lra.
Defined.

(** ** Mollweide: the array branch of [xy2vec] *)

Lemma select_pairs_assign (m : fval -> fval -> bool) (g : fval -> fval -> fval) :
  forall xs ys : list fval,
    length ys = length xs ->
    let M := map (fun p => m (fst p) (snd p)) (combine xs ys) in
    assign (map negb M) (repeat NaN (length xs))
      (zip_with g (select (map negb M) xs) (select (map negb M) ys))
    = map (fun p => if m (fst p) (snd p) then NaN else g (fst p) (snd p))
          (combine xs ys).
Proof.
  induction xs as [| a xs IH]; intros ys Hlen.
  - reflexivity.
  - destruct ys as [| b ys]; [discriminate |]. simpl in Hlen.
    cbv zeta in *. simpl. destruct (m a b); simpl.
    + f_equal. apply IH. lia.
    + f_equal. apply IH. lia.
Qed.

Lemma zip_with_snd (h : fval -> fval) :
  forall l m : list fval,
    length m = length l -> map h m = zip_with (fun _ y => h y) l m.
Proof.
  unfold zip_with. induction l as [| x l IH]; intros m Hlen.
  - destruct m; [reflexivity | discriminate].
  - destruct m as [| y m]; [discriminate |]. simpl. f_equal. apply IH.
    simpl in Hlen. lia.
Qed.

Lemma zip_with_fuse (f : fval -> fval -> fval) (h : fval -> fval)
    (q : fval -> fval -> fval) :
  forall l m : list fval,
    zip_with f (map h m) (zip_with q l m)
    = zip_with (fun x y => f (h y) (q x y)) l m.
Proof.
  unfold zip_with. induction l as [| x l IH]; intros m.
  - destruct m; reflexivity.
  - destruct m as [| y m]; [reflexivity |]. simpl. f_equal. apply IH.
Qed.

Lemma select_same_length (w : list bool) :
  forall a b : list fval,
    length a = length w -> length b = length w ->
    length (select w b) = length (select w a).
Proof.
  intros a b Ha Hb. rewrite !select_length by assumption. reflexivity.
Qed.

(** The vector [xy2vec] gives at one plane point in direct mode. *)
Lemma mollweide_xy2vec_point (rotator_I : vec3 -> result vec3) (flip : Z)
    (a b : fval) :
  Mollweide.xy2vec rotator_I flip (XY_both (Sc a) (Sc b)) true
  = Ok (Sc (if Mollweide.outside a b then NaN
            else (Mollweide.point_sz (Mollweide.point_z b)
                  *^ fcos (Mollweide.point_phi flip a b))%fv),
        Sc (if Mollweide.outside a b then NaN
            else (Mollweide.point_sz (Mollweide.point_z b)
                  *^ fsin (Mollweide.point_phi flip a b))%fv),
        Sc (if Mollweide.outside a b then NaN else Mollweide.point_z b)).
Proof.
  unfold Mollweide.xy2vec. cbn [xy_unpack].
  destruct (Mollweide.outside a b); reflexivity.
Qed.

(** X24.  The array branch of [MollweideProj.xy2vec] agrees with the
    scalar branch: on parallel arrays of equal length (direct mode) it
    returns three arrays of that length whose entries at each position are
    the vector the scalar call returns for the plane point at that
    position, not-a-number where the point is outside the ellipse. *)
Theorem mollweide_xy2vec_arrays_pointwise
    (rotator_I : vec3 -> result vec3) (flip : Z) (xs ys : list fval) :
  length ys = length xs ->
  exists v0 v1 v2 : list fval,
    Mollweide.xy2vec rotator_I flip (XY_both (Ar xs) (Ar ys)) true
      = Ok (Ar v0, Ar v1, Ar v2) /\
    length v0 = length xs /\ length v1 = length xs /\ length v2 = length xs /\
    forall k : nat, (k < length xs)%nat ->
      Mollweide.xy2vec rotator_I flip
        (XY_both (Sc (nth k xs NaN)) (Sc (nth k ys NaN))) true
      = Ok (Sc (nth k v0 NaN), Sc (nth k v1 NaN), Sc (nth k v2 NaN)).
Proof.
  intros Hlen.
  set (F0 := fun p : fval * fval =>
               if Mollweide.outside (fst p) (snd p) then NaN
               else (Mollweide.point_sz (Mollweide.point_z (snd p))
                     *^ fcos (Mollweide.point_phi flip (fst p) (snd p)))%fv).
  set (F1 := fun p : fval * fval =>
               if Mollweide.outside (fst p) (snd p) then NaN
               else (Mollweide.point_sz (Mollweide.point_z (snd p))
                     *^ fsin (Mollweide.point_phi flip (fst p) (snd p)))%fv).
  set (F2 := fun p : fval * fval =>
               if Mollweide.outside (fst p) (snd p) then NaN
               else Mollweide.point_z (snd p)).
  exists (map F0 (combine xs ys)), (map F1 (combine xs ys)), (map F2 (combine xs ys)).
  split.
  - unfold Mollweide.xy2vec. cbn [xy_unpack].
    rewrite <- Hlen, Nat.eqb_refl. cbn [negb]. unfold where_false.
    set (M := map (fun p : fval * fval => Mollweide.outside (fst p) (snd p))
                  (combine xs ys)).
    assert (LM : length M = length xs).
    { unfold M. rewrite length_map, length_combine. lia. }
    rewrite nans_repeat.
    rewrite (gather_where0 M ys) by lia. unfold bind at 1.
    rewrite (gather_where0 M xs) by lia. unfold bind at 1.
    rewrite (scatter_where0 M) by (rewrite repeat_length; lia).
    rewrite (gather_where0 M) by (rewrite assign_length, repeat_length; lia).
    unfold bind at 1.
    rewrite !(scatter_where0 M) by (rewrite repeat_length; lia).
    cbn [negb].
    set (xw := select (map negb M) xs). set (yw := select (map negb M) ys).
    assert (Lw : length yw = length xw).
    { unfold xw, yw. apply select_same_length; rewrite length_map; lia. }
    assert (E2 : assign (map negb M) (repeat NaN (length ys)) (map Mollweide.point_z yw)
                 = map F2 (combine xs ys)).
    { rewrite (zip_with_snd Mollweide.point_z xw yw Lw). rewrite Hlen.
      unfold xw, yw, M.
      apply (select_pairs_assign Mollweide.outside
               (fun _ y => Mollweide.point_z y) xs ys Hlen). }
    rewrite E2.
    assert (Es : select (map negb M) (map F2 (combine xs ys))
                 = map Mollweide.point_z yw).
    { rewrite <- E2. apply select_assign.
      - rewrite repeat_length, length_map. lia.
      - rewrite length_map. unfold yw. apply select_length.
        rewrite length_map. lia. }
    rewrite Es. rewrite map_map. rewrite !zip_with_fuse. rewrite Hlen.
    unfold xw, yw, M.
    rewrite (select_pairs_assign Mollweide.outside
               (fun x y => (Mollweide.point_sz (Mollweide.point_z y)
                            *^ fcos (Mollweide.point_phi flip x y))%fv) xs ys Hlen).
    rewrite (select_pairs_assign Mollweide.outside
               (fun x y => (Mollweide.point_sz (Mollweide.point_z y)
                            *^ fsin (Mollweide.point_phi flip x y))%fv) xs ys Hlen).
    reflexivity.
  - split; [apply length_map_combine; exact Hlen |].
    split; [apply length_map_combine; exact Hlen |].
    split; [apply length_map_combine; exact Hlen |].
    intros k Hk.
    rewrite !(nth_map_combine _ xs ys NaN NaN NaN k Hlen Hk).
    apply mollweide_xy2vec_point.
Qed.

Lemma mollweide_xy2vec_arrays_pointwise_witness :
  exists v0 v1 v2 : list fval,
    Mollweide.xy2vec (fun v => Ok v) (-1)
      (XY_both (Ar [Fin 0; Fin 3]) (Ar [Fin 0; Fin 0])) true
      = Ok (Ar v0, Ar v1, Ar v2) /\
    length v0 = 2%nat /\ length v1 = 2%nat /\ length v2 = 2%nat /\
    forall k : nat, (k < 2)%nat ->
      Mollweide.xy2vec (fun v => Ok v) (-1)
        (XY_both (Sc (nth k [Fin 0; Fin 3] NaN)) (Sc (nth k [Fin 0; Fin 0] NaN))) true
      = Ok (Sc (nth k v0 NaN), Sc (nth k v1 NaN), Sc (nth k v2 NaN)).
Proof.
  apply (mollweide_xy2vec_arrays_pointwise (fun v => Ok v) (-1)
           [Fin 0; Fin 3] [Fin 0; Fin 0]).
  reflexivity.
Defined.
